(** * cidermill: the runner pool of [server.py]

    A shallow embedding of the lifecycle supervision code of [server.py]
    (provisioning, the two coupled subtasks, the shielded cleanup, the
    backoff loop, the credential exchange and the log forwarding), followed
    by the properties the specification states about it.

    The program runs on trio.  The parts of trio and of the Python standard
    library the code calls are modelled by a small monad of timed
    computations: a computation is started at a time, inside cancel scopes
    that become cancelled at some time, and it returns, raises, or blocks
    for ever; it records the externally visible actions it performed.
    What the outside world does (how long a child process runs, what it
    exits with, what the control plane answers) is given by an oracle
    record, so every function below is executable. *)

From Stdlib Require Import ZArith List Bool String Ascii Lia Arith PeanoNat DecimalString.
From Stdlib Require Import FunInd.
Import ListNotations.

Set Implicit Arguments.
Open Scope string_scope.
Open Scope list_scope.
Open Scope nat_scope.

(** ** Text and bytes *)

(** A Python [str] is a sequence of code points, a [bytes] a sequence of
    octets; both are lists of integers here. *)
Definition text := list Z.
Definition bytes := list Z.

Definition txt (s : string) : text :=
  map (fun a => Z.of_nat (nat_of_ascii a)) (list_ascii_of_string s).

Arguments txt : simpl never.

(** [str(n)] for an integer. *)
Definition str_int (z : Z) : text := txt (NilZero.string_of_int (Z.to_int z)).

Fixpoint text_eqb (a b : text) : bool :=
  match a, b with
  | [], [] => true
  | x :: a', y :: b' => (x =? y)%Z && text_eqb a' b'
  | _, _ => false
  end.

(** ** Exceptions *)

Inductive exn : Type :=
| CalledProcessError (rc : Z)   (* subprocess.CalledProcessError *)
| FileNotFoundError             (* the executable could not be started *)
| UnboundLocalError             (* a local name read before assignment *)
| KeyError                      (* a missing key of a JSON object *)
| HTTPError                     (* a failed exchange with the control plane *)
| UnicodeDecodeError            (* undecodable process output *)
| Cancelled                     (* trio.Cancelled *)
| SystemExit (code : Z)         (* sys.exit / raise SystemExit *)
| Group (e : exn).              (* an exception group of [e] and [Cancelled] *)

(** [except Exception] catches the subclasses of [Exception];
    [trio.Cancelled] and [SystemExit] derive from [BaseException] only, and
    so does a group that holds a [Cancelled]. *)
Definition is_Exception (e : exn) : bool :=
  match e with
  | Cancelled | SystemExit _ | Group _ => false
  | _ => true
  end.

(** ** Observable actions *)

Inductive task : Type := VmMonitor | Session.

Inductive event : Type :=
| EvLog (line : text)                 (* log(data): one print call *)
| EvSpawn (argv : list text)          (* a child process is started *)
| EvPost (url bearer : text)          (* an HTTPS POST with a bearer token *)
| EvCancelScope (by_task : task)      (* cancel_scope.cancel() *)
| EvCleanup                           (* the finally block of runner is entered *)
| EvAbandon                           (* the cleanup deadline fired *)
| EvReturned                          (* runner(config) returned normally *)
| EvFailed (e : exn)                  (* the except Exception handler is entered *)
| EvSleep (secs : nat).               (* trio.sleep(secs) is called *)

(** An action with the time it happened at. *)
Definition tevent : Type := nat * event.

(** ** Timed computations *)

Inductive result (A : Type) : Type :=
| Ret (a : A)
| Raise (e : exn)
| Hang.                               (* blocks for ever *)
Arguments Raise {A} e.
Arguments Hang {A}.

Record run (A : Type) : Type := MkRun {
  res : result A;
  fin : nat;                          (* the time the computation ended at *)
  evs : list tevent
}.

(** A computation reads the time at which the scopes around it become
    cancelled ([None]: never) and the time it is started at. *)
Definition M (A : Type) : Type := option nat -> nat -> run A.

Definition ret {A} (a : A) : M A := fun _ t => MkRun (Ret a) t [].
Definition raise {A} (e : exn) : M A := fun _ t => MkRun (Raise e) t [].

Definition bind {A B} (m : M A) (k : A -> M B) : M B := fun c t =>
  let r := m c t in
  match res r with
  | Ret a => let r' := k a c (fin r) in MkRun (res r') (fin r') (evs r ++ evs r')
  | Raise e => MkRun (Raise e) (fin r) (evs r)
  | Hang => MkRun Hang (fin r) (evs r)
  end.

Declare Scope m_scope.
Delimit Scope m_scope with m.
Notation "x <- m ;; k" := (bind m (fun x => k))
  (at level 61, m at next level, right associativity) : m_scope.
Notation "m ;; k" := (bind m (fun _ => k))
  (at level 61, right associativity) : m_scope.
Open Scope m_scope.

Definition emit (e : event) : M unit := fun _ t => MkRun (Ret tt) t [(t, e)].

Definition current_time : M nat := fun _ t => MkRun (Ret t) t [].

(** [try: m  except ...: h e]; [h] decides which exceptions it handles. *)
Definition try_except {A} (m : M A) (h : exn -> option (M A)) : M A := fun c t =>
  let r := m c t in
  match res r with
  | Raise e =>
      match h e with
      | Some k => let r' := k c (fin r) in MkRun (res r') (fin r') (evs r ++ evs r')
      | None => r
      end
  | _ => r
  end.

(** [try: m  finally: f].  An exception raised by [f] replaces the one in
    flight. *)
Definition try_finally {A} (m : M A) (f : M unit) : M A := fun c t =>
  let r := m c t in
  match res r with
  | Hang => r
  | _ =>
      let r' := f c (fin r) in
      MkRun (match res r' with
             | Ret _ => res r
             | Raise e => Raise e
             | Hang => Hang
             end) (fin r') (evs r ++ evs r')
  end.

(** *** Cancellation *)

Definition omin (a b : option nat) : option nat :=
  match a, b with
  | Some x, Some y => Some (Nat.min x y)
  | Some x, None => Some x
  | None, b => b
  end.

(** Is a scope with cancellation time [c] cancelled at time [t]? *)
Definition cancelled_at (c : option nat) (t : nat) : bool :=
  match c with
  | Some tc => tc <=? t
  | None => false
  end.

(** A checkpoint raises [Cancelled] when a surrounding scope is cancelled. *)
Definition checkpoint : M unit := fun c t =>
  if cancelled_at c t then MkRun (Raise Cancelled) t [] else MkRun (Ret tt) t [].

(** An action that starts with a checkpoint: it is not performed inside a
    cancelled scope. *)
Definition checked (e : event) : M unit := checkpoint ;; emit e.

(** Waiting for something that takes [d] time units ([None]: it never
    happens).  A cancellation that arrives first ends the wait. *)
Definition block (d : option nat) : M unit := fun c t =>
  match c, d with
  | Some tc, Some n =>
      if t + n <=? tc then MkRun (Ret tt) (t + n) []
      else MkRun (Raise Cancelled) (Nat.max t tc) []
  | Some tc, None => MkRun (Raise Cancelled) (Nat.max t tc) []
  | None, Some n => MkRun (Ret tt) (t + n) []
  | None, None => MkRun Hang t []
  end.

(** [with trio.CancelScope(deadline=deadline, shield=shield): body].
    With [shield] the body does not see the cancellation of the scopes
    around it.  On exit the scope absorbs a [Cancelled] when it is itself
    cancelled and the cancellation of its parents is not visible to it. *)
Definition with_cancel_scope (deadline : nat) (shield : bool) (body : M unit) : M unit :=
  fun c t =>
    let inner := if shield then Some deadline else omin (Some deadline) c in
    let r := body inner t in
    match res r with
    | Raise Cancelled =>
        if (deadline <=? fin r) && (shield || negb (cancelled_at c (fin r)))
        then MkRun (Ret tt) (fin r) (evs r ++ [(fin r, EvAbandon)])
        else r
    | _ => r
    end.

(** [await trio.sleep(secs)]. *)
Definition sleep (secs : nat) : M unit :=
  checked (EvSleep secs) ;; block (Some secs).

(** [log(data)]: [print(data, flush=True)], no checkpoint. *)
Definition log (data : text) : M unit := emit (EvLog data).

(** ** Child processes *)

Record completed : Type := MkCompleted {
  returncode : Z;
  stdout : bytes
}.

(** What a child process does when it is started: how long it runs when
    it is left alone ([None]: for ever), what it ends with ([None] when the
    executable could not be started), how long it takes to exit once it is
    sent SIGTERM ([None]: it does not react to it), and how long it takes
    to be gone once it is sent SIGKILL. *)
Record proc : Type := MkProc {
  p_dur : option nat;
  p_end : option completed;
  p_term : option nat;
  p_kill : nat
}.

(** When the wait for a child is cancelled, [trio.run_process] ends the
    child and goes on waiting for it, shielded from any cancellation: it
    sends SIGTERM and, when the child is still there five seconds later,
    SIGKILL.  [dies_after term kill] is the time from the cancellation to
    the end of a child that does not exit by itself before. *)
Definition dies_after (term : option nat) (kill : nat) : nat :=
  match term with
  | Some n => Nat.min n (5 + kill)
  | None => 5 + kill
  end.

(** The end of a child that would exit by itself at [natural] and is ended
    from [tk] on. *)
Definition stopped (natural : option nat) (tk dies : nat) : nat :=
  match natural with
  | Some n => Nat.min n (tk + dies)
  | None => tk + dies
  end.

(** Waiting for a child process started at the time the wait begins. *)
Definition wait_process (p : proc) : M unit := fun c t =>
  let r := block (p_dur p) c t in
  match res r with
  | Raise _ =>
      MkRun (Raise Cancelled)
            (stopped (option_map (Nat.add t) (p_dur p)) (fin r)
                     (dies_after (p_term p) (p_kill p))) []
  | _ => r
  end.

(** [await trio.run_process(argv, check=check)].  [check] defaults to [True]
    in trio: a non-zero exit status raises [CalledProcessError]. *)
Definition run_process (check : bool) (argv : list text) (p : proc) : M completed :=
  checked (EvSpawn argv) ;;
  match p_end p with
  | None => raise FileNotFoundError
  | Some r =>
      wait_process p ;;
      if check && negb (returncode r =? 0)%Z
      then raise (CalledProcessError (returncode r))
      else ret r
  end.

(** ** String operations of the Python library *)

Definition in_range (lo hi b : Z) : bool := ((lo <=? b) && (b <=? hi))%Z.

(** [str.isspace] on one code point. *)
Definition isspace (c : Z) : bool :=
  in_range 9 13 c || in_range 28 32 c || (c =? 133)%Z || (c =? 160)%Z
  || (c =? 5760)%Z || in_range 8192 8202 c || (c =? 8232)%Z || (c =? 8233)%Z
  || (c =? 8239)%Z || (c =? 8287)%Z || (c =? 12288)%Z.

Fixpoint lstrip (s : text) : text :=
  match s with
  | c :: s' => if isspace c then lstrip s' else s
  | [] => []
  end.

Definition rstrip (s : text) : text := rev (lstrip (rev s)).

(** [s.strip()]. *)
Definition strip (s : text) : text := rstrip (lstrip s).

(** The truth value of a [str]: it is not empty. *)
Definition truthy (s : text) : bool :=
  match s with
  | [] => false
  | _ :: _ => true
  end.

(** The line boundaries of [str.splitlines]: LF, VT, FF, CR, FS, GS, RS,
    NEL, LS, PS (and CR LF taken as one). *)
Definition is_linebreak (c : Z) : bool :=
  in_range 10 13 c || in_range 28 30 c || (c =? 133)%Z || (c =? 8232)%Z
  || (c =? 8233)%Z.

(** [s.splitlines(True)]: the lines of [s], each with its line break. *)
Fixpoint splitlines (s : text) : list text :=
  match s with
  | [] => []
  | c :: s' =>
      if (c =? 13)%Z then
        match s' with
        | c' :: s'' =>
            if (c' =? 10)%Z then [c; c'] :: splitlines s''
            else [c] :: splitlines s'
        | [] => [[c]]
        end
      else if is_linebreak c then [c] :: splitlines s'
      else
        match splitlines s' with
        | [] => [[c]]
        | l :: ls => (c :: l) :: ls
        end
  end.

(** [textwrap.indent(text, prefix)]: the prefix is added to the lines that
    do not consist solely of whitespace. *)
Definition indent (t prefix : text) : text :=
  List.concat (map (fun line => if truthy (strip line) then prefix ++ line else line)
              (splitlines t)).

(** [bs.decode("ascii")]. *)
Definition decode_ascii (bs : bytes) : option text :=
  if forallb (in_range 0 127) bs then Some bs else None.

(** [binascii.hexlify(bs).decode("ascii")]. *)
Definition hex_digit (d : Z) : Z := if (d <? 10)%Z then (48 + d)%Z else (87 + d)%Z.

Definition hexlify (bs : bytes) : text :=
  flat_map (fun b => [hex_digit (b / 16); hex_digit (b mod 16)]%Z) bs.

(** [os.path.join(a, b)] for a relative [b]. *)
Definition path_join (a b : text) : text :=
  match rev a with
  | [] => b
  | c :: _ => if (c =? 47)%Z then a ++ b else a ++ txt "/" ++ b
  end.

(** *** The incremental UTF-8 decoder

    [codecs.getincrementaldecoder("utf8")()] keeps the bytes of an
    incomplete sequence until the next chunk and raises on a malformed
    one.  [utf8_decode bs] is what [decode] does with the bytes [bs] it has
    (the bytes kept before, then the new chunk): the text it returns and
    the bytes it keeps, or the error.  The first two bytes of an encoded
    surrogate (ED, then A0 to BF) are kept while they are the last bytes
    there are, and are an error as soon as another byte follows. *)

Inductive decoded : Type :=
| Decoded (t : text) (pending : bytes)
| DecodeError.

Definition push (c : Z) (d : decoded) : decoded :=
  match d with
  | Decoded t p => Decoded (c :: t) p
  | DecodeError => DecodeError
  end.

Definition cont (b : Z) : bool := in_range 128 191 b.

(** The second byte of a sequence is further restricted after E0, ED, F0
    and F4 (no overlong forms, no surrogates, nothing above U+10FFFF). *)
Definition second_ok (b0 b1 : Z) : bool :=
  if (b0 =? 224)%Z then in_range 160 191 b1
  else if (b0 =? 237)%Z then in_range 128 159 b1
  else if (b0 =? 240)%Z then in_range 144 191 b1
  else if (b0 =? 244)%Z then in_range 128 143 b1
  else cont b1.

Fixpoint utf8_decode (bs : bytes) : decoded :=
  match bs with
  | [] => Decoded [] []
  | b0 :: r0 =>
      if in_range 0 127 b0 then push b0 (utf8_decode r0)
      else if in_range 194 223 b0 then
        match r0 with
        | [] => Decoded [] [b0]
        | b1 :: r1 =>
            if cont b1
            then push ((b0 - 192) * 64 + (b1 - 128))%Z (utf8_decode r1)
            else DecodeError
        end
      else if in_range 224 239 b0 then
        match r0 with
        | [] => Decoded [] [b0]
        | b1 :: r1 =>
            if second_ok b0 b1 then
              match r1 with
              | [] => Decoded [] [b0; b1]
              | b2 :: r2 =>
                  if cont b2
                  then push ((b0 - 224) * 4096 + (b1 - 128) * 64 + (b2 - 128))%Z
                            (utf8_decode r2)
                  else DecodeError
              end
            else if (b0 =? 237)%Z && in_range 160 191 b1 then
              match r1 with
              | [] => Decoded [] [b0; b1]
              | _ :: _ => DecodeError
              end
            else DecodeError
        end
      else if in_range 240 244 b0 then
        match r0 with
        | [] => Decoded [] [b0]
        | b1 :: r1 =>
            if second_ok b0 b1 then
              match r1 with
              | [] => Decoded [] [b0; b1]
              | b2 :: r2 =>
                  if cont b2 then
                    match r2 with
                    | [] => Decoded [] [b0; b1; b2]
                    | b3 :: r3 =>
                        if cont b3
                        then push ((b0 - 240) * 262144 + (b1 - 128) * 4096
                                   + (b2 - 128) * 64 + (b3 - 128))%Z
                                  (utf8_decode r3)
                        else DecodeError
                    end
                  else DecodeError
              end
            else DecodeError
        end
      else DecodeError
  end.

(** ** Configuration and the outside world *)

Record Config : Type := MkConfig {
  base_dir : text;                    (* BASE_DIR *)
  app_id : Z;
  installation_id : Z;
  org : text;
  base_image : text;
  cpus : Z;
  memory : Z;
  user : text;
  runner_base_name : text;
  labels : text;
  num_vms : nat
}.

(** A JSON object, as the dict [res.json()] returns. *)
Definition json : Type := list (string * text).

Fixpoint getitem (key : string) (d : json) : option text :=
  match d with
  | [] => None
  | (k, v) :: d' => if String.eqb k key then Some v else getitem key d'
  end.

(** One HTTPS exchange: how long it takes and what it ends with ([None] when
    the request fails or the answer is not JSON). *)
Record http : Type := MkHttp {
  h_dur : option nat;
  h_end : option json
}.

(** The agent process started over ssh: whether it starts, the chunks its
    output stream delivers (each after a delay), the time from the last
    chunk to the end of the stream and of the process, and how it reacts to
    SIGTERM and SIGKILL (as for [proc]). *)
Record agent : Type := MkAgent {
  a_start : bool;
  a_chunks : list (nat * bytes);
  a_tail : option nat;
  a_term : option nat;
  a_kill : nat
}.

(** How long the agent runs when it is left alone. *)
Definition a_dur (a : agent) : option nat :=
  match a_tail a with
  | Some n => Some (list_sum (map fst (a_chunks a)) + n)
  | None => None
  end.

(** Everything the outside world contributes to one lifecycle. *)
Record World : Type := MkWorld {
  w_urandom : bytes;                  (* os.urandom(4) *)
  w_clone : proc;                     (* tart clone *)
  w_set : proc;                       (* tart set *)
  w_vm : proc;                        (* tart run *)
  w_ip : nat -> proc;                 (* the successive tart ip calls *)
  w_scp : proc;
  w_jwt : text;                       (* the signed assertion *)
  w_access : http;                    (* the access-token exchange *)
  w_registration : text -> http;      (* the registration-token exchange,
                                         by the bearer token presented *)
  w_ssh : agent;
  w_delete : proc                     (* tart delete *)
}.

(** ** The program *)

(** [str(e)] for the exceptions the supervisor logs. *)
Definition str_exn (e : exn) : text :=
  match e with
  | CalledProcessError rc =>
      txt "Command returned non-zero exit status " ++ str_int rc ++ txt "."
  | FileNotFoundError => txt "[Errno 2] No such file or directory"
  | UnboundLocalError =>
      txt "cannot access local variable 'result' where it is not associated with a value"
  | KeyError => txt "'token'"
  | HTTPError => txt "HTTP error"
  | UnicodeDecodeError => txt "'utf-8' codec can't decode bytes"
  | Cancelled => txt "Cancelled"
  | SystemExit code => str_int code
  | Group _ => txt "unhandled errors in a TaskGroup"
  end.

(** [d[key]]. *)
Definition subscript (d : json) (key : string) : M text :=
  match getitem key d with
  | Some v => ret v
  | None => raise KeyError
  end.

(** [await client.post(url, headers={..."Authorization": f"Bearer {bearer}"})]
    followed by [res.json()]. *)
Definition post (url bearer : text) (h : http) : M json :=
  checked (EvPost url bearer) ;;
  block (h_dur h) ;;
  match h_end h with
  | None => raise HTTPError
  | Some j => ret j
  end.

(** [generate_jwt]: the signing itself is done by the jwt library. *)
Definition generate_jwt (w : World) : M text := ret (w_jwt w).

Definition get_registration_token (config : Config) (w : World) : M text :=
  log (txt "Requesting new runner registration-token to github ...") ;;
  app_token <- generate_jwt w ;;
  response_data <- post (txt "https://api.github.com/app/installations/"
                         ++ str_int (installation_id config) ++ txt "/access_tokens")
                        app_token (w_access w) ;;
  endpoint_token <- subscript response_data "token" ;;
  response_data <- post (txt "https://api.github.com/orgs/" ++ org config
                         ++ txt "/actions/runners/registration-token")
                        endpoint_token (w_registration w endpoint_token) ;;
  token <- subscript response_data "token" ;;
  expires_at <- subscript response_data "expires_at" ;;
  log (txt "New registration token is " ++ token ++ txt " and expires at "
       ++ expires_at) ;;
  subscript response_data "token".

Definition provision_tart_vm (config : Config) (w : World) : M text :=
  let random := hexlify (w_urandom w) in
  let runner_name := runner_base_name config ++ txt "-" ++ random in
  log (txt "Provisioning: " ++ runner_name) ;;
  result <- run_process true
              [txt "tart"; txt "clone"; base_image config; runner_name]
              (w_clone w) ;;
  (if negb (returncode result =? 0)%Z
   then log (txt "Failed to clone tart image") ;; raise (SystemExit 1)
   else ret tt) ;;
  result <- run_process true
              [txt "tart"; txt "set"; runner_name; txt "--cpu";
               str_int (cpus config); txt "--memory"; str_int (memory config)]
              (w_set w) ;;
  (if negb (returncode result =? 0)%Z
   then log (txt "Failed to set limits on tart image") ;; raise (SystemExit 1)
   else ret tt) ;;
  ret runner_name.

(** The loop of [get_tart_ip]: [fuel] is [retries - attempts], the number of
    iterations the [while] can still make.  [None] stands for leaving the
    loop with [result] never assigned. *)
Fixpoint get_tart_ip_loop (ip : nat -> proc) (runner_name : text)
         (attempts fuel : nat) : M (option completed) :=
  match fuel with
  | 0 => ret None
  | S fuel' =>
      try_except
        (result <- run_process true
                     [txt "tart"; txt "ip"; runner_name; txt "--wait"; txt "3"]
                     (ip attempts) ;;
         ret (Some result))
        (fun e =>
           match e with
           | CalledProcessError _ =>
               Some (get_tart_ip_loop ip runner_name (S attempts) fuel')
           | _ => None
           end)
  end.

Definition get_tart_ip (ip : nat -> proc) (runner_name : text) (retries : nat)
  : M text :=
  result <- get_tart_ip_loop ip runner_name 0 retries ;;
  match result with
  | None => raise UnboundLocalError
  | Some r =>
      match decode_ascii (stdout r) with
      | Some s => ret (strip s)
      | None => raise UnicodeDecodeError
      end
  end.

Definition scp_actions_runner (config : Config) (w : World) (ip : text) : M unit :=
  log (txt "Copying files to VM") ;;
  run_process true
    [txt "scp"; txt "-i"; txt "./id_rsa"; txt "-o"; txt "StrictHostKeyChecking=no";
     txt "-o"; txt "UserKnownHostsFile=/dev/null";
     path_join (base_dir config) (txt "actions-runner.tar.gz");
     path_join (path_join (base_dir config) (txt "files")) (txt "runner-launcher.sh");
     user config ++ txt "@" ++ ip ++ txt ":~/"]
    (w_scp w) ;;
  log (txt "Copied files to VM").

(** [log_output]: every chunk of the stream is decoded, indented with the
    runner's name and printed. *)
Fixpoint log_output (pending : bytes) (chunks : list (nat * bytes))
         (runner_name : text) : M unit :=
  match chunks with
  | [] => ret tt
  | (d, b) :: chunks' =>
      block (Some d) ;;
      match utf8_decode (pending ++ b) with
      | DecodeError => raise UnicodeDecodeError
      | Decoded t pending' =>
          log (indent t (runner_name ++ txt ": ")) ;;
          log_output pending' chunks' runner_name
      end
  end.

(** The [try] block of [run_vm_then_cancel]. *)
Definition vm_process (w : World) (runner_name : text) : M unit :=
  run_process false [txt "tart"; txt "run"; runner_name; txt "--no-graphics"]
              (w_vm w) ;;
  ret tt.

Definition run_vm_then_cancel (w : World) (runner_name : text) : M unit :=
  try_finally (vm_process w runner_name) (emit (EvCancelScope VmMonitor)).

(** The nursery of [run_runner_then_cancel] once the agent runs: the task
    that waits for the process ([trio.run_process], started with
    [nursery.start]) beside the task [reader] that forwards its output.
    When the reader ends with an exception while the process is running
    (it is cancelled, or it fails and so cancels the nursery), the process
    is ended as [run_process] does it, and the nursery is left when it is
    gone: with the reader's exception, in a group with the [Cancelled] of
    the process task when the cancellation of the scopes around is visible
    by then. *)
Definition with_process (dur : option nat) (dies : nat) (reader : M unit) : M unit :=
  fun c t =>
    let r := reader c t in
    match res r with
    | Raise e =>
        let t' := stopped (option_map (Nat.add t) dur) (fin r) dies in
        MkRun (match e with
               | Cancelled | Group _ => Raise e
               | _ => if cancelled_at c t' then Raise (Group e) else Raise e
               end) t' (evs r)
    | _ => r
    end.

(** The agent is started over ssh ([nursery.start]); its output is
    forwarded until the stream closes and the process has exited. *)
Definition launch_runner (config : Config) (w : World) (runner_name ip token : text)
  : M unit :=
  checked (EvSpawn
             [txt "ssh"; txt "-i"; txt "./id_rsa"; txt "-o";
              txt "StrictHostKeyChecking=no"; txt "-o";
              txt "UserKnownHostsFile=/dev/null";
              user config ++ txt "@" ++ ip;
              txt "~/runner-launcher.sh " ++ token ++ txt " " ++ runner_name
              ++ txt " https://github.com/" ++ org config ++ txt " "
              ++ labels config]) ;;
  if a_start (w_ssh w)
  then with_process (a_dur (w_ssh w))
                    (dies_after (a_term (w_ssh w)) (a_kill (w_ssh w)))
         (log_output [] (a_chunks (w_ssh w)) runner_name ;;
          block (a_tail (w_ssh w)))
  else raise FileNotFoundError.

(** The [try] block of [run_runner_then_cancel]. *)
Definition execution_session (config : Config) (w : World) (runner_name : text)
  : M unit :=
  ip <- get_tart_ip (w_ip w) runner_name 4 ;;
  scp_actions_runner config w ip ;;
  token <- get_registration_token config w ;;
  log (txt "Launching runner...") ;;
  launch_runner config w runner_name ip token.

Definition run_runner_then_cancel (config : Config) (w : World) (runner_name : text)
  : M unit :=
  try_finally (execution_session config w runner_name)
              (emit (EvCancelScope Session)).

(** *** A nursery with two children

    [async with trio.open_nursery() as nursery:] with two [start_soon]
    calls.  Both children run inside the nursery's cancel scope, which is
    passed to them; the scope becomes cancelled the first time a child calls
    [cancel_scope.cancel()].  The block is left only when both children have
    exited. *)

(** The time of the first [cancel_scope.cancel()] among the actions. *)
Fixpoint first_cancel (l : list tevent) : option nat :=
  match l with
  | [] => None
  | (t, EvCancelScope _) :: _ => Some t
  | _ :: l' => first_cancel l'
  end.

(** The actions of two tasks in the order of their times; at equal times the
    first task's come first. *)
Fixpoint merge (a : list tevent) : list tevent -> list tevent :=
  match a with
  | [] => fun b => b
  | x :: a' =>
      fix inner (b : list tevent) : list tevent :=
        match b with
        | [] => x :: a'
        | y :: b' =>
            if fst x <=? fst y then x :: merge a' b else y :: inner b'
        end
  end.

(** A cancelled scope absorbs [Cancelled] on exit unless the cancellation of
    its parents is visible too; from a group it takes the [Cancelled] out.
    (A group that keeps its [Cancelled] is represented by it from here on,
    see [join].) *)
Definition absorb (scope_cancelled parent_cancelled : bool) (r : result unit)
  : result unit :=
  match r with
  | Raise Cancelled =>
      if scope_cancelled && negb parent_cancelled then Ret tt else r
  | Raise (Group e) =>
      if scope_cancelled && negb parent_cancelled then Raise e else Raise Cancelled
  | _ => r
  end.

(** What leaves the nursery: nothing, or the children's exceptions as a
    group.  The group is represented by one of its members, by one that
    [except Exception] does not catch when there is one. *)
Definition join (r1 r2 : result unit) : result unit :=
  match r1, r2 with
  | Hang, _ | _, Hang => Hang
  | Ret _, Ret _ => Ret tt
  | Raise e, Ret _ | Ret _, Raise e => Raise e
  | Raise e1, Raise e2 =>
      if is_Exception e1 && negb (is_Exception e2) then Raise e2 else Raise e1
  end.

(** The end of the block, from the runs of the child that cancelled first
    (or of any child when none did) and of the other. *)
Definition nursery_exit (c : option nat) (scope_cancelled : bool)
           (first other : run unit) : run unit :=
  let t' := Nat.max (fin first) (fin other) in
  let ab := absorb scope_cancelled (cancelled_at c t') in
  MkRun (join (ab (res first)) (ab (res other))) t'
        (merge (evs first) (evs other)).

(** The time at which the nursery's scope becomes cancelled, from the runs
    the children make when left alone. *)
Definition scope_cancel (na nb : run unit) : option nat :=
  omin (first_cancel (evs na)) (first_cancel (evs nb)).

(** Is the first child the one that cancels first?  (It is at equal
    times.) *)
Definition cancels_first (na nb : run unit) : bool :=
  match first_cancel (evs na), first_cancel (evs nb) with
  | Some ta, Some tb => ta <=? tb
  | Some _, None => true
  | None, _ => false
  end.

(** The child that cancels first runs as it does when left alone; the other
    one runs inside the scope cancelled at that time. *)
Definition nursery2 (a b : M unit) : M unit := fun c t =>
  let na := a c t in
  let nb := b c t in
  match scope_cancel na nb with
  | None => nursery_exit c false na nb
  | Some tc =>
      if cancels_first na nb
      then nursery_exit c true na (b (omin (Some tc) c) t)
      else nursery_exit c true nb (a (omin (Some tc) c) t)
  end.

(** *** One lifecycle *)

(** The nursery of [runner] with its two subtasks. *)
Definition subtasks (config : Config) (w : World) (runner_name : text) : M unit :=
  nursery2 (run_vm_then_cancel w runner_name)
           (run_runner_then_cancel config w runner_name).

Definition delete_argv (runner_name : text) : list text :=
  [txt "tart"; txt "delete"; runner_name].

(** The cleanup of [runner]: the [finally] block. *)
Definition cleanup (w : World) (runner_name : text) : M unit :=
  emit EvCleanup ;;
  now <- current_time ;;
  with_cancel_scope (now + 5) true
    (run_process true (delete_argv runner_name) (w_delete w) ;;
     ret tt).

Definition runner (config : Config) (w : World) : M unit :=
  runner_name <- provision_tart_vm config w ;;
  try_finally (subtasks config w runner_name) (cleanup w runner_name).

(** *** The slot supervisor *)

(** One turn of the [while True] loop of [keep_one_runner_running], from
    the current value of [retries] to the next. *)
(** The [except Exception as e] block. *)
Definition on_failure (e : exn) (retries : nat) : M nat :=
  emit (EvFailed e) ;;
  log (txt "Exception propagated to top level, restarting runner.") ;;
  log (str_exn e) ;;
  let retries := retries + 1 in
  log (txt "Sleeping " ++ str_int (Z.of_nat (2 ^ retries))
       ++ txt " seconds before retrying") ;;
  sleep (2 ^ retries) ;;
  ret retries.

Definition iteration (config : Config) (w : World) (retries : nat) : M nat :=
  try_except
    (runner config w ;;
     emit EvReturned ;;
     ret 0)
    (fun e => if is_Exception e then Some (on_failure e retries) else None).

(** The loop, for as many turns as there are worlds; it returns the value of
    [retries] when they run out (the loop itself has no exit), and raises
    what escapes a turn. *)
Fixpoint supervise (config : Config) (ws : list World) (retries : nat) : M nat :=
  match ws with
  | [] => ret retries
  | w :: ws' =>
      retries' <- iteration config w retries ;;
      supervise config ws' retries'
  end.

Definition keep_one_runner_running (config : Config) (ws : list World) : M nat :=
  supervise config ws 0.

(** *** Startup *)

(** What [startup_checks] finds on the host. *)
Record Host : Type := MkHost {
  host_tart : proc;                   (* tart --version *)
  host_path : option text;            (* os.environ["PATH"], when it is set *)
  host_archive : bool                 (* is BASE_DIR/actions-runner.tar.gz a file? *)
}.

(** The [except FileNotFoundError] block of [startup_checks]; the message
    is built before it is logged, and reads [os.environ["PATH"]]. *)
Definition tart_not_found (host : Host) : M unit :=
  match host_path host with
  | Some path =>
      log (txt "Could not find tart. Is homebrew in your PATH? Executing in a non-login"
           ++ txt "shell frequently causes this. Your current PATH is: " ++ path) ;;
      raise (SystemExit 1)
  | None => raise KeyError
  end.

Definition startup_checks (host : Host) : M unit :=
  try_except
    (run_process true [txt "tart"; txt "--version"] (host_tart host) ;;
     ret tt)
    (fun e =>
       match e with
       | FileNotFoundError => Some (tart_not_found host)
       | _ => None
       end) ;;
  if negb (host_archive host)
  then log (txt "Could not find actions-runner.tar.gz. Check the readme.") ;;
       raise (SystemExit 1)
  else ret tt.

(** *** Shutdown *)

(** [signal_handler]: waits for SIGINT or SIGTERM ([None]: none comes) and
    raises [SystemExit] with a message, which makes the exit status 1. *)
Definition signal_handler (signal : option nat) : M unit :=
  block signal ;;
  raise (SystemExit 1).

(** The time at which a child of a nursery raises, when it does. *)
Definition raise_time {A} (r : run A) : option nat :=
  match res r with
  | Raise _ => Some (fin r)
  | _ => None
  end.

(** [main]: the startup checks, then the nursery in which the signal
    handler and [num_vms] slot supervisors are siblings, each supervisor
    with the worlds given for its slot.  The first exception a child raises
    cancels the nursery's scope at that time; until then the children run
    as they do when left alone.  The result is the run of the startup
    checks and the runs of the supervisors. *)
Definition main (config : Config) (host : Host) (signal : option nat)
           (slots : list (list World)) : run unit * list (run nat) :=
  let s := startup_checks host None 0 in
  match res s with
  | Ret _ =>
      let workers := firstn (num_vms config) slots in
      let shutdown :=
        omin (raise_time (signal_handler signal None (fin s)))
             (fold_right omin None
                (map (fun ws =>
                        raise_time (keep_one_runner_running config ws None (fin s)))
                     workers)) in
      (s, map (fun ws => keep_one_runner_running config ws shutdown (fin s))
              workers)
  | _ => (s, [])
  end.

(** * The vocabulary of the properties *)

(** [acts P m]: every action [m] performs satisfies [P], which may depend on
    the cancellation time [m] runs under. *)
Definition acts (P : option nat -> tevent -> Prop) {A} (m : M A) : Prop :=
  forall c t, Forall (P c) (evs (m c t)).

(** A result that comes from a cancellation: [Cancelled], alone or in a
    group. *)
Definition interrupted {A} (r : result A) : Prop :=
  match r with
  | Raise Cancelled | Raise (Group _) => True
  | _ => False
  end.

(** A handler that does not catch a cancellation. *)
Definition passes_cancellation {A} (h : exn -> option (M A)) : Prop :=
  h Cancelled = None /\ forall e, h (Group e) = None.

(** [prompt m]: inside a scope cancelled at [tc], [m] never blocks for
    ever, and when it is still going on after [tc] (and after it was
    started) it ends because of the cancellation.  (How long after [tc] it
    ends depends on the child processes that have to be ended.) *)
Definition prompt {A} (m : M A) : Prop :=
  forall tc t,
    res (m (Some tc) t) <> Hang
    /\ (Nat.max t tc < fin (m (Some tc) t) -> interrupted (res (m (Some tc) t))).

(** [stable m]: when the scope around [m] is cancelled at [tc] on top of
    what cancels it anyway, [m] either runs exactly as before or ends
    because of the cancellation. *)
Definition stable {A} (m : M A) : Prop :=
  forall c tc t,
    m (omin (Some tc) c) t = m c t \/ interrupted (res (m (omin (Some tc) c) t)).

(** The time at which the delete command started at [t] is gone when the
    deadline of the cleanup fires on it. *)
Definition delete_gone (w : World) (t : nat) : nat :=
  stopped (option_map (Nat.add t) (p_dur (w_delete w))) (t + 5)
          (dies_after (p_term (w_delete w)) (p_kill (w_delete w))).

(** What [cleanup] does, whatever cancels the scopes around it: the delete
    command is started at once; the cleanup ends when the command ends,
    when that is within five time units; otherwise the command is ended
    from then on, and the cleanup ends when it is gone. *)
Definition cleanup_outcome (w : World) (runner_name : text) (t : nat) : run unit :=
  let started := [(t, EvCleanup); (t, EvSpawn (delete_argv runner_name))] in
  let gone := delete_gone w t in
  match p_end (w_delete w) with
  | None => MkRun (Raise FileNotFoundError) t started
  | Some r =>
      match p_dur (w_delete w) with
      | Some d =>
          if d <=? 5 then
            MkRun (if (returncode r =? 0)%Z then Ret tt
                   else Raise (CalledProcessError (returncode r)))
                  (t + d) started
          else MkRun (Ret tt) gone (started ++ [(gone, EvAbandon)])
      | None => MkRun (Ret tt) gone (started ++ [(gone, EvAbandon)])
      end
  end.

(** [forward m]: [m] does not end before it is started. *)
Definition forward {A} (m : M A) : Prop := forall c t, t <= fin (m c t).

Definition is_cancel (e : event) : bool :=
  match e with
  | EvCancelScope _ => true
  | _ => false
  end.

Definition is_cleanup (e : event) : bool :=
  match e with
  | EvCleanup => true
  | _ => false
  end.

(** The time a run ends at, when it ends. *)
Definition exit_time {A} (r : run A) : option nat :=
  match res r with
  | Hang => None
  | _ => Some (fin r)
  end.

(** The sibling of the subtask that exits first, at [tc]: [alone] is its run
    when left alone, [actual] its run inside the scope cancelled at [tc].
    It comes to an end; it runs as it does alone or ends because of the
    cancellation, and it does the latter when it would have gone on. *)
Definition sibling_cancelled (alone actual : run unit) (tc : nat) : Prop :=
  res actual <> Hang
  /\ (actual = alone \/ interrupted (res actual))
  /\ (res alone = Hang \/ tc < fin alone -> interrupted (res actual)).

(** The nursery of the two subtasks when one of them exits, the first at
    [tc]: [first] is the run of the subtask that exits first, [alone] the
    run of the other one when it is left alone, [sibling] its run inside
    the scope cancelled at [tc], [nursery] the run of the nursery.  The
    nursery is left when both are over, and what it does is what [first]
    and [sibling] do. *)
Definition coupled (first alone sibling nursery : run unit) (tc : nat) : Prop :=
  exit_time first = Some tc
  /\ sibling_cancelled alone sibling tc
  /\ res nursery <> Hang
  /\ fin nursery = Nat.max (fin first) (fin sibling)
  /\ (forall te, In te (evs nursery) <-> In te (evs first) \/ In te (evs sibling)).

(** Both subtasks have cancelled the scope before the cleanup is entered,
    and nothing cancels it afterwards. *)
Definition cancels_precede_cleanup (l : list tevent) : Prop :=
  forall pre post tcl,
    l = pre ++ (tcl, EvCleanup) :: post ->
    In (EvCancelScope VmMonitor) (map snd pre)
    /\ In (EvCancelScope Session) (map snd pre)
    /\ Forall (fun te => is_cancel (snd te) = false) post.

(** One lifecycle, step by step: provisioning, the nursery of the two
    subtasks, the cleanup. *)
Definition lifecycle (config : Config) (w : World) (c : option nat) (t : nat)
  : run unit :=
  let p := provision_tart_vm config w c t in
  match res p with
  | Ret name =>
      let n := subtasks config w name c (fin p) in
      match res n with
      | Hang => MkRun Hang (fin n) (evs p ++ evs n)
      | _ =>
          let k := cleanup_outcome w name (fin n) in
          MkRun (match res k with
                 | Ret _ => res n
                 | Raise e => Raise e
                 | Hang => Hang
                 end) (fin k) (evs p ++ evs n ++ evs k)
      end
  | Raise e => MkRun (Raise e) (fin p) (evs p)
  | Hang => MkRun Hang (fin p) (evs p)
  end.

(** What the specification says of the cleanup of a lifecycle that has been
    provisioned as [name] and whose subtasks are over: it is entered when
    the nursery is left, the cancellation of the scopes around has no
    effect on it, the delete command is started at once, and it is over
    within five time units. *)
Definition cleanup_guarantee (config : Config) (w : World) (c : option nat)
           (t : nat) (name : text) : Prop :=
  let p := provision_tart_vm config w c t in
  let n := subtasks config w name c (fin p) in
  let k := cleanup w name c (fin n) in
  evs (runner config w c t) = evs p ++ evs n ++ evs k
  /\ k = cleanup w name None (fin n)
  /\ k = cleanup_outcome w name (fin n)
  /\ In (fin n, EvSpawn (delete_argv name)) (evs k)
  /\ res k <> Hang
  /\ fin k <= fin n + 5
  /\ res (runner config w c t) <> Hang
  /\ fin (runner config w c t) = fin k.

(** The same with the bound the code keeps.  The cleanup is over within
    five time units when the delete command ends by then.  When it does
    not, the command is ended from the deadline on and the cleanup is over
    when it is gone: that takes up to five more time units, and then the
    time the command takes to die of SIGKILL. *)
Definition cleanup_guarantee_amended (config : Config) (w : World) (c : option nat)
           (t : nat) (name : text) : Prop :=
  let p := provision_tart_vm config w c t in
  let n := subtasks config w name c (fin p) in
  let k := cleanup w name c (fin n) in
  evs (runner config w c t) = evs p ++ evs n ++ evs k
  /\ k = cleanup w name None (fin n)
  /\ k = cleanup_outcome w name (fin n)
  /\ In (fin n, EvSpawn (delete_argv name)) (evs k)
  /\ res k <> Hang
  /\ ((forall d, p_dur (w_delete w) = Some d -> 5 < d) \/ fin k <= fin n + 5)
  /\ fin k <= fin n + 10 + p_kill (w_delete w)
  /\ res (runner config w c t) <> Hang
  /\ fin (runner config w c t) = fin k.

(** ** Sample worlds *)

(** A process that runs for [d], exits with [rc] and exits at once when it
    is sent SIGTERM; a process that runs for ever unless it is sent
    SIGTERM; a process that runs for ever and is ended by SIGKILL only. *)
Definition exits (d : nat) (rc : Z) (out : bytes) : proc :=
  MkProc (Some d) (Some (MkCompleted rc out)) (Some 0) 0.

Definition never_exits : proc := MkProc None (Some (MkCompleted 0 [])) (Some 0) 0.

Definition stubborn : proc := MkProc None (Some (MkCompleted 0 [])) None 0.

Definition sample_config : Config :=
  MkConfig (txt "/srv/cidermill") 1 2 (txt "acme") (txt "ventura-base") 4 8192
           (txt "admin") (txt "runner") (txt "macos") 1.

Definition sample_json (token expires_at : string) : json :=
  [("token", txt token); ("expires_at", txt expires_at)].

(** A world in which everything works: the agent prints two chunks and
    exits, the VM would run on. *)
Definition sample_world : World :=
  MkWorld [18; 52; 171; 205]%Z
          (exits 1 0 []) (exits 1 0 []) never_exits
          (fun _ => exits 1 0 (txt "192.168.64.5"))
          (exits 1 0 [])
          (txt "assertion")
          (MkHttp (Some 1) (Some (sample_json "exchange" "soon")))
          (fun _ => MkHttp (Some 1) (Some (sample_json "registration" "later")))
          (MkAgent true [(1, [97; 10]%Z); (1, [98; 10]%Z)] (Some 1) (Some 0) 0)
          (exits 2 0 []).

Definition with_clone (p : proc) (w : World) : World :=
  MkWorld (w_urandom w) p (w_set w) (w_vm w) (w_ip w) (w_scp w) (w_jwt w)
          (w_access w) (w_registration w) (w_ssh w) (w_delete w).

Definition with_set (p : proc) (w : World) : World :=
  MkWorld (w_urandom w) (w_clone w) p (w_vm w) (w_ip w) (w_scp w) (w_jwt w)
          (w_access w) (w_registration w) (w_ssh w) (w_delete w).

Definition with_ip (ip : nat -> proc) (w : World) : World :=
  MkWorld (w_urandom w) (w_clone w) (w_set w) (w_vm w) ip (w_scp w) (w_jwt w)
          (w_access w) (w_registration w) (w_ssh w) (w_delete w).

Definition with_delete (p : proc) (w : World) : World :=
  MkWorld (w_urandom w) (w_clone w) (w_set w) (w_vm w) (w_ip w) (w_scp w) (w_jwt w)
          (w_access w) (w_registration w) (w_ssh w) p.

(** The name the sample worlds give their runner. *)
Definition sample_name : text := txt "runner-1234abcd".

(** The process [p], started at [t] inside scopes cancelled at [c], runs to
    its end at [t'] and exits with the status [rc]. *)
Definition returns (p : proc) (c : option nat) (t : nat) (rc : Z) (t' : nat) : Prop :=
  exists out d,
    p_end p = Some (MkCompleted rc out)
    /\ p_dur p = Some d
    /\ t' = t + d
    /\ cancelled_at c t = false
    /\ (forall tc, c = Some tc -> t' <= tc).

(** The turn of the supervisor's loop made with the world [w] counts the
    lifecycle as a failure: the lifecycle raises [e], which the handler
    catches; the handler asks for the backoff sleep of [2 ^ (retries + 1)]
    unless the supervisor is being shut down, and the loop goes on with the
    counter incremented unless the shutdown interrupts the sleep. *)
Definition counted_as_failure (config : Config) (w : World) (retries : nat)
           (c : option nat) (t : nat) (e : exn) : Prop :=
  res (runner config w c t) = Raise e
  /\ is_Exception e = true
  /\ In (fin (runner config w c t), EvFailed e)
        (evs (iteration config w retries c t))
  /\ (res (iteration config w retries c t) = Ret (retries + 1)
      \/ res (iteration config w retries c t) = Raise Cancelled)
  /\ (cancelled_at c (fin (runner config w c t)) = false ->
      In (fin (runner config w c t), EvSleep (2 ^ (retries + 1)))
         (evs (iteration config w retries c t)))
  /\ (c = None ->
      res (iteration config w retries c t) = Ret (retries + 1)
      /\ fin (iteration config w retries c t)
         = fin (runner config w c t) + 2 ^ (retries + 1)).

(** Is the action the start of a [tart delete]? *)
Definition is_delete (e : event) : bool :=
  match e with
  | EvSpawn (_ :: b :: _) => text_eqb b (txt "delete")
  | _ => false
  end.

(** How many times the delete command is started. *)
Definition deletions (l : list tevent) : nat :=
  List.length (filter (fun te => is_delete (snd te)) l).

(** ** The backoff of the supervisor *)

(** The actions of the supervisor itself. *)
Definition is_supervisor_event (e : event) : bool :=
  match e with
  | EvReturned | EvFailed _ | EvSleep _ => true
  | _ => false
  end.

(** The number of lifecycles that have failed since the last one that
    returned, after the actions [l], when it was [b] before them. *)
Fixpoint failures_since_success (b : nat) (l : list event) : nat :=
  match l with
  | [] => b
  | EvReturned :: l' => failures_since_success 0 l'
  | EvFailed _ :: l' => failures_since_success (S b) l'
  | _ :: l' => failures_since_success b l'
  end.

(** Every sleep among the actions [l] lasts 2 to the number of failures
    since the last success. *)
Fixpoint backoff_ok (b : nat) (l : list event) : Prop :=
  match l with
  | [] => True
  | EvReturned :: l' => backoff_ok 0 l'
  | EvFailed _ :: l' => backoff_ok (S b) l'
  | EvSleep d :: l' => d = 2 ^ b /\ backoff_ok b l'
  | _ :: l' => backoff_ok b l'
  end.



(** ** What a computation can raise *)

(** [raises Q m]: an exception [m] ends with satisfies [Q], which may depend
    on the cancellation time [m] runs under. *)
Definition raises (Q : option nat -> exn -> Prop) {A} (m : M A) : Prop :=
  forall c t e, res (m c t) = Raise e -> Q c e.

(** [Cancelled] needs a scope that gets cancelled. *)
Definition cancelled_only_in_scope (c : option nat) (e : exn) : Prop :=
  c = None -> e <> Cancelled.

(** No [SystemExit], no group, and [Cancelled] only inside a scope that
    gets cancelled. *)
Definition allowed (c : option nat) (e : exn) : Prop :=
  (forall code, e <> SystemExit code) /\ cancelled_only_in_scope c e
  /\ (forall x, e <> Group x).

(** What a child of a nursery may raise when the nursery may raise what [Q]
    allows: also a group of such an exception and the [Cancelled] of a
    scope that gets cancelled. *)
Definition inside (Q : option nat -> exn -> Prop) (c : option nat) (e : exn)
  : Prop :=
  match e with
  | Group x => Q c x /\ c <> None /\ x <> Cancelled /\ (forall y, x <> Group y)
  | _ => Q c e
  end.

(** ** Shutdown *)

(** [winds_down m]: inside a scope that gets cancelled, [m] never blocks
    for ever. *)
Definition winds_down {A} (m : M A) : Prop :=
  forall tc t, res (m (Some tc) t) <> Hang.

(** The actions that start with a checkpoint: starting a process, sending
    a request, going to sleep. *)
Definition guarded (e : event) : bool :=
  match e with
  | EvSpawn _ | EvPost _ _ | EvSleep _ => true
  | _ => false
  end.

(** The guarded actions among [l] that happen at [tc] or later. *)
Definition late (tc : nat) (l : list tevent) : list tevent :=
  filter (fun te => (tc <=? fst te) && guarded (snd te)) l.

(** No guarded action happens once the scope is cancelled. *)
Definition nothing_once_cancelled (c : option nat) (te : tevent) : Prop :=
  forall tc, c = Some tc -> tc <= fst te -> guarded (snd te) = false.

(** What the specification says of a shutdown that arrives, at [tc],
    during the turn the supervisor makes with [w]: the loop is left with
    [Cancelled] when that turn ends, and nothing more is done, whatever
    lifecycles [ws] would have come next. *)
Definition shutdown_ends_the_loop (config : Config) (w : World) (ws : list World)
           (retries tc t : nat) : Prop :=
  supervise config (w :: ws) retries (Some tc) t
  = MkRun (Raise Cancelled) (fin (iteration config w retries (Some tc) t))
          (evs (iteration config w retries (Some tc) t)).

(** The name [provision_tart_vm] gives the runner. *)
Definition name_of (config : Config) (w : World) : text :=
  runner_base_name config ++ txt "-" ++ hexlify (w_urandom w).

(** ** Address resolution *)

Definition tart_ip_argv (runner_name : text) : list text :=
  [txt "tart"; txt "ip"; runner_name; txt "--wait"; txt "3"].

(** The attempt made with the process [p] ends with a non-zero status. *)
Definition attempt_fails (p : proc) : Prop :=
  exists r d, p_end p = Some r /\ returncode r <> 0%Z /\ p_dur p = Some d.

(** ** The credential exchange *)

Definition access_url (config : Config) : text :=
  txt "https://api.github.com/app/installations/"
  ++ str_int (installation_id config) ++ txt "/access_tokens".

Definition registration_url (config : Config) : text :=
  txt "https://api.github.com/orgs/" ++ org config
  ++ txt "/actions/runners/registration-token".

Definition requesting_line : text :=
  txt "Requesting new runner registration-token to github ...".

Definition token_line (token expires_at : text) : text :=
  txt "New registration token is " ++ token ++ txt " and expires at "
  ++ expires_at.

(** [xt] is the token of the answer to the access-token request. *)
Definition access_token_is (w : World) (xt : text) : Prop :=
  exists j, h_end (w_access w) = Some j /\ getitem "token" j = Some xt.

(** [token] and [expires_at] are those of the answer to the
    registration-token request. *)
Definition registration_is (w : World) (token expires_at : text) : Prop :=
  exists xt j,
    access_token_is w xt
    /\ h_end (w_registration w xt) = Some j
    /\ getitem "token" j = Some token
    /\ getitem "expires_at" j = Some expires_at.

(** The actions [get_registration_token] can perform. *)
Definition exchange_action (config : Config) (w : World) (e : event) : Prop :=
  match e with
  | EvLog line =>
      line = requesting_line
      \/ exists token expires_at,
           registration_is w token expires_at
           /\ line = token_line token expires_at
  | EvPost url bearer =>
      (url = access_url config /\ bearer = w_jwt w)
      \/ (url = registration_url config /\ access_token_is w bearer)
  | _ => False
  end.

(** [needle] occurs in [hay], in full. *)
Definition occurs_in (needle hay : text) : Prop :=
  exists pre post, hay = pre ++ needle ++ post.

(** What the specification says of the credentials: no line the exchange
    writes to the log has the exchange token or the registration token in
    it. *)
Definition tokens_are_not_logged (config : Config) (w : World) (c : option nat)
           (t : nat) : Prop :=
  forall te line,
    In te (evs (get_registration_token config w c t)) ->
    snd te = EvLog line ->
    (forall xt, access_token_is w xt -> ~ occurs_in xt line)
    /\ (forall token expires_at,
          registration_is w token expires_at -> ~ occurs_in token line).

(** A world in which the control plane answers with the exchange token
    [xt], then with the registration token [token] and its expiry. *)
Definition with_exchange (xt token expires_at : string) (w : World) : World :=
  MkWorld (w_urandom w) (w_clone w) (w_set w) (w_vm w) (w_ip w) (w_scp w) (w_jwt w)
          (MkHttp (Some 1) (Some (sample_json xt "soon")))
          (fun _ => MkHttp (Some 1) (Some (sample_json token expires_at)))
          (w_ssh w) (w_delete w).

(** ** Decoding in chunks *)

(** The text [t] in front of what [d] has decoded. *)
Definition prepend (t : text) (d : decoded) : decoded :=
  match d with
  | Decoded t' p => Decoded (t ++ t') p
  | DecodeError => DecodeError
  end.

(** What the decoder has when, after [d], it is given the bytes [b]. *)
Definition continue_with (d : decoded) (b : bytes) : decoded :=
  match d with
  | Decoded t p => prepend t (utf8_decode (p ++ b))
  | DecodeError => DecodeError
  end.

Functional Scheme utf8_decode_ind := Induction for utf8_decode Sort Prop.

(** ** The lines of a text *)








(** ** Provisioning *)

Definition clone_argv (config : Config) (w : World) : list text :=
  [txt "tart"; txt "clone"; base_image config; name_of config w].

(** A lowercase hexadecimal digit. *)
Definition is_hex_digit (c : Z) : bool := in_range 48 57 c || in_range 97 102 c.

(** ** The session *)

Definition scp_argv (config : Config) (ip : text) : list text :=
  [txt "scp"; txt "-i"; txt "./id_rsa"; txt "-o"; txt "StrictHostKeyChecking=no";
   txt "-o"; txt "UserKnownHostsFile=/dev/null";
   path_join (base_dir config) (txt "actions-runner.tar.gz");
   path_join (path_join (base_dir config) (txt "files")) (txt "runner-launcher.sh");
   user config ++ txt "@" ++ ip ++ txt ":~/"].

(** What the session does before it asks for a token: it polls for the
    address and copies the files. *)
Definition before_the_token (config : Config) (runner_name : text) (e : event)
  : Prop :=
  e = EvSpawn (tart_ip_argv runner_name)
  \/ e = EvLog (txt "Copying files to VM")
  \/ exists ip, e = EvSpawn (scp_argv config ip).

Definition with_scp (p : proc) (w : World) : World :=
  MkWorld (w_urandom w) (w_clone w) (w_set w) (w_vm w) (w_ip w) p (w_jwt w)
          (w_access w) (w_registration w) (w_ssh w) (w_delete w).

(** ** A VM that stops *)

(** The delete command of the cleanup does not fail: it exits with the
    status 0, or it is still running when the deadline fires. *)
Definition delete_does_not_fail (w : World) : Prop :=
  exists r,
    p_end (w_delete w) = Some r
    /\ (returncode r = 0%Z \/ forall d, p_dur (w_delete w) = Some d -> 5 < d).

Definition with_vm (p : proc) (w : World) : World :=
  MkWorld (w_urandom w) (w_clone w) (w_set w) p (w_ip w) (w_scp w) (w_jwt w)
          (w_access w) (w_registration w) (w_ssh w) (w_delete w).

(** ** Startup and shutdown *)

Definition version_argv : list text := [txt "tart"; txt "--version"].

Definition tart_not_found_line (path : text) : text :=
  txt "Could not find tart. Is homebrew in your PATH? Executing in a non-login"
  ++ txt "shell frequently causes this. Your current PATH is: " ++ path.

Definition archive_not_found_line : text :=
  txt "Could not find actions-runner.tar.gz. Check the readme.".

(** [startup_checks], step by step, from the run of [tart --version]. *)
Definition startup_outcome (host : Host) (r : run completed) : run unit :=
  match res r with
  | Ret _ =>
      if host_archive host then MkRun (Ret tt) (fin r) (evs r)
      else MkRun (Raise (SystemExit 1)) (fin r)
                 (evs r ++ [(fin r, EvLog archive_not_found_line)])
  | Raise FileNotFoundError =>
      match host_path host with
      | Some path =>
          MkRun (Raise (SystemExit 1)) (fin r)
                (evs r ++ [(fin r, EvLog (tart_not_found_line path))])
      | None => MkRun (Raise KeyError) (fin r) (evs r)
      end
  | Raise e => MkRun (Raise e) (fin r) (evs r)
  | Hang => MkRun Hang (fin r) (evs r)
  end.

Definition sample_host : Host :=
  MkHost (exits 1 0 []) (Some (txt "/usr/bin:/bin")) true.

(** * Properties *)

(** ** The actions of a computation

    [acts P m]: every action [m] performs satisfies [P], which may depend on
    the cancellation time [m] runs under. *)

Lemma Forall_merge (Q : tevent -> Prop) (a b : list tevent) :
  Forall Q a -> Forall Q b -> Forall Q (merge a b).
Proof.
  intros Ha; revert b.
  induction Ha as [|x a' Hx Ha' IH]; intros b Hb; [exact Hb|].
  induction Hb as [|y b' Hy Hb' IHb]; simpl.
  - constructor; assumption.
  - destruct (fst x <=? fst y).
    + constructor; [assumption|]. apply IH. constructor; assumption.
    + constructor; assumption.
Qed.

Section Actions.
Variable P : option nat -> tevent -> Prop.

Lemma acts_ret {A} (a : A) : acts P (ret a).
Proof. intros c t; constructor. Qed.

Lemma acts_raise {A} (e : exn) : acts P (@raise A e).
Proof. intros c t; constructor. Qed.

Lemma acts_checkpoint : acts P checkpoint.
Proof. intros c t; unfold checkpoint; destruct (cancelled_at c t); constructor. Qed.

Lemma acts_current_time : acts P current_time.
Proof. intros c t; constructor. Qed.

Lemma acts_block d : acts P (block d).
Proof.
  intros c t; unfold block.
  destruct c as [tc|], d as [n|]; try destruct (t + n <=? tc); constructor.
Qed.

Lemma acts_wait_process p : acts P (wait_process p).
Proof.
  intros c t; unfold wait_process, block. cbv zeta.
  destruct c as [tc|], (p_dur p) as [n|]; try destruct (t + n <=? tc);
    constructor.
Qed.

Lemma acts_with_process dur dies (reader : M unit) :
  acts P reader -> acts P (with_process dur dies reader).
Proof.
  intros Hr c t; unfold with_process. cbv zeta. specialize (Hr c t).
  destruct (res (reader c t)); assumption.
Qed.

Lemma acts_emit e : (forall c t, P c (t, e)) -> acts P (emit e).
Proof. intros H c t; simpl. constructor; [apply H | constructor]. Qed.

Lemma acts_bind {A B} (m : M A) (k : A -> M B) :
  acts P m -> (forall a, acts P (k a)) -> acts P (bind m k).
Proof.
  intros Hm Hk c t; unfold bind.
  specialize (Hm c t).
  destruct (res (m c t)) as [a| |]; simpl; try assumption.
  apply Forall_app; split; [assumption | apply Hk].
Qed.

Lemma acts_try_except {A} (m : M A) (h : exn -> option (M A)) :
  acts P m -> (forall e k, h e = Some k -> acts P k) -> acts P (try_except m h).
Proof.
  intros Hm Hh c t; unfold try_except.
  specialize (Hm c t).
  destruct (res (m c t)) as [a|e|]; try assumption.
  destruct (h e) as [k|] eqn:E; try assumption.
  simpl. apply Forall_app; split; [assumption | apply (Hh _ _ E)].
Qed.

Lemma acts_try_finally {A} (m : M A) (f : M unit) :
  acts P m -> acts P f -> acts P (try_finally m f).
Proof.
  intros Hm Hf c t; unfold try_finally.
  specialize (Hm c t).
  destruct (res (m c t)); try assumption;
    simpl; apply Forall_app; split; try assumption; apply Hf.
Qed.

(** What holds under an earlier cancellation holds under a later one. *)
Hypothesis P_mono : forall tc c te, P (omin (Some tc) c) te -> P c te.

Lemma acts_nursery2 (a b : M unit) : acts P a -> acts P b -> acts P (nursery2 a b).
Proof.
  intros Ha Hb c t; unfold nursery2.
  assert (Hw : forall tc (m : M unit), acts P m ->
                 Forall (P c) (evs (m (omin (Some tc) c) t))).
  { intros tc m Hm. eapply Forall_impl; [|apply Hm]. intros te; apply P_mono. }
  destruct (scope_cancel (a c t) (b c t)) as [tc|].
  - destruct (cancels_first (a c t) (b c t)); unfold nursery_exit; simpl;
      apply Forall_merge; solve [apply Ha | apply Hb | apply Hw; assumption].
  - unfold nursery_exit; simpl. apply Forall_merge; [apply Ha | apply Hb].
Qed.
End Actions.

(** ** Computations that honour cancellation

    [prompt m]: inside a scope cancelled at [tc], [m] never blocks for ever
    and is over by [tc] (at once when it is started later). *)


Lemma prompt_ret {A} (a : A) : prompt (ret a).
Proof. intros tc t; cbn [ret res fin]; split; [discriminate | lia]. Qed.

Lemma prompt_raise {A} (e : exn) : prompt (@raise A e).
Proof. intros tc t; cbn [raise res fin]; split; [discriminate | lia]. Qed.

Lemma prompt_emit e : prompt (emit e).
Proof. intros tc t; cbn [emit res fin]; split; [discriminate | lia]. Qed.

Lemma prompt_current_time : prompt current_time.
Proof. intros tc t; cbn [current_time res fin]; split; [discriminate | lia]. Qed.

Lemma prompt_checkpoint : prompt checkpoint.
Proof.
  intros tc t; unfold checkpoint.
  destruct (cancelled_at (Some tc) t); cbn [res fin]; split;
    try discriminate; lia.
Qed.

Lemma prompt_block d : prompt (block d).
Proof.
  intros tc t; unfold block. destruct d as [n|].
  - destruct (t + n <=? tc) eqn:E; cbn [res fin]; split; try discriminate.
    + apply Nat.leb_le in E; lia.
    + intros _. exact I.
  - cbn [res fin]; split; [discriminate | intros _; exact I].
Qed.

Lemma prompt_wait_process p : prompt (wait_process p).
Proof.
  intros tc t; unfold wait_process. cbv zeta.
  destruct (prompt_block (p_dur p) tc t) as [Hn Hl].
  destruct (res (block (p_dur p) (Some tc) t)) as [a|e|] eqn:E.
  - rewrite E. split; [discriminate | exact Hl].
  - cbn [res fin]. split; [discriminate | intros _; exact I].
  - contradiction.
Qed.

Lemma prompt_bind {A B} (m : M A) (k : A -> M B) :
  prompt m -> (forall a, prompt (k a)) -> prompt (bind m k).
Proof.
  intros Hm Hk tc t; unfold bind.
  destruct (Hm tc t) as [Hh Hf].
  destruct (res (m (Some tc) t)) as [a|e|]; cbn [res fin].
  - destruct (Hk a tc (fin (m (Some tc) t))) as [Hh' Hf'].
    split; [assumption|]. intros Hl. apply Hf'.
    destruct (Nat.le_gt_cases (fin (m (Some tc) t)) (Nat.max t tc)) as [H|H];
      [lia|]. destruct (Hf H).
  - split; [discriminate | assumption].
  - contradiction.
Qed.

Lemma prompt_try_except {A} (m : M A) (h : exn -> option (M A)) :
  prompt m -> passes_cancellation h ->
  (forall e k, h e = Some k -> prompt k) -> prompt (try_except m h).
Proof.
  intros Hm [Hc Hg] Hh tc t; unfold try_except.
  destruct (Hm tc t) as [Hn Hf].
  destruct (res (m (Some tc) t)) as [a|e|] eqn:E.
  - rewrite E; split; [discriminate | assumption].
  - destruct (h e) as [k|] eqn:Ek.
    + destruct (Hh _ _ Ek tc (fin (m (Some tc) t))) as [Hn' Hf']. cbn [res fin].
      split; [assumption|]. intros Hl. apply Hf'.
      destruct (Nat.le_gt_cases (fin (m (Some tc) t)) (Nat.max t tc)) as [H|H];
        [lia|].
      specialize (Hf H). destruct e; try destruct Hf; congruence.
    + rewrite E; split; [discriminate | assumption].
  - contradiction.
Qed.

(** A [finally] block that only records an action. *)
Lemma prompt_try_finally_emit {A} (m : M A) (e : event) :
  prompt m -> prompt (try_finally m (emit e)).
Proof.
  intros Hm tc t; unfold try_finally.
  destruct (Hm tc t) as [Hn Hb].
  destruct (res (m (Some tc) t)) as [a|e'|] eqn:E; try contradiction;
    cbn [emit res fin]; (split; [discriminate | assumption]).
Qed.

Lemma prompt_checked e : prompt (checked e).
Proof.
  apply prompt_bind; [apply prompt_checkpoint | intro; apply prompt_emit].
Qed.

(** The process beside its reader ends with the reader, or is ended. *)
Lemma prompt_with_process dur dies (reader : M unit) :
  prompt reader -> prompt (with_process dur dies reader).
Proof.
  intros Hr tc t; unfold with_process. cbv zeta.
  destruct (Hr tc t) as [Hn Hl].
  destruct (res (reader (Some tc) t)) as [a|e|] eqn:E.
  - rewrite E. split; [discriminate | assumption].
  - cbn [res fin]. split; [destruct e; try discriminate;
                           match goal with |- context [if ?b then _ else _] =>
                             destruct b end; discriminate|].
    intros Hlate.
    destruct e; try exact I;
      (assert (Hc : cancelled_at (Some tc)
                      (stopped (option_map (Nat.add t) dur)
                               (fin (reader (Some tc) t)) dies) = true)
         by (apply Nat.leb_le; lia));
      rewrite Hc; exact I.
  - contradiction.
Qed.

Create HintDb prompt.

#[export] Hint Resolve prompt_ret prompt_raise prompt_emit prompt_current_time
  prompt_checkpoint prompt_block prompt_wait_process prompt_bind
  prompt_try_finally_emit prompt_checked : prompt.

(** Applies the rules above through the sequencing of a function body. *)
Ltac prompt_steps :=
  repeat first
    [ apply prompt_checked
    | apply prompt_bind; [|intro]
    | apply prompt_try_finally_emit
    | apply prompt_ret | apply prompt_raise | apply prompt_emit
    | apply prompt_checkpoint | apply prompt_block | apply prompt_wait_process
    | apply prompt_current_time
    | assumption ].

Lemma prompt_log data : prompt (log data).
Proof. apply prompt_emit. Qed.

Lemma prompt_sleep secs : prompt (sleep secs).
Proof. unfold sleep; prompt_steps. Qed.

Lemma prompt_run_process check argv p : prompt (run_process check argv p).
Proof.
  unfold run_process; prompt_steps.
  destruct (p_end p); prompt_steps.
  destruct (_ && _); prompt_steps.
Qed.

Lemma prompt_post url bearer h : prompt (post url bearer h).
Proof. unfold post; prompt_steps. destruct (h_end h); prompt_steps. Qed.

Lemma prompt_subscript d key : prompt (subscript d key).
Proof. unfold subscript; destruct (getitem key d); prompt_steps. Qed.

#[export] Hint Resolve prompt_log prompt_sleep prompt_run_process prompt_post
  prompt_subscript : prompt.

Ltac prompt_body :=
  repeat first
    [ apply prompt_log | apply prompt_sleep | apply prompt_run_process
    | apply prompt_post | apply prompt_subscript
    | apply prompt_bind; [|intro]
    | apply prompt_try_finally_emit
    | apply prompt_ret | apply prompt_raise | apply prompt_emit
    | apply prompt_checkpoint | apply prompt_block | apply prompt_wait_process
    | apply prompt_current_time
    | assumption ].

Lemma prompt_get_registration_token config w :
  prompt (get_registration_token config w).
Proof. unfold get_registration_token, generate_jwt; prompt_body. Qed.

Lemma prompt_provision_tart_vm config w : prompt (provision_tart_vm config w).
Proof.
  unfold provision_tart_vm; prompt_body; destruct (negb _); prompt_body.
Qed.

Lemma prompt_get_tart_ip_loop ip runner_name fuel :
  forall attempts, prompt (get_tart_ip_loop ip runner_name attempts fuel).
Proof.
  induction fuel as [|fuel IH]; intros attempts; cbn [get_tart_ip_loop].
  - apply prompt_ret.
  - apply prompt_try_except.
    + prompt_body.
    + split; [reflexivity | intro; reflexivity].
    + intros e k Hk. destruct e; try discriminate.
      injection Hk as <-. apply IH.
Qed.

Lemma prompt_get_tart_ip ip runner_name retries :
  prompt (get_tart_ip ip runner_name retries).
Proof.
  unfold get_tart_ip. apply prompt_bind; [apply prompt_get_tart_ip_loop|].
  intros [r|]; [|apply prompt_raise].
  destruct (decode_ascii (stdout r)); prompt_steps.
Qed.

Lemma prompt_scp_actions_runner config w ip : prompt (scp_actions_runner config w ip).
Proof. unfold scp_actions_runner; prompt_body. Qed.

Lemma prompt_log_output chunks runner_name :
  forall pending, prompt (log_output pending chunks runner_name).
Proof.
  induction chunks as [|[d b] chunks IH]; intros pending; cbn [log_output].
  - apply prompt_ret.
  - prompt_steps. destruct (utf8_decode (pending ++ b)); prompt_steps.
    apply IH.
Qed.

Lemma prompt_launch_runner config w runner_name ip token :
  prompt (launch_runner config w runner_name ip token).
Proof.
  unfold launch_runner; prompt_steps.
  destruct (a_start (w_ssh w)); prompt_steps.
  apply prompt_with_process. prompt_steps. apply prompt_log_output.
Qed.

Lemma prompt_vm_process w runner_name : prompt (vm_process w runner_name).
Proof. unfold vm_process; prompt_body. Qed.

Lemma prompt_run_vm_then_cancel w runner_name : prompt (run_vm_then_cancel w runner_name).
Proof.
  unfold run_vm_then_cancel; apply prompt_try_finally_emit.
  apply prompt_vm_process.
Qed.

Lemma prompt_run_runner_then_cancel config w runner_name :
  prompt (run_runner_then_cancel config w runner_name).
Proof.
  unfold run_runner_then_cancel, execution_session.
  apply prompt_try_finally_emit.
  apply prompt_bind; [apply prompt_get_tart_ip | intro].
  apply prompt_bind; [apply prompt_scp_actions_runner | intro].
  apply prompt_bind; [apply prompt_get_registration_token | intro].
  apply prompt_bind; [apply prompt_log | intro].
  apply prompt_launch_runner.
Qed.

(** ** The effect of cancelling a scope earlier

    [stable m]: when the scope around [m] is cancelled at [tc] on top of
    what cancels it anyway, [m] either runs exactly as before or ends with
    [Cancelled]. *)


Lemma omin_le tc c : exists x, omin (Some tc) c = Some x /\ x <= tc
                               /\ (forall y, c = Some y -> x <= y)
                               /\ (x = tc \/ c = Some x).
Proof.
  destruct c as [y|]; simpl.
  - exists (Nat.min tc y). repeat split; try lia.
    + intros z [= <-]; lia.
    + destruct (Nat.min_spec tc y) as [[_ ->]|[_ ->]]; auto.
  - exists tc. repeat split; auto; discriminate.
Qed.

Lemma stable_const {A} (m : M A) : (forall c c' t, m c t = m c' t) -> stable m.
Proof. intros H c tc t; left; apply H. Qed.

Lemma stable_ret {A} (a : A) : stable (ret a).
Proof. apply stable_const; reflexivity. Qed.

Lemma stable_raise {A} (e : exn) : stable (@raise A e).
Proof. apply stable_const; reflexivity. Qed.

Lemma stable_emit e : stable (emit e).
Proof. apply stable_const; reflexivity. Qed.

Lemma stable_current_time : stable current_time.
Proof. apply stable_const; reflexivity. Qed.

Lemma stable_checkpoint : stable checkpoint.
Proof.
  intros c tc t; unfold checkpoint.
  destruct (omin_le tc c) as (x & -> & Hx & Hc & _).
  destruct (cancelled_at (Some x) t) eqn:E; [right; exact I|].
  left. destruct c as [y|]; cbn [cancelled_at] in *; [|reflexivity].
  specialize (Hc y eq_refl).
  apply Nat.leb_gt in E. destruct (y <=? t) eqn:E'; [|reflexivity].
  apply Nat.leb_le in E'; lia.
Qed.

Lemma stable_block d : stable (block d).
Proof.
  intros c tc t; unfold block.
  destruct (omin_le tc c) as (x & -> & Hx & Hc & _).
  destruct d as [n|]; [|right; exact I].
  destruct (t + n <=? x) eqn:E; [|right; exact I].
  left. destruct c as [y|]; [|reflexivity].
  specialize (Hc y eq_refl). apply Nat.leb_le in E.
  destruct (t + n <=? y) eqn:E'; [reflexivity|].
  apply Nat.leb_gt in E'; lia.
Qed.

Lemma interrupted_raise {A} (r : result A) :
  interrupted r -> exists e, r = Raise e /\ is_Exception e = false
                             /\ forall code, e <> SystemExit code.
Proof.
  destruct r as [a|e|]; try contradiction.
  destruct e; try contradiction; intros _;
    eexists; (split; [reflexivity|]); (split; [reflexivity | discriminate]).
Qed.

Lemma stable_wait_process p : stable (wait_process p).
Proof.
  intros c tc t; unfold wait_process. cbv zeta.
  destruct (stable_block (p_dur p) c tc t) as [-> | E]; [left; reflexivity|].
  right. destruct (res (block (p_dur p) (omin (Some tc) c) t)); try contradiction.
  exact I.
Qed.

Lemma stable_bind {A B} (m : M A) (k : A -> M B) :
  stable m -> (forall a, stable (k a)) -> stable (bind m k).
Proof.
  intros Hm Hk c tc t; unfold bind.
  destruct (Hm c tc t) as [-> | E].
  - destruct (res (m c t)) as [a| |]; try (left; reflexivity).
    destruct (Hk a c tc (fin (m c t))) as [-> | E]; [left; reflexivity|].
    right. exact E.
  - right. destruct (res (m (omin (Some tc) c) t)); try contradiction. exact E.
Qed.

Lemma stable_try_except {A} (m : M A) (h : exn -> option (M A)) :
  stable m -> passes_cancellation h -> (forall e k, h e = Some k -> stable k) ->
  stable (try_except m h).
Proof.
  intros Hm [Hc Hg] Hh c tc t; unfold try_except.
  destruct (Hm c tc t) as [-> | E].
  - destruct (res (m c t)) as [a|e|]; try (left; reflexivity).
    destruct (h e) as [k|] eqn:Ek; [|left; reflexivity].
    destruct (Hh _ _ Ek c tc (fin (m c t))) as [-> | E]; [left; reflexivity|].
    right. exact E.
  - right. destruct (res (m (omin (Some tc) c) t)) as [a|e|] eqn:Er;
      try contradiction.
    destruct e; try contradiction; rewrite ?Hc, ?Hg, Er; exact I.
Qed.

(** A [finally] block that only records an action. *)
Lemma stable_try_finally_emit {A} (m : M A) (e : event) :
  stable m -> stable (try_finally m (emit e)).
Proof.
  intros Hm c tc t; unfold try_finally.
  destruct (Hm c tc t) as [-> | E]; [left; reflexivity|].
  right. destruct (res (m (omin (Some tc) c) t)); try contradiction. exact E.
Qed.

Lemma stable_checked e : stable (checked e).
Proof.
  apply stable_bind; [apply stable_checkpoint | intro; apply stable_emit].
Qed.

Lemma cancelled_at_omin tc c t :
  cancelled_at c t = true -> cancelled_at (omin (Some tc) c) t = true.
Proof.
  destruct c as [y|]; cbn [cancelled_at omin]; [|discriminate].
  intros H. apply Nat.leb_le in H. apply Nat.leb_le. lia.
Qed.

Lemma stable_with_process dur dies (reader : M unit) :
  stable reader -> stable (with_process dur dies reader).
Proof.
  intros Hr c tc t; unfold with_process. cbv zeta.
  destruct (Hr c tc t) as [-> | E].
  - destruct (res (reader c t)) as [a|e|]; try (left; reflexivity).
    pose proof (@cancelled_at_omin tc c
                  (stopped (option_map (Nat.add t) dur) (fin (reader c t)) dies))
      as Hmono.
    destruct (cancelled_at c _) eqn:Ec.
    + rewrite (Hmono eq_refl). left; reflexivity.
    + destruct (cancelled_at (omin (Some tc) c) _); [|left; reflexivity].
      destruct e; try (left; reflexivity); right; exact I.
  - right. destruct (res (reader (omin (Some tc) c) t)) as [a|e|];
      try contradiction.
    destruct e; try contradiction; exact I.
Qed.

Ltac stable_steps :=
  repeat first
    [ apply stable_checked
    | apply stable_bind; [|intro]
    | apply stable_try_finally_emit
    | apply stable_ret | apply stable_raise | apply stable_emit
    | apply stable_checkpoint | apply stable_block | apply stable_wait_process
    | apply stable_current_time
    | assumption ].

Lemma stable_log data : stable (log data).
Proof. apply stable_emit. Qed.

Lemma stable_run_process check argv p : stable (run_process check argv p).
Proof.
  unfold run_process; stable_steps.
  destruct (p_end p); stable_steps.
  destruct (_ && _); stable_steps.
Qed.

Lemma stable_post url bearer h : stable (post url bearer h).
Proof. unfold post; stable_steps. destruct (h_end h); stable_steps. Qed.

Lemma stable_subscript d key : stable (subscript d key).
Proof. unfold subscript; destruct (getitem key d); stable_steps. Qed.

Ltac stable_body :=
  repeat first
    [ apply stable_log | apply stable_run_process
    | apply stable_post | apply stable_subscript
    | apply stable_bind; [|intro]
    | apply stable_try_finally_emit
    | apply stable_ret | apply stable_raise | apply stable_emit
    | apply stable_checkpoint | apply stable_block | apply stable_wait_process
    | apply stable_current_time
    | assumption ].

Lemma stable_get_registration_token config w :
  stable (get_registration_token config w).
Proof. unfold get_registration_token, generate_jwt; stable_body. Qed.

Lemma stable_get_tart_ip_loop ip runner_name fuel :
  forall attempts, stable (get_tart_ip_loop ip runner_name attempts fuel).
Proof.
  induction fuel as [|fuel IH]; intros attempts; simpl.
  - apply stable_ret.
  - apply stable_try_except.
    + stable_body.
    + split; [reflexivity | intro; reflexivity].
    + intros e k Hk. destruct e; try discriminate.
      injection Hk as <-. apply IH.
Qed.

Lemma stable_get_tart_ip ip runner_name retries :
  stable (get_tart_ip ip runner_name retries).
Proof.
  unfold get_tart_ip. apply stable_bind; [apply stable_get_tart_ip_loop|].
  intros [r|]; [|apply stable_raise].
  destruct (decode_ascii (stdout r)); stable_steps.
Qed.

Lemma stable_scp_actions_runner config w ip : stable (scp_actions_runner config w ip).
Proof. unfold scp_actions_runner; stable_body. Qed.

Lemma stable_log_output chunks runner_name :
  forall pending, stable (log_output pending chunks runner_name).
Proof.
  induction chunks as [|[d b] chunks IH]; intros pending; simpl.
  - apply stable_ret.
  - stable_steps. destruct (utf8_decode (pending ++ b)); stable_steps.
    apply IH.
Qed.

Lemma stable_launch_runner config w runner_name ip token :
  stable (launch_runner config w runner_name ip token).
Proof.
  unfold launch_runner; stable_steps.
  destruct (a_start (w_ssh w)); stable_steps.
  apply stable_with_process. stable_steps. apply stable_log_output.
Qed.

Lemma stable_vm_process w runner_name : stable (vm_process w runner_name).
Proof. unfold vm_process; stable_body. Qed.

Lemma stable_run_vm_then_cancel w runner_name : stable (run_vm_then_cancel w runner_name).
Proof. unfold run_vm_then_cancel; apply stable_try_finally_emit. apply stable_vm_process. Qed.

Lemma stable_run_runner_then_cancel config w runner_name :
  stable (run_runner_then_cancel config w runner_name).
Proof.
  unfold run_runner_then_cancel, execution_session.
  apply stable_try_finally_emit.
  apply stable_bind; [apply stable_get_tart_ip | intro].
  apply stable_bind; [apply stable_scp_actions_runner | intro].
  apply stable_bind; [apply stable_get_registration_token | intro].
  apply stable_bind; [apply stable_log | intro].
  apply stable_launch_runner.
Qed.

(** A prompt, stable computation that would outlive the time [tc] is
    cancelled when its scope is cancelled at [tc]. *)
Lemma cancelled_when_scope_cancelled {A} (m : M A) c tc t :
  prompt m -> stable m -> t <= tc ->
  res (m c t) = Hang \/ tc < fin (m c t) ->
  interrupted (res (m (omin (Some tc) c) t)).
Proof.
  intros Hp Hs Ht Hlate.
  destruct (omin_le tc c) as (x & Ex & Hx & _).
  destruct (Hp x t) as [Hn Hf].
  destruct (Hs c tc t) as [E | E]; [|assumption].
  rewrite E. rewrite Ex in E. rewrite E in Hn, Hf.
  destruct Hlate as [Hh | Hl]; [contradiction|].
  apply Hf. lia.
Qed.

(** ** The cleanup, computed *)



Lemma bind_run {A B} (m : M A) (k : A -> M B) c t :
  bind m k c t =
  match res (m c t) with
  | Ret a =>
      MkRun (res (k a c (fin (m c t)))) (fin (k a c (fin (m c t))))
            (evs (m c t) ++ evs (k a c (fin (m c t))))
  | Raise e => MkRun (Raise e) (fin (m c t)) (evs (m c t))
  | Hang => MkRun Hang (fin (m c t)) (evs (m c t))
  end.
Proof. reflexivity. Qed.

Lemma res_mk {A} (r : result A) f l : res (MkRun r f l) = r.
Proof. reflexivity. Qed.

Lemma fin_mk {A} (r : result A) f l : fin (MkRun r f l) = f.
Proof. reflexivity. Qed.

Lemma evs_mk {A} (r : result A) f l : evs (MkRun r f l) = l.
Proof. reflexivity. Qed.

Lemma try_except_run {A} (m : M A) (h : exn -> option (M A)) c t :
  try_except m h c t =
  match res (m c t) with
  | Raise e =>
      match h e with
      | Some k =>
          MkRun (res (k c (fin (m c t)))) (fin (k c (fin (m c t))))
                (evs (m c t) ++ evs (k c (fin (m c t))))
      | None => m c t
      end
  | _ => m c t
  end.
Proof. reflexivity. Qed.

Lemma checked_run e c t :
  checked e c t =
  if cancelled_at c t then MkRun (Raise Cancelled) t [] else MkRun (Ret tt) t [(t, e)].
Proof.
  unfold checked. rewrite bind_run. unfold checkpoint.
  destruct (cancelled_at c t); reflexivity.
Qed.

Lemma block_no_action d c t : evs (block d c t) = [].
Proof.
  unfold block. destruct c as [tc|], d as [n|]; try destruct (t + n <=? tc);
    reflexivity.
Qed.

Lemma wait_process_no_action p c t : evs (wait_process p c t) = [].
Proof.
  unfold wait_process. cbv zeta.
  pose proof (block_no_action (p_dur p) c t) as H.
  destruct (res (block (p_dur p) c t)); [exact H | reflexivity | exact H].
Qed.

(** [run_process] inside a scope that is not cancelled yet. *)
Lemma run_process_started check argv p c t :
  cancelled_at c t = false ->
  run_process check argv p c t =
  match p_end p with
  | None => MkRun (Raise FileNotFoundError) t [(t, EvSpawn argv)]
  | Some r =>
      match res (wait_process p c t) with
      | Ret _ =>
          MkRun (if check && negb (returncode r =? 0)%Z
                 then Raise (CalledProcessError (returncode r))
                 else Ret r) (fin (wait_process p c t)) [(t, EvSpawn argv)]
      | Raise e => MkRun (Raise e) (fin (wait_process p c t)) [(t, EvSpawn argv)]
      | Hang => MkRun Hang (fin (wait_process p c t)) [(t, EvSpawn argv)]
      end
  end.
Proof.
  intros Hc. unfold run_process. rewrite bind_run, checked_run, Hc.
  cbn [res fin evs].
  destruct (p_end p) as [r|]; [|reflexivity].
  rewrite bind_run, wait_process_no_action.
  destruct (res (wait_process p c t)); cbn [res fin evs app]; try reflexivity.
  destruct (check && negb (returncode r =? 0)%Z); reflexivity.
Qed.

(** The wait for a child inside a scope that is not cancelled before the
    child exits. *)
Lemma wait_process_in_time p c t d :
  p_dur p = Some d -> (forall tc, c = Some tc -> t + d <= tc) ->
  wait_process p c t = MkRun (Ret tt) (t + d) [].
Proof.
  intros Hd Hc. unfold wait_process, block. cbv zeta. rewrite Hd.
  destruct c as [tc|]; [|reflexivity].
  specialize (Hc tc eq_refl). apply Nat.leb_le in Hc. rewrite Hc. reflexivity.
Qed.

Lemma block_until_deadline d t :
  block d (Some (t + 5)) t =
  match d with
  | Some n => if n <=? 5 then MkRun (Ret tt) (t + n) []
              else MkRun (Raise Cancelled) (t + 5) []
  | None => MkRun (Raise Cancelled) (t + 5) []
  end.
Proof.
  unfold block. replace (Nat.max t (t + 5)) with (t + 5) by lia.
  destruct d as [n|]; [|reflexivity].
  destruct (n <=? 5) eqn:E.
  - apply Nat.leb_le in E.
    assert (E' : (t + n <=? t + 5) = true) by (apply Nat.leb_le; lia).
    rewrite E'. reflexivity.
  - apply Nat.leb_gt in E.
    assert (E' : (t + n <=? t + 5) = false) by (apply Nat.leb_gt; lia).
    rewrite E'. reflexivity.
Qed.

(** The wait for the delete command under the deadline of the cleanup. *)
Lemma wait_until_deadline w t :
  wait_process (w_delete w) (Some (t + 5)) t =
  match p_dur (w_delete w) with
  | Some n => if n <=? 5 then MkRun (Ret tt) (t + n) []
              else MkRun (Raise Cancelled) (delete_gone w t) []
  | None => MkRun (Raise Cancelled) (delete_gone w t) []
  end.
Proof.
  unfold wait_process, delete_gone. cbv zeta. rewrite block_until_deadline.
  destruct (p_dur (w_delete w)) as [n|]; [|reflexivity].
  destruct (n <=? 5); reflexivity.
Qed.

Lemma delete_gone_late w t :
  (forall d, p_dur (w_delete w) = Some d -> 5 < d) -> t + 5 <= delete_gone w t.
Proof.
  intros H. unfold delete_gone, stopped.
  destruct (p_dur (w_delete w)) as [d|]; cbn [option_map]; [|lia].
  specialize (H d eq_refl). lia.
Qed.

Lemma cleanup_run w runner_name c t :
  cleanup w runner_name c t = cleanup_outcome w runner_name t.
Proof.
  unfold cleanup, cleanup_outcome. cbv zeta.
  rewrite bind_run. cbn [res fin evs emit].
  rewrite bind_run. cbn [res fin evs current_time].
  unfold with_cancel_scope. cbv zeta.
  rewrite bind_run.
  assert (E5 : cancelled_at (Some (t + 5)) t = false).
  { apply Nat.leb_gt; lia. }
  rewrite (@run_process_started true (delete_argv runner_name) (w_delete w)
             (Some (t + 5)) t E5).
  destruct (p_end (w_delete w)) as [r|]; [|reflexivity].
  rewrite wait_until_deadline.
  pose proof (@delete_gone_late w t) as Hg.
  remember (delete_gone w t) as g eqn:Eg. clear Eg.
  destruct (p_dur (w_delete w)) as [d|].
  - destruct (d <=? 5) eqn:Ed; cbn [res fin evs app andb ret].
    + destruct (returncode r =? 0)%Z; reflexivity.
    + assert (El : (t + 5 <=? g) = true).
      { apply Nat.leb_le, Hg. intros d' [= <-]. apply Nat.leb_gt in Ed. exact Ed. }
      rewrite El. reflexivity.
  - cbn [res fin evs app].
    assert (El : (t + 5 <=? g) = true).
    { apply Nat.leb_le, Hg. intros d' [=]. }
    rewrite El. reflexivity.
Qed.

(** ** The actions of the program

    The rules of [acts] carried through the functions of the program, for a
    property that holds of the actions named in the hypotheses. *)

Section Program_actions.
Variable P : option nat -> tevent -> Prop.
Hypothesis P_log : forall c t line, P c (t, EvLog line).
Hypothesis P_cancel : forall c t k, P c (t, EvCancelScope k).
Hypothesis P_cleanup : forall c t, P c (t, EvCleanup).
Hypothesis P_abandon : forall c t, P c (t, EvAbandon).
Hypothesis P_delete : forall c t name, P c (t, EvSpawn (delete_argv name)).
Variable known : list text -> bool.
Hypothesis known_commands :
  forall a b rest,
    In b [txt "clone"; txt "set"; txt "run"; txt "ip"; txt "-i"] ->
    known (a :: b :: rest) = true.
Hypothesis P_spawn :
  forall argv, known argv = true -> acts P (checked (EvSpawn argv)).
Hypothesis P_post : forall url bearer, acts P (checked (EvPost url bearer)).
Hypothesis P_mono : forall tc c te, P (omin (Some tc) c) te -> P c te.

Ltac acts_body :=
  repeat first
    [ apply P_spawn; assumption | apply P_post
    | apply acts_emit; intros; solve [apply P_log | apply P_cancel]
    | apply acts_bind; [|intro]
    | apply acts_try_finally
    | apply acts_ret | apply acts_raise
    | apply acts_checkpoint | apply acts_block | apply acts_wait_process
    | apply acts_current_time
    | assumption ].

Lemma acts_log data : acts P (log data).
Proof. unfold log; acts_body. Qed.

Lemma acts_run_process check argv p :
  known argv = true -> acts P (run_process check argv p).
Proof.
  intros Hk. unfold run_process; acts_body.
  destruct (p_end p); acts_body. destruct (_ && _); acts_body.
Qed.

Lemma acts_post url bearer h : acts P (post url bearer h).
Proof. unfold post; acts_body. destruct (h_end h); acts_body. Qed.

Lemma acts_subscript d key : acts P (subscript d key).
Proof. unfold subscript; destruct (getitem key d); acts_body. Qed.

Ltac acts_fun :=
  repeat first
    [ apply acts_log
    | apply acts_run_process; apply known_commands; simpl; tauto
    | apply acts_post
    | apply acts_subscript
    | apply acts_bind; [|intro]
    | apply acts_ret | apply acts_raise
    | assumption ].

Lemma acts_get_registration_token config w :
  acts P (get_registration_token config w).
Proof. unfold get_registration_token, generate_jwt; acts_fun. Qed.

Lemma acts_provision_tart_vm config w : acts P (provision_tart_vm config w).
Proof. unfold provision_tart_vm; acts_fun; destruct (negb _); acts_fun. Qed.

Lemma acts_get_tart_ip_loop ip runner_name fuel :
  forall attempts, acts P (get_tart_ip_loop ip runner_name attempts fuel).
Proof.
  induction fuel as [|fuel IH]; intros attempts; simpl.
  - apply acts_ret.
  - apply acts_try_except.
    + acts_fun.
    + intros e k Hk. destruct e; try discriminate.
      injection Hk as <-. apply IH.
Qed.

Lemma acts_get_tart_ip ip runner_name retries :
  acts P (get_tart_ip ip runner_name retries).
Proof.
  unfold get_tart_ip. apply acts_bind; [apply acts_get_tart_ip_loop|].
  intros [r|]; [|apply acts_raise].
  destruct (decode_ascii (stdout r)); acts_fun.
Qed.

Lemma acts_scp_actions_runner config w ip :
  acts P (scp_actions_runner config w ip).
Proof. unfold scp_actions_runner; acts_fun. Qed.

Lemma acts_log_output chunks runner_name :
  forall pending, acts P (log_output pending chunks runner_name).
Proof.
  induction chunks as [|[d b] chunks IH]; intros pending; simpl.
  - apply acts_ret.
  - apply acts_bind; [apply acts_block | intro].
    destruct (utf8_decode (pending ++ b)); acts_fun. apply IH.
Qed.

Lemma acts_launch_runner config w runner_name ip token :
  acts P (launch_runner config w runner_name ip token).
Proof.
  unfold launch_runner.
  apply acts_bind; [apply P_spawn, known_commands; simpl; tauto | intro].
  destruct (a_start (w_ssh w)); [|apply acts_raise].
  apply acts_with_process.
  apply acts_bind; [apply acts_log_output | intro; apply acts_block].
Qed.

Lemma acts_vm_process w runner_name : acts P (vm_process w runner_name).
Proof. unfold vm_process; acts_fun. Qed.

Lemma acts_run_vm_then_cancel w runner_name :
  acts P (run_vm_then_cancel w runner_name).
Proof.
  unfold run_vm_then_cancel.
  apply acts_try_finally; [apply acts_vm_process|].
  apply acts_emit; intros; apply P_cancel.
Qed.

Lemma acts_execution_session config w runner_name :
  acts P (execution_session config w runner_name).
Proof.
  unfold execution_session.
  apply acts_bind; [apply acts_get_tart_ip | intro].
  apply acts_bind; [apply acts_scp_actions_runner | intro].
  apply acts_bind; [apply acts_get_registration_token | intro].
  apply acts_bind; [apply acts_log | intro].
  apply acts_launch_runner.
Qed.

Lemma acts_run_runner_then_cancel config w runner_name :
  acts P (run_runner_then_cancel config w runner_name).
Proof.
  unfold run_runner_then_cancel.
  apply acts_try_finally; [apply acts_execution_session|].
  apply acts_emit; intros; apply P_cancel.
Qed.

Lemma acts_cleanup w runner_name : acts P (cleanup w runner_name).
Proof.
  intros c t. rewrite cleanup_run. unfold cleanup_outcome.
  assert (Hs : Forall (P c) [(t, EvCleanup); (t, EvSpawn (delete_argv runner_name))]).
  { repeat constructor; auto. }
  assert (Ha : Forall (P c) ([(t, EvCleanup); (t, EvSpawn (delete_argv runner_name))]
                             ++ [(delete_gone w t, EvAbandon)])).
  { apply Forall_app; split; [assumption | repeat constructor; auto]. }
  cbv zeta.
  destruct (p_end (w_delete w)); [|assumption].
  destruct (p_dur (w_delete w)) as [d|]; [|assumption].
  destruct (d <=? 5); assumption.
Qed.

Lemma acts_subtasks config w runner_name :
  acts P (subtasks config w runner_name).
Proof.
  apply acts_nursery2; auto using acts_run_vm_then_cancel,
                            acts_run_runner_then_cancel.
Qed.

Lemma acts_runner config w : acts P (runner config w).
Proof.
  unfold runner. apply acts_bind; [apply acts_provision_tart_vm | intro].
  apply acts_try_finally; [|apply acts_cleanup].
  apply acts_nursery2; auto using acts_run_vm_then_cancel,
                            acts_run_runner_then_cancel.
Qed.
End Program_actions.

(** ** Time goes forward *)

Lemma forward_ret {A} (a : A) : forward (ret a).
Proof. intros c t; simpl; lia. Qed.

Lemma forward_raise {A} (e : exn) : forward (@raise A e).
Proof. intros c t; simpl; lia. Qed.

Lemma forward_emit e : forward (emit e).
Proof. intros c t; simpl; lia. Qed.

Lemma forward_current_time : forward current_time.
Proof. intros c t; simpl; lia. Qed.

Lemma forward_checkpoint : forward checkpoint.
Proof. intros c t; unfold checkpoint; destruct (cancelled_at c t); simpl; lia. Qed.

Lemma forward_block d : forward (block d).
Proof.
  intros c t; unfold block.
  destruct c as [tc|], d as [n|]; try destruct (t + n <=? tc); simpl; lia.
Qed.

Lemma stopped_later natural t tk dies :
  (forall n, natural = Some n -> t <= n) -> t <= tk ->
  t <= stopped natural tk dies.
Proof.
  intros Hn Ht. unfold stopped. destruct natural as [n|]; [|lia].
  specialize (Hn n eq_refl). lia.
Qed.

Lemma forward_wait_process p : forward (wait_process p).
Proof.
  intros c t; unfold wait_process. cbv zeta.
  pose proof (forward_block (p_dur p) c t) as H.
  destruct (res (block (p_dur p) c t)); try exact H. cbn [fin].
  apply stopped_later; [|exact H].
  intros n. destruct (p_dur p); cbn [option_map]; intros [= <-]; lia.
Qed.

Lemma forward_with_process dur dies (reader : M unit) :
  forward reader -> forward (with_process dur dies reader).
Proof.
  intros Hr c t; unfold with_process. cbv zeta. specialize (Hr c t).
  destruct (res (reader c t)); try exact Hr. cbn [fin].
  apply stopped_later; [|exact Hr].
  intros n. destruct dur; cbn [option_map]; intros [= <-]; lia.
Qed.

Lemma forward_bind {A B} (m : M A) (k : A -> M B) :
  forward m -> (forall a, forward (k a)) -> forward (bind m k).
Proof.
  intros Hm Hk c t; unfold bind. specialize (Hm c t).
  destruct (res (m c t)) as [a| |]; simpl; try assumption.
  specialize (Hk a c (fin (m c t))). lia.
Qed.

Lemma forward_try_except {A} (m : M A) (h : exn -> option (M A)) :
  forward m -> (forall e k, h e = Some k -> forward k) -> forward (try_except m h).
Proof.
  intros Hm Hh c t; unfold try_except. specialize (Hm c t).
  destruct (res (m c t)) as [a|e|]; try assumption.
  destruct (h e) as [k|] eqn:E; try assumption.
  specialize (Hh _ _ E c (fin (m c t))). simpl; lia.
Qed.

Lemma forward_try_finally {A} (m : M A) (f : M unit) :
  forward m -> forward f -> forward (try_finally m f).
Proof.
  intros Hm Hf c t; unfold try_finally. specialize (Hm c t).
  specialize (Hf c (fin (m c t))).
  destruct (res (m c t)); simpl; lia.
Qed.

Lemma forward_checked e : forward (checked e).
Proof.
  apply forward_bind; [apply forward_checkpoint | intro; apply forward_emit].
Qed.

Ltac forward_steps :=
  repeat first
    [ apply forward_checked
    | apply forward_bind; [|intro]
    | apply forward_try_finally
    | apply forward_ret | apply forward_raise | apply forward_emit
    | apply forward_checkpoint | apply forward_block | apply forward_wait_process
    | apply forward_current_time
    | assumption ].

Lemma forward_log data : forward (log data).
Proof. apply forward_emit. Qed.

Lemma forward_sleep secs : forward (sleep secs).
Proof. unfold sleep; forward_steps. Qed.

Lemma forward_run_process check argv p : forward (run_process check argv p).
Proof.
  unfold run_process; forward_steps.
  destruct (p_end p); forward_steps.
  destruct (_ && _); forward_steps.
Qed.

Lemma forward_post url bearer h : forward (post url bearer h).
Proof. unfold post; forward_steps. destruct (h_end h); forward_steps. Qed.

Lemma forward_subscript d key : forward (subscript d key).
Proof. unfold subscript; destruct (getitem key d); forward_steps. Qed.

Ltac forward_body :=
  repeat first
    [ apply forward_log | apply forward_sleep | apply forward_run_process
    | apply forward_post | apply forward_subscript
    | apply forward_bind; [|intro]
    | apply forward_try_finally
    | apply forward_ret | apply forward_raise | apply forward_emit
    | apply forward_checkpoint | apply forward_block | apply forward_wait_process
    | apply forward_current_time
    | assumption ].

Lemma forward_get_registration_token config w :
  forward (get_registration_token config w).
Proof. unfold get_registration_token, generate_jwt; forward_body. Qed.

Lemma forward_provision_tart_vm config w : forward (provision_tart_vm config w).
Proof.
  unfold provision_tart_vm; forward_body; destruct (negb _); forward_body.
Qed.

Lemma forward_get_tart_ip_loop ip runner_name fuel :
  forall attempts, forward (get_tart_ip_loop ip runner_name attempts fuel).
Proof.
  induction fuel as [|fuel IH]; intros attempts; simpl.
  - apply forward_ret.
  - apply forward_try_except.
    + forward_body.
    + intros e k Hk. destruct e; try discriminate.
      injection Hk as <-. apply IH.
Qed.

Lemma forward_get_tart_ip ip runner_name retries :
  forward (get_tart_ip ip runner_name retries).
Proof.
  unfold get_tart_ip. apply forward_bind; [apply forward_get_tart_ip_loop|].
  intros [r|]; [|apply forward_raise].
  destruct (decode_ascii (stdout r)); forward_steps.
Qed.

Lemma forward_scp_actions_runner config w ip : forward (scp_actions_runner config w ip).
Proof. unfold scp_actions_runner; forward_body. Qed.

Lemma forward_log_output chunks runner_name :
  forall pending, forward (log_output pending chunks runner_name).
Proof.
  induction chunks as [|[d b] chunks IH]; intros pending; simpl.
  - apply forward_ret.
  - forward_steps. destruct (utf8_decode (pending ++ b)); forward_steps.
    apply IH.
Qed.

Lemma forward_launch_runner config w runner_name ip token :
  forward (launch_runner config w runner_name ip token).
Proof.
  unfold launch_runner; forward_steps.
  destruct (a_start (w_ssh w)); forward_steps.
  apply forward_with_process. forward_steps. apply forward_log_output.
Qed.

Lemma forward_vm_process w runner_name : forward (vm_process w runner_name).
Proof. unfold vm_process; forward_body. Qed.

Lemma forward_run_vm_then_cancel w runner_name : forward (run_vm_then_cancel w runner_name).
Proof.
  unfold run_vm_then_cancel.
  apply forward_try_finally; [apply forward_vm_process | apply forward_emit].
Qed.

Lemma forward_execution_session config w runner_name :
  forward (execution_session config w runner_name).
Proof.
  unfold execution_session.
  apply forward_bind; [apply forward_get_tart_ip | intro].
  apply forward_bind; [apply forward_scp_actions_runner | intro].
  apply forward_bind; [apply forward_get_registration_token | intro].
  apply forward_bind; [apply forward_log | intro].
  apply forward_launch_runner.
Qed.

Lemma forward_run_runner_then_cancel config w runner_name :
  forward (run_runner_then_cancel config w runner_name).
Proof.
  unfold run_runner_then_cancel.
  apply forward_try_finally; [apply forward_execution_session | apply forward_emit].
Qed.

Lemma forward_nursery2 (a b : M unit) : forward a -> forward b -> forward (nursery2 a b).
Proof.
  intros Ha Hb c t; unfold nursery2, nursery_exit.
  specialize (Ha c t).
  destruct (scope_cancel (a c t) (b c t)) as [tc|].
  - destruct (cancels_first (a c t) (b c t)); simpl.
    + lia.
    + specialize (Hb c t). lia.
  - simpl; lia.
Qed.

Lemma forward_cleanup w runner_name : forward (cleanup w runner_name).
Proof.
  intros c t. rewrite cleanup_run. unfold cleanup_outcome. cbv zeta.
  pose proof (@delete_gone_late w t) as Hg.
  destruct (p_end (w_delete w)); cbn [fin]; [|lia].
  destruct (p_dur (w_delete w)) as [d|]; cbn [fin].
  - destruct (d <=? 5) eqn:Ed; cbn [fin]; [lia|].
    apply Nat.leb_gt in Ed.
    assert (t + 5 <= delete_gone w t) by (apply Hg; intros d' [= <-]; exact Ed).
    lia.
  - assert (t + 5 <= delete_gone w t) by (apply Hg; intros d' [=]).
    lia.
Qed.

Lemma forward_subtasks config w runner_name :
  forward (subtasks config w runner_name).
Proof.
  apply forward_nursery2;
    [apply forward_run_vm_then_cancel | apply forward_run_runner_then_cancel].
Qed.

Lemma forward_runner config w : forward (runner config w).
Proof.
  unfold runner. apply forward_bind; [apply forward_provision_tart_vm | intro].
  apply forward_try_finally; [|apply forward_cleanup].
  apply forward_nursery2;
    [apply forward_run_vm_then_cancel | apply forward_run_runner_then_cancel].
Qed.

(** ** The lifecycle, step by step *)

Lemma runner_lifecycle config w c t : runner config w c t = lifecycle config w c t.
Proof.
  unfold runner, lifecycle, bind, try_finally.
  destruct (res (provision_tart_vm config w c t)) as [name| |]; try reflexivity.
  rewrite cleanup_run.
  set (n := subtasks config w name c _).
  destruct (res n) eqn:En; simpl; rewrite ?En, ?app_assoc; reflexivity.
Qed.

(** ** The coupling of the two subtasks *)

Lemma In_merge (x : tevent) (a b : list tevent) :
  In x (merge a b) <-> In x a \/ In x b.
Proof.
  revert b. induction a as [|y a IH]; intros b.
  - simpl; tauto.
  - induction b as [|z b IHb].
    + simpl; tauto.
    + simpl merge. destruct (fst y <=? fst z).
      * simpl. rewrite IH. simpl. tauto.
      * change (In x (z :: merge (y :: a) b) <-> In x (y :: a) \/ In x (z :: b)).
        simpl. simpl in IHb. rewrite IHb. tauto.
Qed.

Lemma first_cancel_app (l l' : list tevent) :
  Forall (fun te => is_cancel (snd te) = false) l ->
  first_cancel (l ++ l') = first_cancel l'.
Proof.
  induction 1 as [|[t e] l He Hl IH]; [reflexivity|].
  simpl in *. destruct e; try discriminate; assumption.
Qed.

Lemma acts_checked_always (P : option nat -> tevent -> Prop) e :
  (forall c t, P c (t, e)) -> acts P (checked e).
Proof.
  intros H. apply acts_bind; [apply acts_checkpoint | intro; apply acts_emit, H].
Qed.

Lemma vm_process_no_cancel w runner_name :
  acts (fun _ te => is_cancel (snd te) = false) (vm_process w runner_name).
Proof.
  apply acts_vm_process with (known := fun _ => true); intros;
    first [reflexivity | apply acts_checked_always; reflexivity].
Qed.

Lemma execution_session_no_cancel config w runner_name :
  acts (fun _ te => is_cancel (snd te) = false)
       (execution_session config w runner_name).
Proof.
  apply acts_execution_session with (known := fun _ => true); intros;
    first [reflexivity | apply acts_checked_always; reflexivity].
Qed.

(** A subtask whose [finally] cancels the scope does so when it exits, and
    not before. *)
Lemma cancel_on_exit (body : M unit) (k : task) c t :
  acts (fun _ te => is_cancel (snd te) = false) body ->
  first_cancel (evs (try_finally body (emit (EvCancelScope k)) c t))
  = exit_time (try_finally body (emit (EvCancelScope k)) c t)
  /\ (res (try_finally body (emit (EvCancelScope k)) c t) <> Hang ->
      In (EvCancelScope k)
         (map snd (evs (try_finally body (emit (EvCancelScope k)) c t)))).
Proof.
  intros Hb. unfold try_finally, exit_time.
  specialize (Hb c t).
  destruct (res (body c t)) eqn:E; cbn [res fin evs emit].
  - rewrite first_cancel_app by assumption. split; [reflexivity|].
    intros _. rewrite map_app, in_app_iff. right; left; reflexivity.
  - rewrite first_cancel_app by assumption. split; [reflexivity|].
    intros _. rewrite map_app, in_app_iff. right; left; reflexivity.
  - rewrite E. split; [|intros H; contradiction H; reflexivity].
    rewrite <- (app_nil_r (evs (body c t))).
    rewrite first_cancel_app by assumption. reflexivity.
Qed.

Lemma vm_cancels_on_exit w runner_name c t :
  first_cancel (evs (run_vm_then_cancel w runner_name c t))
  = exit_time (run_vm_then_cancel w runner_name c t)
  /\ (res (run_vm_then_cancel w runner_name c t) <> Hang ->
      In (EvCancelScope VmMonitor)
         (map snd (evs (run_vm_then_cancel w runner_name c t)))).
Proof.
  unfold run_vm_then_cancel. apply cancel_on_exit, vm_process_no_cancel.
Qed.

Lemma session_cancels_on_exit config w runner_name c t :
  first_cancel (evs (run_runner_then_cancel config w runner_name c t))
  = exit_time (run_runner_then_cancel config w runner_name c t)
  /\ (res (run_runner_then_cancel config w runner_name c t) <> Hang ->
      In (EvCancelScope Session)
         (map snd (evs (run_runner_then_cancel config w runner_name c t)))).
Proof.
  unfold run_runner_then_cancel.
  apply cancel_on_exit, execution_session_no_cancel.
Qed.

Lemma scope_cancel_first (na nb : run unit) tc :
  scope_cancel na nb = Some tc ->
  if cancels_first na nb then first_cancel (evs na) = Some tc
  else first_cancel (evs nb) = Some tc.
Proof.
  unfold scope_cancel, cancels_first.
  destruct (first_cancel (evs na)) as [ta|], (first_cancel (evs nb)) as [tb|];
    simpl; try discriminate; try (intros H; exact H).
  intros [= <-].
  destruct (ta <=? tb) eqn:E;
    [apply Nat.leb_le in E | apply Nat.leb_gt in E]; f_equal; lia.
Qed.

Lemma exit_time_some {A} (r : run A) tc :
  exit_time r = Some tc -> res r <> Hang /\ fin r = tc.
Proof.
  unfold exit_time. destruct (res r); try discriminate;
    intros [= <-]; split; try reflexivity; discriminate.
Qed.

Lemma sibling_is_cancelled (m : M unit) c t tc :
  prompt m -> stable m -> t <= tc ->
  sibling_cancelled (m c t) (m (omin (Some tc) c) t) tc.
Proof.
  intros Hp Hs Ht.
  destruct (omin_le tc c) as (x & Ex & Hx & _).
  destruct (Hp x t) as [Hn Hf].
  split; [|split].
  - rewrite Ex; assumption.
  - apply Hs.
  - intros Hlate.
    apply (cancelled_when_scope_cancelled c Hp Hs Ht Hlate).
Qed.

Lemma join_exited (r1 r2 : result unit) sc pc :
  r1 <> Hang -> r2 <> Hang -> join (absorb sc pc r1) (absorb sc pc r2) <> Hang.
Proof.
  intros H1 H2.
  assert (Ha : forall r : result unit, r <> Hang -> absorb sc pc r <> Hang).
  { intros [[]|e|] H; try contradiction; try discriminate.
    destruct e; cbn [absorb]; try discriminate;
      destruct (sc && negb pc); discriminate. }
  specialize (Ha r1 H1) as Ha1. specialize (Ha r2 H2) as Ha2.
  destruct (absorb sc pc r1) as [[]|e1|], (absorb sc pc r2) as [[]|e2|];
    try contradiction; cbn [join]; try discriminate.
  destruct (is_Exception e1 && negb (is_Exception e2)); discriminate.
Qed.

Lemma cleanup_split (X Y pre post : list tevent) tn tcl :
  Forall (fun te => is_cleanup (snd te) = false) X ->
  Forall (fun te => is_cleanup (snd te) = false) Y ->
  pre ++ (tcl, EvCleanup) :: post = X ++ (tn, EvCleanup) :: Y ->
  pre = X /\ post = Y.
Proof.
  intros HX HY. revert pre.
  induction HX as [|x X Hx HX IH]; intros pre E.
  - destruct pre as [|p pre]; simpl in E.
    + injection E as _ E; split; [reflexivity | assumption].
    + injection E as _ E. exfalso.
      rewrite <- E in HY. apply Forall_app in HY. destruct HY as [_ HY].
      inversion HY as [|? ? H]; discriminate H.
  - destruct pre as [|p pre]; simpl in E.
    + injection E as E _. rewrite <- E in Hx; discriminate Hx.
    + injection E as -> E. destruct (IH _ E) as [-> ->]. split; reflexivity.
Qed.

Lemma provision_no_cleanup config w :
  acts (fun _ te => is_cleanup (snd te) = false) (provision_tart_vm config w).
Proof.
  apply acts_provision_tart_vm with (known := fun _ => true); intros;
    first [reflexivity | apply acts_checked_always; reflexivity].
Qed.

Lemma children_no_cleanup config w runner_name :
  acts (fun _ te => is_cleanup (snd te) = false) (subtasks config w runner_name).
Proof.
  apply acts_nursery2.
  - intros; assumption.
  - apply acts_run_vm_then_cancel with (known := fun _ => true); intros;
      first [reflexivity | apply acts_checked_always; reflexivity].
  - apply acts_run_runner_then_cancel with (known := fun _ => true); intros;
      first [reflexivity | apply acts_checked_always; reflexivity].
Qed.

Lemma cleanup_outcome_evs w runner_name t :
  exists rest,
    evs (cleanup_outcome w runner_name t) = (t, EvCleanup) :: rest
    /\ Forall (fun te => is_cleanup (snd te) = false) rest
    /\ Forall (fun te => is_cancel (snd te) = false) rest.
Proof.
  unfold cleanup_outcome.
  destruct (p_end (w_delete w)) as [r|];
    [destruct (p_dur (w_delete w)) as [d|]; [destruct (d <=? 5)|]|];
    simpl; eexists; (split; [reflexivity|]); split; repeat constructor.
Qed.

Lemma join_not_hang (r1 r2 : result unit) sc pc :
  join (absorb sc pc r1) (absorb sc pc r2) <> Hang -> r1 <> Hang /\ r2 <> Hang.
Proof.
  intros H.
  destruct r1 as [[]|e1|], r2 as [[]|e2|];
    try (split; discriminate); exfalso; apply H; clear H;
    try reflexivity;
    try (destruct e1; cbn [absorb]; try reflexivity;
         destruct (sc && negb pc); reflexivity).
Qed.

Lemma In_map_merge (e : event) (l1 l2 : list tevent) :
  In e (map snd l1) \/ In e (map snd l2) -> In e (map snd (merge l1 l2)).
Proof.
  intros H. apply in_map_iff.
  destruct H as [H|H]; apply in_map_iff in H; destruct H as (x & <- & Hx);
    exists x; (split; [reflexivity|]); apply In_merge; auto.
Qed.

(** When a nursery is left, both children have exited, and their actions
    are among those of the nursery. *)
Lemma nursery2_exited (a b : M unit) c t :
  res (nursery2 a b c t) <> Hang ->
  exists ca cb,
    res (a ca t) <> Hang /\ res (b cb t) <> Hang
    /\ (forall e, In e (map snd (evs (a ca t))) \/ In e (map snd (evs (b cb t))) ->
                  In e (map snd (evs (nursery2 a b c t)))).
Proof.
  unfold nursery2, nursery_exit.
  destruct (scope_cancel (a c t) (b c t)) as [tc|].
  - destruct (cancels_first (a c t) (b c t)); cbn [res evs]; intros Hn;
      apply join_not_hang in Hn; destruct Hn as [H1 H2].
    + exists c, (omin (Some tc) c). repeat split; try assumption.
      intros e. apply In_map_merge.
    + exists (omin (Some tc) c), c. repeat split; try assumption.
      intros e H. apply In_map_merge. tauto.
  - cbn [res evs]; intros Hn. apply join_not_hang in Hn. destruct Hn as [H1 H2].
    exists c, c. repeat split; try assumption. intros e. apply In_map_merge.
Qed.

(** When the nursery is left, both subtasks have cancelled its scope. *)
Lemma children_cancel config w runner_name c t :
  res (subtasks config w runner_name c t) <> Hang ->
  In (EvCancelScope VmMonitor) (map snd (evs (subtasks config w runner_name c t)))
  /\ In (EvCancelScope Session) (map snd (evs (subtasks config w runner_name c t))).
Proof.
  unfold subtasks. intros Hn.
  apply nursery2_exited in Hn. destruct Hn as (ca & cb & Ha & Hb & Hin).
  split; apply Hin.
  - left. apply vm_cancels_on_exit; assumption.
  - right. apply session_cancels_on_exit; assumption.
Qed.

(** The nursery, seen from the child that exits first. *)
Lemma nursery2_coupled (a b : M unit) c t tc :
  prompt a -> stable a -> forward a ->
  prompt b -> stable b -> forward b ->
  first_cancel (evs (a c t)) = exit_time (a c t) ->
  first_cancel (evs (b c t)) = exit_time (b c t) ->
  scope_cancel (a c t) (b c t) = Some tc ->
  if cancels_first (a c t) (b c t)
  then coupled (a c t) (b c t) (b (omin (Some tc) c) t) (nursery2 a b c t) tc
  else coupled (b c t) (a c t) (a (omin (Some tc) c) t) (nursery2 a b c t) tc.
Proof.
  intros Pa Sa Fa Pb Sb Fb Ha Hb Hsc.
  pose proof (scope_cancel_first _ _ Hsc) as Hfirst.
  unfold nursery2. cbv zeta. rewrite Hsc.
  destruct (cancels_first (a c t) (b c t)).
  - rewrite Ha in Hfirst.
    destruct (exit_time_some _ Hfirst) as [Hn Hf].
    assert (Ht : t <= tc) by (rewrite <- Hf; apply Fa).
    pose proof (@sibling_is_cancelled b c t tc Pb Sb Ht) as Hsib.
    unfold coupled, nursery_exit. cbv zeta. rewrite res_mk, fin_mk, evs_mk.
    split; [exact Hfirst|]. split; [exact Hsib|].
    split; [apply join_exited; [exact Hn | apply Hsib]|].
    split; [reflexivity|]. intros te. apply In_merge.
  - rewrite Hb in Hfirst.
    destruct (exit_time_some _ Hfirst) as [Hn Hf].
    assert (Ht : t <= tc) by (rewrite <- Hf; apply Fb).
    pose proof (@sibling_is_cancelled a c t tc Pa Sa Ht) as Hsib.
    unfold coupled, nursery_exit. cbv zeta. rewrite res_mk, fin_mk, evs_mk.
    split; [exact Hfirst|]. split; [exact Hsib|].
    split; [apply join_exited; [exact Hn | apply Hsib]|].
    split; [reflexivity|]. intros te. apply In_merge.
Qed.

(** C4.  Within one lifecycle each of the two subtasks cancels the scope
    they share when it exits, for whatever reason, and not before; so the
    scope is cancelled at the time of the first exit.  From then on the
    sibling of the subtask that exits first runs inside the cancelled
    scope: it comes to an end, it does as it does alone or ends because of
    the cancellation, and it ends because of the cancellation when alone
    it would have gone on.  So the nursery of the lifecycle is left (it
    does not wait for a sibling that would run for ever), and what has
    happened in it is what the first subtask did and what its sibling did
    inside the cancelled scope.  In the actions of the lifecycle both
    cancellations come before the cleanup is entered, and none after. *)
Theorem first_exit_cancels_sibling config w runner_name c t :
  let a := run_vm_then_cancel w runner_name in
  let b := run_runner_then_cancel config w runner_name in
  first_cancel (evs (a c t)) = exit_time (a c t)
  /\ first_cancel (evs (b c t)) = exit_time (b c t)
  /\ (forall tc, scope_cancel (a c t) (b c t) = Some tc ->
        if cancels_first (a c t) (b c t)
        then coupled (a c t) (b c t) (b (omin (Some tc) c) t)
                     (subtasks config w runner_name c t) tc
        else coupled (b c t) (a c t) (a (omin (Some tc) c) t)
                     (subtasks config w runner_name c t) tc)
  /\ cancels_precede_cleanup (evs (runner config w c t)).
Proof.
  intros a b.
  assert (Ha : first_cancel (evs (a c t)) = exit_time (a c t)).
  { apply vm_cancels_on_exit. }
  assert (Hb : first_cancel (evs (b c t)) = exit_time (b c t)).
  { apply session_cancels_on_exit. }
  split; [assumption|]. split; [assumption|]. split.
  - intros tc Hsc.
    exact (@nursery2_coupled a b c t tc
             (prompt_run_vm_then_cancel w runner_name)
             (stable_run_vm_then_cancel w runner_name)
             (forward_run_vm_then_cancel w runner_name)
             (prompt_run_runner_then_cancel config w runner_name)
             (stable_run_runner_then_cancel config w runner_name)
             (forward_run_runner_then_cancel config w runner_name)
             Ha Hb Hsc).
  - intros pre post tcl E. rewrite runner_lifecycle in E. unfold lifecycle in E.
    pose proof (provision_no_cleanup config w c t) as Hp.
    remember (provision_tart_vm config w c t) as p eqn:Ep. clear Ep.
    destruct (res p) as [name| |].
    + pose proof (children_no_cleanup config w name c (fin p)) as Hc.
      pose proof (@children_cancel config w name c (fin p)) as Hcc.
      cbv zeta in E.
      remember (subtasks config w name c (fin p)) as n eqn:En0. clear En0.
      destruct (cleanup_outcome_evs w name (fin n)) as (rest & Er & Hr1 & Hr2).
      assert (Hpre : Forall (fun te => is_cleanup (snd te) = false) (evs p ++ evs n)).
      { apply Forall_app; split; assumption. }
      destruct (res n) eqn:En; cbn [evs] in E.
      * rewrite Er, app_assoc in E. symmetry in E.
        apply cleanup_split in E; try assumption. destruct E as [-> ->].
        destruct Hcc as [H1 H2]; [discriminate|].
        rewrite map_app, !in_app_iff. auto.
      * rewrite Er, app_assoc in E. symmetry in E.
        apply cleanup_split in E; try assumption. destruct E as [-> ->].
        destruct Hcc as [H1 H2]; [discriminate|].
        rewrite map_app, !in_app_iff. auto.
      * exfalso. rewrite E in Hpre. apply Forall_app in Hpre.
        destruct Hpre as [_ Hpre]. inversion Hpre as [|? ? H]; discriminate H.
    + exfalso. cbn [evs] in E. rewrite E in Hp. apply Forall_app in Hp.
      destruct Hp as [_ Hp]. inversion Hp as [|? ? H]; discriminate H.
    + exfalso. cbn [evs] in E. rewrite E in Hp. apply Forall_app in Hp.
      destruct Hp as [_ Hp]. inversion Hp as [|? ? H]; discriminate H.
Qed.


(** ** The cleanup *)

Lemma delete_gone_bound w t :
  delete_gone w t <= t + 10 + p_kill (w_delete w).
Proof.
  unfold delete_gone, stopped, dies_after.
  destruct (p_dur (w_delete w)) as [d|], (p_term (w_delete w)) as [n|];
    cbn [option_map]; lia.
Qed.

Lemma cleanup_outcome_facts w name t :
  res (cleanup_outcome w name t) <> Hang
  /\ ((forall d, p_dur (w_delete w) = Some d -> 5 < d)
      \/ fin (cleanup_outcome w name t) <= t + 5)
  /\ fin (cleanup_outcome w name t) <= t + 10 + p_kill (w_delete w)
  /\ In (t, EvSpawn (delete_argv name)) (evs (cleanup_outcome w name t)).
Proof.
  unfold cleanup_outcome. cbv zeta.
  pose proof (delete_gone_bound w t) as Hg.
  destruct (p_end (w_delete w)) as [r|].
  - destruct (p_dur (w_delete w)) as [d|].
    + destruct (d <=? 5) eqn:Ed; rewrite res_mk, fin_mk, evs_mk.
      * apply Nat.leb_le in Ed.
        split; [destruct (returncode r =? 0)%Z; discriminate|].
        split; [right; lia|]. split; [lia|]. right; left; reflexivity.
      * apply Nat.leb_gt in Ed.
        split; [discriminate|].
        split; [left; intros d' [= <-]; exact Ed|]. split; [exact Hg|].
        right; left; reflexivity.
    + rewrite res_mk, fin_mk, evs_mk. split; [discriminate|].
      split; [left; intros d' [=]|]. split; [exact Hg|].
      right; left; reflexivity.
  - rewrite res_mk, fin_mk, evs_mk. split; [discriminate|].
    split; [right; lia|]. split; [lia|]. right; left; reflexivity.
Qed.

(** C3, as the code has it.  In every lifecycle that has been provisioned,
    once the scope of the two subtasks has ended (by their completion, by
    an error or by a cancellation from outside) the cleanup is entered; it
    runs as if nothing around it were cancelled and starts the delete
    command at once.  It is over within five time units when the command
    ends by then.  When the deadline fires on the command, the cleanup is
    over only when the command is gone: within ten time units and the time
    the command takes to die of SIGKILL. *)
Theorem cleanup_is_shielded_and_bounded config w c t name :
  res (provision_tart_vm config w c t) = Ret name ->
  res (subtasks config w name c (fin (provision_tart_vm config w c t))) <> Hang ->
  cleanup_guarantee_amended config w c t name.
Proof.
  intros Hp Hn. unfold cleanup_guarantee_amended.
  rewrite runner_lifecycle. unfold lifecycle. rewrite Hp.
  remember (provision_tart_vm config w c t) as p eqn:Ep. clear Ep Hp.
  remember (subtasks config w name c (fin p)) as n eqn:En. clear En.
  cbv zeta. rewrite !cleanup_run.
  destruct (cleanup_outcome_facts w name (fin n)) as (Hk1 & Hk2 & Hk3 & Hk4).
  remember (cleanup_outcome w name (fin n)) as k eqn:Ek. clear Ek.
  destruct (res n) eqn:E; [| |contradiction];
    rewrite ?res_mk, ?fin_mk, ?evs_mk;
    (split; [reflexivity|]); (split; [reflexivity|]); (split; [reflexivity|]);
    (split; [exact Hk4|]); (split; [exact Hk1|]); (split; [exact Hk2|]);
    (split; [exact Hk3|]); (split; [|reflexivity]);
    destruct (res k); try discriminate; contradiction.
Qed.

Lemma cleanup_is_shielded_and_bounded_witness :
  cleanup_guarantee_amended sample_config sample_world (Some 4) 0 sample_name.
Proof.
  apply cleanup_is_shielded_and_bounded.
  - vm_compute. reflexivity.
  - vm_compute. discriminate.
Defined.

(** C3, as the specification has it, fails.  The delete command of this
    world does not react to SIGTERM and would never end by itself: the
    deadline fires on it five time units after the cleanup was entered,
    and the cleanup is over five time units after that, when SIGKILL has
    ended the command. *)
Lemma cleanup_outlasts_the_deadline :
  res (provision_tart_vm sample_config (with_delete stubborn sample_world) None 0)
  = Ret sample_name
  /\ res (subtasks sample_config (with_delete stubborn sample_world) sample_name
                   None 2) = Ret tt
  /\ fin (subtasks sample_config (with_delete stubborn sample_world) sample_name
                   None 2) = 9
  /\ fin (cleanup (with_delete stubborn sample_world) sample_name None 9) = 19
  /\ ~ cleanup_guarantee sample_config (with_delete stubborn sample_world)
                         None 0 sample_name.
Proof.
  split; [vm_compute; reflexivity|]. split; [vm_compute; reflexivity|].
  split; [vm_compute; reflexivity|]. split; [vm_compute; reflexivity|].
  unfold cleanup_guarantee. cbv zeta. intros (_ & _ & _ & _ & _ & H & _).
  vm_compute in H. lia.
Qed.


(** ** The turns of the supervisor *)

Lemma iteration_returned config w retries c t :
  res (runner config w c t) = Ret tt ->
  iteration config w retries c t =
  MkRun (Ret 0) (fin (runner config w c t))
        (evs (runner config w c t) ++ [(fin (runner config w c t), EvReturned)]).
Proof.
  intros E. unfold iteration. rewrite try_except_run, bind_run.
  remember (runner config w c t) as l eqn:El. clear El.
  rewrite E. rewrite bind_run. rewrite res_mk.
  reflexivity.
Qed.

Lemma iteration_failed config w retries c t e :
  res (runner config w c t) = Raise e -> is_Exception e = true ->
  iteration config w retries c t =
  MkRun (res (on_failure e retries c (fin (runner config w c t))))
        (fin (on_failure e retries c (fin (runner config w c t))))
        (evs (runner config w c t)
         ++ evs (on_failure e retries c (fin (runner config w c t)))).
Proof.
  intros E He. unfold iteration. rewrite try_except_run, bind_run.
  remember (runner config w c t) as l eqn:El. clear El.
  rewrite E. rewrite !res_mk, !fin_mk, !evs_mk. rewrite He. reflexivity.
Qed.

Lemma iteration_escaped config w retries c t e :
  res (runner config w c t) = Raise e -> is_Exception e = false ->
  iteration config w retries c t =
  MkRun (Raise e) (fin (runner config w c t)) (evs (runner config w c t)).
Proof.
  intros E He. unfold iteration. rewrite try_except_run, bind_run.
  remember (runner config w c t) as l eqn:El. clear El.
  rewrite E. rewrite !res_mk. rewrite He. reflexivity.
Qed.

Lemma iteration_hang config w retries c t :
  res (runner config w c t) = Hang ->
  iteration config w retries c t =
  MkRun Hang (fin (runner config w c t)) (evs (runner config w c t)).
Proof.
  intros E. unfold iteration. rewrite try_except_run, bind_run.
  remember (runner config w c t) as l eqn:El. clear El.
  rewrite E. rewrite !res_mk. reflexivity.
Qed.

Lemma sleep_run secs c t :
  sleep secs c t =
  if cancelled_at c t then MkRun (Raise Cancelled) t []
  else MkRun (res (block (Some secs) c t)) (fin (block (Some secs) c t))
             [(t, EvSleep secs)].
Proof.
  unfold sleep. rewrite bind_run, checked_run.
  destruct (cancelled_at c t); cbn [res fin evs]; [reflexivity|].
  rewrite block_no_action. reflexivity.
Qed.

(** The handler, computed. *)
Lemma on_failure_run e retries c f :
  on_failure e retries c f =
  MkRun (match res (sleep (2 ^ (retries + 1)) c f) with
         | Ret _ => Ret (retries + 1)
         | Raise x => Raise x
         | Hang => Hang
         end) (fin (sleep (2 ^ (retries + 1)) c f))
        ((f, EvFailed e)
         :: (f, EvLog (txt "Exception propagated to top level, restarting runner."))
         :: (f, EvLog (str_exn e))
         :: (f, EvLog (txt "Sleeping " ++ str_int (Z.of_nat (2 ^ (retries + 1)))
                       ++ txt " seconds before retrying"))
         :: evs (sleep (2 ^ (retries + 1)) c f)).
Proof.
  unfold on_failure, log.
  rewrite bind_run. cbn [res fin evs emit].
  rewrite bind_run. cbn [res fin evs emit].
  rewrite bind_run. cbn [res fin evs emit].
  cbv zeta.
  rewrite bind_run. cbn [res fin evs emit].
  rewrite bind_run.
  destruct (res (sleep (2 ^ (retries + 1)) c f));
    cbn [res fin evs ret app]; rewrite ?app_nil_r; reflexivity.
Qed.

(** The handler: what it records, and how it ends. *)
Lemma on_failure_facts e retries c f :
  In (f, EvFailed e) (evs (on_failure e retries c f))
  /\ (res (on_failure e retries c f) = Ret (retries + 1)
      \/ res (on_failure e retries c f) = Raise Cancelled)
  /\ (cancelled_at c f = false ->
      In (f, EvSleep (2 ^ (retries + 1))) (evs (on_failure e retries c f)))
  /\ (c = None ->
      res (on_failure e retries c f) = Ret (retries + 1)
      /\ fin (on_failure e retries c f) = f + 2 ^ (retries + 1)).
Proof.
  rewrite on_failure_run, sleep_run. cbn [res fin evs].
  split; [left; reflexivity|].
  destruct (cancelled_at c f) eqn:Ec; cbn [res fin evs].
  - split; [right; reflexivity|]. split; [discriminate|].
    intros ->. discriminate Ec.
  - unfold block. destruct c as [tc|].
    + destruct (f + 2 ^ (retries + 1) <=? tc); cbn [res fin evs];
        (split; [auto|]);
        (split; [intros _; do 4 right; left; reflexivity | discriminate]).
    + cbn [res fin evs]. split; [left; reflexivity|].
      split; [intros _; do 4 right; left; reflexivity|].
      intros _; split; reflexivity.
Qed.

Lemma failure_is_counted config w retries c t e :
  res (runner config w c t) = Raise e -> is_Exception e = true ->
  counted_as_failure config w retries c t e.
Proof.
  intros E He. unfold counted_as_failure.
  rewrite (iteration_failed config w retries c t E He).
  rewrite !res_mk, !fin_mk, !evs_mk.
  destruct (on_failure_facts e retries c (fin (runner config w c t)))
    as (H1 & H2 & H3 & H4).
  split; [exact E|]. split; [exact He|].
  split; [apply in_or_app; right; exact H1|].
  split; [exact H2|].
  split; [intros Hc; apply in_or_app; right; exact (H3 Hc)|].
  exact H4.
Qed.

(** ** A delete command that fails *)

(** C10.  When the delete command of the cleanup ends within the deadline
    with a non-zero status, the lifecycle raises [CalledProcessError] out
    of its cleanup, whatever the subtasks ended with (also when they ended
    well), and the supervisor counts the lifecycle as a failure and backs
    off. *)
Theorem failed_delete_fails_the_lifecycle config w retries c t name r d :
  res (provision_tart_vm config w c t) = Ret name ->
  res (subtasks config w name c (fin (provision_tart_vm config w c t))) <> Hang ->
  p_end (w_delete w) = Some r ->
  p_dur (w_delete w) = Some d ->
  d <= 5 ->
  returncode r <> 0%Z ->
  counted_as_failure config w retries c t (CalledProcessError (returncode r)).
Proof.
  intros Hp Hn Hr Hd Hd5 Hrc.
  apply failure_is_counted; [|reflexivity].
  rewrite runner_lifecycle. unfold lifecycle. rewrite Hp.
  remember (provision_tart_vm config w c t) as p eqn:Ep. clear Ep Hp.
  cbv zeta.
  remember (subtasks config w name c (fin p)) as n eqn:En. clear En.
  unfold cleanup_outcome. rewrite Hr, Hd.
  apply Nat.leb_le in Hd5. rewrite Hd5.
  apply Z.eqb_neq in Hrc. rewrite Hrc.
  destruct (res n); [reflexivity | reflexivity | contradiction].
Qed.

Lemma failed_delete_fails_the_lifecycle_witness :
  res (subtasks sample_config (with_delete (exits 2 1 []) sample_world)
                sample_name None 2) = Ret tt
  /\ counted_as_failure sample_config (with_delete (exits 2 1 []) sample_world)
                        0 None 0 (CalledProcessError 1).
Proof.
  split; [vm_compute; reflexivity|].
  apply (@failed_delete_fails_the_lifecycle
           sample_config (with_delete (exits 2 1 []) sample_world) 0 None 0
           sample_name (MkCompleted 1 []) 2).
  - vm_compute; reflexivity.
  - vm_compute; discriminate.
  - reflexivity.
  - reflexivity.
  - lia.
  - simpl; discriminate.
Defined.

(** ** Provisioning that fails *)

Lemma run_process_returns check argv p c t rc t' :
  returns p c t rc t' ->
  exists out,
    run_process check argv p c t =
    MkRun (if check && negb (rc =? 0)%Z then Raise (CalledProcessError rc)
           else Ret (MkCompleted rc out)) t' [(t, EvSpawn argv)].
Proof.
  intros (out & d & He & Hd & -> & Hc & Hl). exists out.
  rewrite (@run_process_started check argv p c t Hc), He.
  rewrite (@wait_process_in_time p c t d Hd Hl).
  rewrite res_mk, fin_mk. reflexivity.
Qed.

Lemma emit_run e c t : emit e c t = MkRun (Ret tt) t [(t, e)].
Proof. reflexivity. Qed.

Lemma log_run data c t : log data c t = MkRun (Ret tt) t [(t, EvLog data)].
Proof. reflexivity. Qed.

Lemma ret_run {A} (a : A) c t : ret a c t = MkRun (Ret a) t [].
Proof. reflexivity. Qed.

Lemma raise_run {A} e c t : @raise A e c t = MkRun (Raise e) t [].
Proof. reflexivity. Qed.

Lemma block_res d c t :
  res (block d c t) = Ret tt \/ res (block d c t) = Raise Cancelled
  \/ res (block d c t) = Hang.
Proof.
  unfold block. destruct c as [tc|], d as [n|]; try destruct (t + n <=? tc);
    cbn [res]; auto.
Qed.

Lemma wait_process_res p c t :
  res (wait_process p c t) = Ret tt \/ res (wait_process p c t) = Raise Cancelled
  \/ res (wait_process p c t) = Hang.
Proof.
  unfold wait_process. cbv zeta.
  destruct (block_res (p_dur p) c t) as [E|[E|E]]; rewrite E; auto.
Qed.

(** What [run_process] ends with: the process, when it exited with 0 or is
    not checked; [CalledProcessError] with its non-zero status;
    [FileNotFoundError]; [Cancelled]; or it blocks for ever. *)
Lemma run_process_res check argv p c t :
  (exists r, res (run_process check argv p c t) = Ret r
             /\ (check = true -> returncode r = 0%Z))
  \/ (exists rc, res (run_process check argv p c t) = Raise (CalledProcessError rc)
                 /\ rc <> 0%Z)
  \/ res (run_process check argv p c t) = Raise FileNotFoundError
  \/ res (run_process check argv p c t) = Raise Cancelled
  \/ res (run_process check argv p c t) = Hang.
Proof.
  unfold run_process. rewrite bind_run, checked_run.
  destruct (cancelled_at c t); rewrite !res_mk, ?fin_mk; [auto|].
  destruct (p_end p) as [r|]; [|rewrite raise_run, !res_mk; auto].
  rewrite bind_run.
  destruct (wait_process_res p c t) as [E|[E|E]]; rewrite E; rewrite ?res_mk; auto.
  destruct check; cbn [andb].
  - destruct (returncode r =? 0)%Z eqn:Erc; cbn [negb].
    + left. exists r. rewrite ret_run, res_mk. split; [reflexivity|].
      intros _. apply Z.eqb_eq; assumption.
    + right; left. exists (returncode r). rewrite raise_run, res_mk.
      split; [reflexivity|]. apply Z.eqb_neq; assumption.
  - left. exists r. rewrite ret_run, res_mk. split; [reflexivity | discriminate].
Qed.

Lemma run_process_checked argv p c t r :
  res (run_process true argv p c t) = Ret r -> returncode r = 0%Z.
Proof.
  intros E.
  destruct (run_process_res true argv p c t)
    as [(r' & E' & H)|[(rc & E' & _)|[E'|[E'|E']]]];
    rewrite E' in E; try discriminate.
  injection E as <-. apply H; reflexivity.
Qed.

Lemma provision_never_exits config w c t code :
  res (provision_tart_vm config w c t) <> Raise (SystemExit code).
Proof.
  unfold provision_tart_vm. cbv zeta.
  rewrite bind_run, log_run, ?res_mk, ?fin_mk, ?evs_mk.
  rewrite bind_run.
  match goal with |- context [run_process true ?a (w_clone w) c t] =>
    remember (run_process true a (w_clone w) c t) as r1 eqn:E1;
    pose proof (run_process_res true a (w_clone w) c t) as H1;
    rewrite <- E1 in H1; clear E1
  end.
  destruct H1 as [(r & E & H)|[(rc & E & _)|[E|[E|E]]]];
    rewrite E; rewrite ?res_mk; try discriminate.
  rewrite (H eq_refl). change (negb (0 =? 0)%Z) with false. cbv iota.
  rewrite bind_run, ret_run, ?res_mk, ?fin_mk, ?evs_mk.
  rewrite bind_run.
  match goal with |- context [run_process true ?a (w_set w) c ?t1] =>
    remember (run_process true a (w_set w) c t1) as r2 eqn:E2;
    pose proof (run_process_res true a (w_set w) c t1) as H2;
    rewrite <- E2 in H2; clear E2
  end.
  destruct H2 as [(r' & E' & H')|[(rc & E' & _)|[E'|[E'|E']]]];
    rewrite E'; rewrite ?res_mk; try discriminate.
  rewrite (H' eq_refl). change (negb (0 =? 0)%Z) with false. cbv iota.
  rewrite bind_run, ret_run, ?res_mk, ?fin_mk.
  rewrite ret_run, res_mk. discriminate.
Qed.

Lemma provision_fails config w c t rc t1 :
  rc <> 0%Z ->
  returns (w_clone w) c t rc t1
  \/ (exists t0, returns (w_clone w) c t 0 t0 /\ returns (w_set w) c t0 rc t1) ->
  res (provision_tart_vm config w c t) = Raise (CalledProcessError rc)
  /\ fin (provision_tart_vm config w c t) = t1.
Proof.
  intros Hrc H. apply Z.eqb_neq in Hrc.
  unfold provision_tart_vm. cbv zeta.
  rewrite bind_run, log_run, ?res_mk, ?fin_mk, ?evs_mk.
  rewrite bind_run.
  destruct H as [H | (t0 & H0 & H1)].
  - match goal with |- context [run_process true ?a (w_clone w) c t] =>
      destruct (run_process_returns true a H) as [out ->]
    end.
    rewrite ?res_mk, ?fin_mk, ?evs_mk. rewrite Hrc. cbn [andb negb].
    rewrite ?res_mk, ?fin_mk. split; reflexivity.
  - match goal with |- context [run_process true ?a (w_clone w) c t] =>
      destruct (run_process_returns true a H0) as [out ->]
    end.
    rewrite ?res_mk, ?fin_mk, ?evs_mk.
    change (true && negb (0 =? 0)%Z) with false. cbv iota.
    rewrite ?res_mk, ?fin_mk, ?evs_mk.
    change (negb (returncode (MkCompleted 0 out) =? 0)%Z) with false. cbv iota.
    rewrite bind_run, ret_run, ?res_mk, ?fin_mk, ?evs_mk.
    rewrite bind_run.
    match goal with |- context [run_process true ?a (w_set w) c t0] =>
      destruct (run_process_returns true a H1) as [out' ->]
    end.
    rewrite ?res_mk, ?fin_mk, ?evs_mk. rewrite Hrc. cbn [andb negb].
    rewrite ?res_mk, ?fin_mk. split; reflexivity.
Qed.

(** C2.  When the clone command, or the configure command after it, exits
    with a non-zero status, the lifecycle attempt ends with
    [CalledProcessError]: the supervisor's handler catches it, counts a
    failure and backs off, and the loop goes on (it is left only when the
    supervisor is shut down).  Nothing ends the process: the turn never
    raises [SystemExit], and the [sys.exit(1)] branches of the provisioning
    are never reached. *)
Theorem provisioning_failure_is_a_lifecycle_failure config w retries c t rc t1 :
  rc <> 0%Z ->
  returns (w_clone w) c t rc t1
  \/ (exists t0, returns (w_clone w) c t 0 t0 /\ returns (w_set w) c t0 rc t1) ->
  counted_as_failure config w retries c t (CalledProcessError rc)
  /\ fin (runner config w c t) = t1
  /\ (forall code, res (iteration config w retries c t) <> Raise (SystemExit code))
  /\ (forall c' t' code,
        res (provision_tart_vm config w c' t') <> Raise (SystemExit code)).
Proof.
  intros Hrc H.
  destruct (@provision_fails config w c t rc t1 Hrc H) as [Hp Hf].
  assert (Hr : res (runner config w c t) = Raise (CalledProcessError rc)
               /\ fin (runner config w c t) = t1).
  { rewrite runner_lifecycle. unfold lifecycle. rewrite Hp. split; [reflexivity|].
    exact Hf. }
  destruct Hr as [Hr Hrf].
  pose proof (@failure_is_counted config w retries c t _ Hr eq_refl) as Hcount.
  split; [assumption|]. split; [assumption|]. split.
  - intros code. destruct Hcount as (_ & _ & _ & [E|E] & _); rewrite E; discriminate.
  - intros c' t' code. apply provision_never_exits.
Qed.

Lemma provisioning_failure_is_a_lifecycle_failure_witness :
  counted_as_failure sample_config (with_set (exits 1 1 []) sample_world)
                     0 None 0 (CalledProcessError 1)
  /\ (forall code,
        res (iteration sample_config (with_set (exits 1 1 []) sample_world)
                       0 None 0) <> Raise (SystemExit code)).
Proof.
  destruct (@provisioning_failure_is_a_lifecycle_failure
              sample_config (with_set (exits 1 1 []) sample_world) 0 None 0 1%Z 2)
    as (H1 & _ & H3 & _).
  - discriminate.
  - right. exists 1. split.
    + exists [], 1. repeat split; try reflexivity. discriminate.
    + exists [], 1. repeat split; try reflexivity. discriminate.
  - split; assumption.
Defined.


(** ** How often a VM is deleted *)

Lemma deletions_app (l l' : list tevent) :
  deletions (l ++ l') = deletions l + deletions l'.
Proof. unfold deletions. rewrite filter_app, List.length_app. reflexivity. Qed.

Lemma deletions_none (l : list tevent) :
  Forall (fun te => is_delete (snd te) = false) l -> deletions l = 0.
Proof.
  unfold deletions. induction 1 as [|te l H _ IH]; [reflexivity|].
  simpl. rewrite H. assumption.
Qed.

Lemma not_delete_commands (a b : text) (rest : list text) :
  In b [txt "clone"; txt "set"; txt "run"; txt "ip"; txt "-i"] ->
  negb (is_delete (EvSpawn (a :: b :: rest))) = true.
Proof.
  intros [<-|[<-|[<-|[<-|[<-|[]]]]]]; reflexivity.
Qed.

Lemma provision_no_delete config w :
  acts (fun _ te => is_delete (snd te) = false) (provision_tart_vm config w).
Proof.
  apply acts_provision_tart_vm
    with (known := fun argv => negb (is_delete (EvSpawn argv))).
  - reflexivity.
  - apply not_delete_commands.
  - intros argv H. apply acts_checked_always. intros c0 t0.
    cbn [snd]. apply negb_true_iff. exact H.
Qed.

Lemma subtasks_no_delete config w runner_name :
  acts (fun _ te => is_delete (snd te) = false) (subtasks config w runner_name).
Proof.
  apply acts_subtasks
    with (known := fun argv => negb (is_delete (EvSpawn argv))).
  - reflexivity.
  - reflexivity.
  - apply not_delete_commands.
  - intros argv H. apply acts_checked_always. intros c0 t0.
    cbn [snd]. apply negb_true_iff. exact H.
  - intros; apply acts_checked_always; reflexivity.
  - intros; assumption.
Qed.

Lemma cleanup_deletes_once w runner_name t :
  deletions (evs (cleanup_outcome w runner_name t)) = 1.
Proof.
  unfold cleanup_outcome.
  destruct (p_end (w_delete w)) as [r|];
    [destruct (p_dur (w_delete w)) as [d|]; [destruct (d <=? 5)|]|];
    reflexivity.
Qed.

(** A lifecycle whose provisioning has returned and whose subtasks are over
    starts the delete command exactly once; one that did not get that far
    never starts it. *)
Lemma deletions_of_a_lifecycle config w c t :
  deletions (evs (runner config w c t)) =
  match res (provision_tart_vm config w c t) with
  | Ret name =>
      match res (subtasks config w name c
                          (fin (provision_tart_vm config w c t))) with
      | Hang => 0
      | _ => 1
      end
  | _ => 0
  end.
Proof.
  rewrite runner_lifecycle. unfold lifecycle.
  pose proof (provision_no_delete config w c t) as Hp.
  apply deletions_none in Hp.
  remember (provision_tart_vm config w c t) as p eqn:Ep. clear Ep.
  destruct (res p) as [name| |]; cbn [evs]; try assumption.
  pose proof (subtasks_no_delete config w name c (fin p)) as Hn.
  apply deletions_none in Hn. cbv zeta.
  remember (subtasks config w name c (fin p)) as n eqn:En. clear En.
  destruct (res n); cbn [evs]; rewrite !deletions_app, ?cleanup_deletes_once; lia.
Qed.

(** C1, at the input on which the code departs from it.  The clone command
    succeeds, so the VM exists; the configure command exits with 1.  The
    lifecycle ends with [CalledProcessError] and the delete command is never
    started: [provision_tart_vm] is called before the [try] of [runner],
    whose [finally] is the only place that deletes. *)
Theorem configure_failure_leaks_the_vm :
  let w := with_set (exits 1 1 []) sample_world in
  returns (w_clone w) None 0 0 1
  /\ In (0, EvSpawn [txt "tart"; txt "clone"; base_image sample_config; sample_name])
        (evs (runner sample_config w None 0))
  /\ res (runner sample_config w None 0) = Raise (CalledProcessError 1)
  /\ deletions (evs (runner sample_config w None 0)) = 0.
Proof.
  cbv zeta. split.
  - exists [], 1. repeat split; try reflexivity. discriminate.
  - split; [vm_compute; right; left; reflexivity|].
    split; vm_compute; reflexivity.
Qed.

(** ** The backoff delays *)

Lemma failures_since_success_app b l1 l2 :
  failures_since_success b (l1 ++ l2)
  = failures_since_success (failures_since_success b l1) l2.
Proof.
  revert b. induction l1 as [|e l1 IH]; intros b; [reflexivity|].
  destruct e; cbn [app failures_since_success]; apply IH.
Qed.

Lemma backoff_ok_app b l1 l2 :
  backoff_ok b (l1 ++ l2)
  <-> backoff_ok b l1 /\ backoff_ok (failures_since_success b l1) l2.
Proof.
  revert b. induction l1 as [|e l1 IH]; intros b.
  - cbn [app backoff_ok failures_since_success]. tauto.
  - destruct e; cbn [app backoff_ok failures_since_success]; rewrite ?IH; tauto.
Qed.

Lemma quiet_actions b (l : list tevent) :
  Forall (fun te => is_supervisor_event (snd te) = false) l ->
  failures_since_success b (map snd l) = b /\ backoff_ok b (map snd l).
Proof.
  induction 1 as [|[t e] l He _ IH]; [split; [reflexivity | exact I]|].
  cbn [map snd] in *.
  destruct e; try discriminate He; cbn [failures_since_success backoff_ok];
    exact IH.
Qed.

Lemma runner_no_supervisor_event config w :
  acts (fun _ te => is_supervisor_event (snd te) = false) (runner config w).
Proof.
  apply acts_runner with (known := fun _ => true); intros;
    first [reflexivity | assumption | apply acts_checked_always; reflexivity].
Qed.

(** One turn keeps the discipline, and the counter it hands on is the
    number of failures since the last success. *)
Lemma iteration_backoff config w retries c t :
  backoff_ok retries (map snd (evs (iteration config w retries c t)))
  /\ (forall r', res (iteration config w retries c t) = Ret r' ->
                 failures_since_success
                   retries (map snd (evs (iteration config w retries c t))) = r').
Proof.
  pose proof (runner_no_supervisor_event config w c t) as Hq.
  destruct (quiet_actions retries Hq) as [H1 H2]. clear Hq.
  unfold tevent in *.
  destruct (res (runner config w c t)) as [[]|e|] eqn:E.
  - rewrite (iteration_returned config w retries c t E).
    rewrite res_mk, evs_mk, map_app.
    split.
    + apply backoff_ok_app. split; [exact H2|]. unfold tevent; rewrite H1. exact I.
    + intros r' [= <-]. rewrite failures_since_success_app; unfold tevent; rewrite H1. reflexivity.
  - destruct (is_Exception e) eqn:He.
    + rewrite (iteration_failed config w retries c t E He).
      rewrite res_mk, evs_mk, map_app.
      rewrite on_failure_run, res_mk, evs_mk, sleep_run.
      replace (retries + 1) with (S retries) by lia.
      destruct (cancelled_at c (fin (runner config w c t)));
        rewrite ?res_mk, ?evs_mk; cbn [map snd].
      * split.
        -- apply backoff_ok_app. split; [exact H2|]. unfold tevent; rewrite H1. exact I.
        -- intros r' [=].
      * split.
        -- apply backoff_ok_app. split; [exact H2|]. unfold tevent; rewrite H1.
           cbn [backoff_ok]. split; [reflexivity | exact I].
        -- intros r' Hr. rewrite failures_since_success_app; unfold tevent; rewrite H1.
           cbn [failures_since_success].
           destruct (res (block (Some (2 ^ S retries)) c (fin (runner config w c t))));
             congruence.
    + rewrite (iteration_escaped config w retries c t E He).
      rewrite res_mk, evs_mk.
      split; [exact H2 | intros r' [=]].
  - rewrite (iteration_hang config w retries c t E).
    rewrite res_mk, evs_mk.
    split; [exact H2 | intros r' [=]].
Qed.

Lemma supervise_backoff config ws :
  forall retries c t,
    backoff_ok retries (map snd (evs (supervise config ws retries c t))).
Proof.
  induction ws as [|w ws IH]; intros retries c t.
  - exact I.
  - cbn [supervise]. rewrite bind_run.
    destruct (iteration_backoff config w retries c t) as [H1 H2].
    destruct (res (iteration config w retries c t)) as [r'| |] eqn:E;
      rewrite evs_mk; try exact H1.
    rewrite map_app. apply backoff_ok_app. split; [exact H1|].
    specialize (H2 r' eq_refl). unfold tevent in *. rewrite H2. apply IH.
Qed.

Lemma backoff_ok_sleep b pre d post :
  backoff_ok b (pre ++ EvSleep d :: post) ->
  d = 2 ^ failures_since_success b pre.
Proof.
  intros H. apply backoff_ok_app in H. destruct H as [_ H].
  cbn [backoff_ok] in H. apply H.
Qed.

(** X1.  In every run of the supervisor's loop, with or without a
    shutdown, each backoff sleep lasts 2 to the number of lifecycles that
    have failed since the last one that returned (counting from the value
    the loop was started with): 2, 4, 8, ... on a run of failures, and 2
    again on the first failure after a success. *)
Theorem backoff_delays_double_and_reset config ws retries c t pre ts d post :
  evs (supervise config ws retries c t) = pre ++ (ts, EvSleep d) :: post ->
  d = 2 ^ failures_since_success retries (map snd pre).
Proof.
  intros E.
  pose proof (supervise_backoff config ws retries c t) as H.
  rewrite E, map_app in H. cbn [map snd] in H.
  apply backoff_ok_sleep in H. exact H.
Qed.

Lemma backoff_delays_double_and_reset_witness :
  4 = 2 ^ failures_since_success
            0 (map snd (firstn 13
                          (evs (keep_one_runner_running
                                  sample_config
                                  [with_clone (exits 1 1 []) sample_world;
                                   with_clone (exits 1 1 []) sample_world]
                                  None 0)))).
Proof.
  apply (@backoff_delays_double_and_reset
           sample_config
           [with_clone (exits 1 1 []) sample_world;
            with_clone (exits 1 1 []) sample_world] 0 None 0
           _ 4 4 []).
  vm_compute. reflexivity.
Defined.

(** *** The discipline of the backoff *)






(** ** What the program can raise *)

Section Raises.
Variable Q : option nat -> exn -> Prop.
Hypothesis Q_exception : forall c e, is_Exception e = true -> Q c e.
Hypothesis Q_cancelled : forall tc, Q (Some tc) Cancelled.
Hypothesis Q_group :
  forall tc e, Q (Some tc) e -> e <> Cancelled -> (forall x, e <> Group x) ->
               Q (Some tc) (Group e).

Lemma cancelled_at_some c t : cancelled_at c t = true -> exists tc, c = Some tc.
Proof. destruct c as [tc|]; [eauto | discriminate]. Qed.

Lemma raises_ret {A} (a : A) : raises Q (ret a).
Proof. intros c t e; rewrite ret_run, res_mk; discriminate. Qed.

Lemma raises_emit ev : raises Q (emit ev).
Proof. intros c t e; rewrite emit_run, res_mk; discriminate. Qed.

Lemma raises_log data : raises Q (log data).
Proof. apply raises_emit. Qed.

Lemma raises_current_time : raises Q current_time.
Proof. intros c t e. unfold current_time. rewrite res_mk. discriminate. Qed.

Lemma raises_raise {A} (e : exn) : (forall c, Q c e) -> raises Q (@raise A e).
Proof. intros H c t e'. rewrite raise_run, res_mk. intros [= <-]. apply H. Qed.

Lemma raises_checkpoint : raises Q checkpoint.
Proof.
  intros c t e. unfold checkpoint.
  destruct c as [tc|]; cbn [cancelled_at].
  - destruct (tc <=? t); rewrite res_mk; [|discriminate].
    intros [= <-]. apply Q_cancelled.
  - rewrite res_mk. discriminate.
Qed.

Lemma raises_block d : raises Q (block d).
Proof.
  intros c t e. unfold block.
  destruct c as [tc|], d as [n|]; try destruct (t + n <=? tc);
    rewrite res_mk; try discriminate; intros [= <-]; apply Q_cancelled.
Qed.

Lemma raises_wait_process p : raises Q (wait_process p).
Proof.
  intros c t e. unfold wait_process. cbv zeta.
  pose proof (@raises_block (p_dur p) c t) as H.
  destruct (block_res (p_dur p) c t) as [E|[E|E]]; rewrite E.
  - rewrite E. discriminate.
  - rewrite res_mk. intros [= <-]. apply H. exact E.
  - rewrite E. discriminate.
Qed.

Lemma raises_with_process dur dies (reader : M unit) :
  raises Q reader -> raises Q (with_process dur dies reader).
Proof.
  intros Hr c t e. unfold with_process. cbv zeta.
  specialize (Hr c t).
  destruct (res (reader c t)) as [a|e0|] eqn:E.
  - rewrite E. discriminate.
  - rewrite res_mk. specialize (Hr e0 eq_refl).
    destruct e0; try (intros [= <-]; exact Hr);
      (destruct (cancelled_at c _) eqn:Ec; intros [= <-]; [|exact Hr]);
      apply cancelled_at_some in Ec; destruct Ec as [tc ->];
      (apply Q_group; [exact Hr | discriminate | intros x; discriminate]).
  - rewrite E. discriminate.
Qed.

Lemma raises_bind {A B} (m : M A) (k : A -> M B) :
  raises Q m -> (forall a, raises Q (k a)) -> raises Q (bind m k).
Proof.
  intros Hm Hk c t e. rewrite bind_run.
  specialize (Hm c t).
  destruct (res (m c t)) as [a|e'|]; rewrite res_mk.
  - apply Hk.
  - intros [= <-]. apply Hm. reflexivity.
  - discriminate.
Qed.

Lemma raises_try_except {A} (m : M A) (h : exn -> option (M A)) :
  raises Q m -> (forall e k, h e = Some k -> raises Q k) ->
  raises Q (try_except m h).
Proof.
  intros Hm Hh c t e. rewrite try_except_run.
  specialize (Hm c t).
  destruct (res (m c t)) as [a|e'|] eqn:E.
  - rewrite E. discriminate.
  - destruct (h e') as [k|] eqn:Ek.
    + rewrite res_mk. apply (Hh _ _ Ek).
    + rewrite E. intros [= <-]. apply Hm. reflexivity.
  - rewrite E. discriminate.
Qed.

Lemma try_finally_run {A} (m : M A) (f : M unit) c t :
  try_finally m f c t =
  match res (m c t) with
  | Hang => m c t
  | _ =>
      MkRun (match res (f c (fin (m c t))) with
             | Ret _ => res (m c t)
             | Raise e => Raise e
             | Hang => Hang
             end) (fin (f c (fin (m c t))))
            (evs (m c t) ++ evs (f c (fin (m c t))))
  end.
Proof. unfold try_finally. destruct (res (m c t)); reflexivity. Qed.

Lemma raises_try_finally {A} (m : M A) (f : M unit) :
  raises Q m -> raises Q f -> raises Q (try_finally m f).
Proof.
  intros Hm Hf c t e. rewrite try_finally_run.
  specialize (Hm c t). specialize (Hf c (fin (m c t))).
  destruct (res (m c t)) as [a|e'|] eqn:E.
  - rewrite res_mk.
    destruct (res (f c (fin (m c t)))) as [[]|e''|]; try discriminate.
    intros [= <-]. apply Hf. reflexivity.
  - rewrite res_mk.
    destruct (res (f c (fin (m c t)))) as [[]|e''|]; try discriminate.
    + intros [= <-]. apply Hm. reflexivity.
    + intros [= <-]. apply Hf. reflexivity.
  - rewrite E. discriminate.
Qed.

Lemma raises_checked ev : raises Q (checked ev).
Proof.
  apply raises_bind; [apply raises_checkpoint | intro; apply raises_emit].
Qed.

Lemma raises_sleep secs : raises Q (sleep secs).
Proof.
  apply raises_bind; [apply raises_checked | intro; apply raises_block].
Qed.

Lemma raises_run_process check argv p : raises Q (run_process check argv p).
Proof.
  unfold run_process. apply raises_bind; [apply raises_checked | intro].
  destruct (p_end p) as [r|].
  - apply raises_bind; [apply raises_wait_process | intro].
    destruct (check && negb (returncode r =? 0)%Z).
    + apply raises_raise. intros c. apply Q_exception. reflexivity.
    + apply raises_ret.
  - apply raises_raise. intros c. apply Q_exception. reflexivity.
Qed.

Lemma raises_post url bearer h : raises Q (post url bearer h).
Proof.
  unfold post. apply raises_bind; [apply raises_checked | intro].
  apply raises_bind; [apply raises_block | intro].
  destruct (h_end h).
  - apply raises_ret.
  - apply raises_raise. intros c. apply Q_exception. reflexivity.
Qed.

Lemma raises_subscript d key : raises Q (subscript d key).
Proof.
  unfold subscript. destruct (getitem key d).
  - apply raises_ret.
  - apply raises_raise. intros c. apply Q_exception. reflexivity.
Qed.

Ltac raises_fun :=
  repeat first
    [ apply raises_log | apply raises_run_process | apply raises_post
    | apply raises_subscript | apply raises_sleep
    | apply raises_bind; [|intro]
    | apply raises_ret | apply raises_emit | apply raises_block
    | apply raises_checked
    | assumption ].

Lemma raises_get_registration_token config w :
  raises Q (get_registration_token config w).
Proof. unfold get_registration_token, generate_jwt; raises_fun. Qed.

Lemma raises_get_tart_ip_loop ip runner_name fuel :
  forall attempts, raises Q (get_tart_ip_loop ip runner_name attempts fuel).
Proof.
  induction fuel as [|fuel IH]; intros attempts; cbn [get_tart_ip_loop].
  - apply raises_ret.
  - apply raises_try_except.
    + raises_fun.
    + intros e k Hk. destruct e; try discriminate.
      injection Hk as <-. apply IH.
Qed.

Lemma raises_get_tart_ip ip runner_name retries :
  raises Q (get_tart_ip ip runner_name retries).
Proof.
  unfold get_tart_ip. apply raises_bind; [apply raises_get_tart_ip_loop|].
  intros [r|].
  - destruct (decode_ascii (stdout r)).
    + apply raises_ret.
    + apply raises_raise. intros c. apply Q_exception. reflexivity.
  - apply raises_raise. intros c. apply Q_exception. reflexivity.
Qed.

Lemma raises_scp_actions_runner config w ip :
  raises Q (scp_actions_runner config w ip).
Proof. unfold scp_actions_runner; raises_fun. Qed.

Lemma raises_log_output chunks runner_name :
  forall pending, raises Q (log_output pending chunks runner_name).
Proof.
  induction chunks as [|[d b] chunks IH]; intros pending; cbn [log_output].
  - apply raises_ret.
  - apply raises_bind; [apply raises_block | intro].
    destruct (utf8_decode (pending ++ b)).
    + apply raises_bind; [apply raises_log | intro; apply IH].
    + apply raises_raise. intros c. apply Q_exception. reflexivity.
Qed.

Lemma raises_launch_runner config w runner_name ip token :
  raises Q (launch_runner config w runner_name ip token).
Proof.
  unfold launch_runner. apply raises_bind; [apply raises_checked | intro].
  destruct (a_start (w_ssh w)).
  - apply raises_with_process.
    apply raises_bind; [apply raises_log_output | intro; apply raises_block].
  - apply raises_raise. intros c. apply Q_exception. reflexivity.
Qed.

Lemma raises_execution_session config w runner_name :
  raises Q (execution_session config w runner_name).
Proof.
  unfold execution_session.
  apply raises_bind; [apply raises_get_tart_ip | intro].
  apply raises_bind; [apply raises_scp_actions_runner | intro].
  apply raises_bind; [apply raises_get_registration_token | intro].
  apply raises_bind; [apply raises_log | intro].
  apply raises_launch_runner.
Qed.

Lemma raises_run_runner_then_cancel config w runner_name :
  raises Q (run_runner_then_cancel config w runner_name).
Proof.
  unfold run_runner_then_cancel.
  apply raises_try_finally; [apply raises_execution_session | apply raises_emit].
Qed.

Lemma raises_run_vm_then_cancel w runner_name :
  raises Q (run_vm_then_cancel w runner_name).
Proof.
  unfold run_vm_then_cancel, vm_process.
  apply raises_try_finally; [|apply raises_emit].
  apply raises_bind; [apply raises_run_process | intro; apply raises_ret].
Qed.

Lemma raises_cleanup w runner_name : raises Q (cleanup w runner_name).
Proof.
  intros c t e. rewrite cleanup_run. unfold cleanup_outcome. cbv zeta.
  destruct (p_end (w_delete w)) as [r|].
  - destruct (p_dur (w_delete w)) as [d|].
    + destruct (d <=? 5); rewrite res_mk; [|discriminate].
      destruct (returncode r =? 0)%Z; [discriminate|].
      intros [= <-]. apply Q_exception. reflexivity.
    + rewrite res_mk. discriminate.
  - rewrite res_mk. intros [= <-]. apply Q_exception. reflexivity.
Qed.
End Raises.

(** What leaves a nursery is what a child has raised, unless the
    nursery's scope absorbs it: a [Cancelled] is absorbed, alone or out of
    a group, unless the cancellation of the scopes around is visible. *)
Lemma absorb_raise (r : result unit) sc pc e :
  absorb sc pc r = Raise e ->
  (r = Raise e /\ (forall x, e <> Group x)
   /\ (e = Cancelled -> sc = false \/ pc = true))
  \/ (r = Raise (Group e) /\ sc = true /\ pc = false)
  \/ (exists x, r = Raise (Group x) /\ e = Cancelled
                 /\ (sc = false \/ pc = true)).
Proof.
  intros H. destruct r as [[]|x|]; cbn [absorb] in H; try discriminate.
  destruct x;
    try (injection H as <-; left; split; [reflexivity|];
         split; [intros x; discriminate | discriminate]).
  - destruct sc, pc; cbn [andb negb] in H; try discriminate;
      injection H as <-; left; (split; [reflexivity|]);
      (split; [intros x; discriminate | auto]).
  - destruct sc, pc; cbn [andb negb] in H; injection H as <-;
      first [ right; left; split; [reflexivity | split; reflexivity]
            | right; right; eexists; split; [reflexivity|]; split; auto ].
Qed.

Lemma join_raise (r1 r2 : result unit) e :
  join r1 r2 = Raise e -> r1 = Raise e \/ r2 = Raise e.
Proof.
  destruct r1 as [[]|e1|], r2 as [[]|e2|]; cbn [join]; try discriminate; auto.
  destruct (is_Exception e1 && negb (is_Exception e2)); auto.
Qed.

Section Nursery_raises.
Variable Q : option nat -> exn -> Prop.
Hypothesis Q_exception : forall c e, is_Exception e = true -> Q c e.
Hypothesis Q_cancelled : forall tc, Q (Some tc) Cancelled.
Hypothesis Q_mono :
  forall tc c e, e <> Cancelled -> Q (omin (Some tc) c) e -> Q c e.

Lemma inside_exception c e : is_Exception e = true -> inside Q c e.
Proof.
  intros H. destruct e; try discriminate H; cbn [inside]; apply Q_exception;
    reflexivity.
Qed.

Lemma inside_cancelled tc : inside Q (Some tc) Cancelled.
Proof. apply Q_cancelled. Qed.

Lemma inside_group tc e :
  inside Q (Some tc) e -> e <> Cancelled -> (forall x, e <> Group x) ->
  inside Q (Some tc) (Group e).
Proof.
  intros H Hc Hg. cbn [inside].
  split; [|split; [discriminate | split; assumption]].
  destruct e; try exact H. exfalso. exact (Hg e eq_refl).
Qed.

Lemma inside_plain c e : (forall x, e <> Group x) -> inside Q c e -> Q c e.
Proof.
  intros Hg H. destruct e; try exact H. exfalso. exact (Hg e eq_refl).
Qed.

(** What a child has raised, seen from outside the nursery; [cc] is the
    cancellation the child ran under, [c] that of the nursery. *)
Lemma nursery_child_raise (r : result unit) cc c sc pc e :
  (forall x, r = Raise x -> inside Q cc x) ->
  (forall x, x <> Cancelled -> Q cc x -> Q c x) ->
  (pc = true -> exists tc, c = Some tc) ->
  (sc = false -> cc = c) ->
  absorb sc pc r = Raise e -> Q c e.
Proof.
  intros Hr Hm Hpc Hsc H.
  apply absorb_raise in H.
  destruct H as [(-> & Hg & Hc)|[(-> & -> & ->)|(x & -> & -> & Hc)]].
  - specialize (Hr e eq_refl). apply inside_plain in Hr; [|exact Hg].
    destruct e; try (apply Hm; [discriminate | exact Hr]).
    destruct (Hc eq_refl) as [F|F].
    + rewrite <- (Hsc F). exact Hr.
    + destruct (Hpc F) as [tc ->]. apply Q_cancelled.
  - specialize (Hr (Group e) eq_refl). cbn [inside] in Hr.
    destruct Hr as (Hq & _ & Hne & _). apply Hm; assumption.
  - specialize (Hr (Group x) eq_refl). cbn [inside] in Hr.
    destruct Hr as (_ & Hcc & _).
    destruct Hc as [F|F].
    + rewrite (Hsc F) in Hcc. destruct c as [tc|]; [apply Q_cancelled|].
      contradiction Hcc; reflexivity.
    + destruct (Hpc F) as [tc ->]. apply Q_cancelled.
Qed.

Lemma raises_nursery2 (a b : M unit) :
  raises (inside Q) a -> raises (inside Q) b -> raises Q (nursery2 a b).
Proof.
  intros Ha Hb c t e. unfold nursery2, nursery_exit. cbv zeta.
  assert (Hpc : forall t', cancelled_at c t' = true -> exists tc, c = Some tc).
  { intros t'. apply cancelled_at_some. }
  assert (Hsame : forall x, x <> Cancelled -> Q c x -> Q c x) by auto.
  assert (Htf : forall tc, true = false -> omin (Some tc) c = c)
    by (intros tc F; discriminate F).
  destruct (scope_cancel (a c t) (b c t)) as [tc|].
  - destruct (cancels_first (a c t) (b c t)); rewrite res_mk; intros H;
      apply join_raise in H; destruct H as [H|H].
    + apply (@nursery_child_raise _ c c _ _ e (fun x => Ha c t x) Hsame
               (Hpc _) (fun _ => eq_refl) H).
    + apply (@nursery_child_raise _ (omin (Some tc) c) c _ _ e
               (fun x => Hb (omin (Some tc) c) t x) (Q_mono tc c) (Hpc _)
               (Htf tc) H).
    + apply (@nursery_child_raise _ c c _ _ e (fun x => Hb c t x) Hsame
               (Hpc _) (fun _ => eq_refl) H).
    + apply (@nursery_child_raise _ (omin (Some tc) c) c _ _ e
               (fun x => Ha (omin (Some tc) c) t x) (Q_mono tc c) (Hpc _)
               (Htf tc) H).
  - rewrite res_mk; intros H. apply join_raise in H; destruct H as [H|H].
    + apply (@nursery_child_raise _ c c _ _ e (fun x => Ha c t x) Hsame
               (Hpc _) (fun _ => eq_refl) H).
    + apply (@nursery_child_raise _ c c _ _ e (fun x => Hb c t x) Hsame
               (Hpc _) (fun _ => eq_refl) H).
Qed.

Lemma raises_subtasks config w runner_name :
  raises Q (subtasks config w runner_name).
Proof.
  apply raises_nursery2.
  - apply raises_run_vm_then_cancel;
      first [apply inside_exception | apply inside_cancelled].
  - apply raises_run_runner_then_cancel;
      first [apply inside_exception | apply inside_cancelled | apply inside_group].
Qed.
End Nursery_raises.

Lemma allowed_exception c e : is_Exception e = true -> allowed c e.
Proof.
  intros H. split; [|split].
  - intros code ->. discriminate H.
  - intros _ ->. discriminate H.
  - intros x ->. discriminate H.
Qed.

Lemma allowed_cancelled tc : allowed (Some tc) Cancelled.
Proof. split; [discriminate | split; [intros [=] | discriminate]]. Qed.

Lemma allowed_mono tc c e :
  e <> Cancelled -> allowed (omin (Some tc) c) e -> allowed c e.
Proof.
  intros Hne (H & _ & Hg). split; [exact H | split; [intros _; exact Hne | exact Hg]].
Qed.

Lemma provision_cancelled_only_in_scope config w :
  raises cancelled_only_in_scope (provision_tart_vm config w).
Proof.
  assert (Hx : forall c e, is_Exception e = true -> cancelled_only_in_scope c e).
  { intros c e H _ ->. discriminate H. }
  assert (Hc : forall tc, cancelled_only_in_scope (Some tc) Cancelled).
  { intros tc [=]. }
  unfold provision_tart_vm. cbv zeta.
  apply raises_bind; [apply raises_log | intro].
  apply raises_bind; [apply raises_run_process; assumption | intros r1].
  apply raises_bind.
  { destruct (negb (returncode r1 =? 0)%Z).
    - apply raises_bind; [apply raises_log | intro].
      apply raises_raise. intros c _. discriminate.
    - apply raises_ret. }
  intro.
  apply raises_bind; [apply raises_run_process; assumption | intros r2].
  apply raises_bind; [|intro; apply raises_ret].
  destruct (negb (returncode r2 =? 0)%Z).
  - apply raises_bind; [apply raises_log | intro].
    apply raises_raise. intros c _. discriminate.
  - apply raises_ret.
Qed.

Lemma provision_no_group config w c t x :
  res (provision_tart_vm config w c t) <> Raise (Group x).
Proof.
  assert (H : raises (fun _ e => forall y, e <> Group y)
                     (provision_tart_vm config w)).
  { assert (Hx : forall (c : option nat) e,
               is_Exception e = true -> forall y, e <> Group y).
    { intros _ e H y ->. discriminate H. }
    assert (Hc : forall tc : nat, forall y, Cancelled <> Group y).
    { intros _ y. discriminate. }
    unfold provision_tart_vm. cbv zeta.
    apply raises_bind; [apply raises_log | intro].
    apply raises_bind; [apply raises_run_process; assumption | intros r1].
    apply raises_bind.
    { destruct (negb (returncode r1 =? 0)%Z).
      - apply raises_bind; [apply raises_log | intro].
        apply raises_raise. intros _ y. discriminate.
      - apply raises_ret. }
    intro.
    apply raises_bind; [apply raises_run_process; assumption | intros r2].
    apply raises_bind; [|intro; apply raises_ret].
    destruct (negb (returncode r2 =? 0)%Z).
    - apply raises_bind; [apply raises_log | intro].
      apply raises_raise. intros _ y. discriminate.
    - apply raises_ret. }
  intros E. exact (H c t _ E x eq_refl).
Qed.

Lemma raises_allowed_provision config w :
  raises allowed (provision_tart_vm config w).
Proof.
  intros c t e H. split; [|split].
  - intros code ->. exact (@provision_never_exits config w c t code H).
  - exact (@provision_cancelled_only_in_scope config w c t e H).
  - intros x ->. exact (@provision_no_group config w c t x H).
Qed.

(** A lifecycle never raises [SystemExit], and it raises [Cancelled] only
    when the scope around it gets cancelled. *)
Lemma raises_allowed_runner config w : raises allowed (runner config w).
Proof.
  unfold runner.
  apply raises_bind; [apply raises_allowed_provision | intro name].
  apply raises_try_finally.
  - apply raises_subtasks;
      [apply allowed_exception | apply allowed_cancelled | apply allowed_mono].
  - apply raises_cleanup. apply allowed_exception.
Qed.

Lemma not_exception_allowed c e :
  is_Exception e = false -> allowed c e -> e = Cancelled /\ c <> None.
Proof.
  intros He (H1 & H2 & H3). destruct e; try discriminate He.
  - split; [reflexivity|]. intros Hc. exact (H2 Hc eq_refl).
  - exfalso. exact (H1 code eq_refl).
  - exfalso. exact (H3 e eq_refl).
Qed.

Lemma iteration_raises config w retries c t e :
  res (iteration config w retries c t) = Raise e -> e = Cancelled /\ c <> None.
Proof.
  pose proof (@raises_allowed_runner config w c t) as Ha.
  destruct (res (runner config w c t)) as [[]|e'|] eqn:E.
  - rewrite (iteration_returned config w retries c t E), res_mk. discriminate.
  - destruct (is_Exception e') eqn:He.
    + rewrite (iteration_failed config w retries c t E He), res_mk.
      destruct (on_failure_facts e' retries c (fin (runner config w c t)))
        as (_ & [H|H] & _ & H4); rewrite H; [discriminate|].
      intros [= <-]. split; [reflexivity|].
      intros Hc. destruct (H4 Hc) as [H' _]. rewrite H' in H. discriminate H.
    + rewrite (iteration_escaped config w retries c t E He), res_mk.
      intros [= <-]. apply not_exception_allowed; [exact He|].
      apply Ha. reflexivity.
  - rewrite (iteration_hang config w retries c t E), res_mk. discriminate.
Qed.

(** X2.  The loop of a slot supervisor is left by nothing but the
    cancellation of the scope around it: whatever fails in a lifecycle
    (provisioning, address resolution, copying, the credential exchange, the
    agent, the delete command), the exception is caught in the loop, and
    without a shutdown the supervisor never stops. *)
Theorem supervisor_is_left_only_by_cancellation config ws retries c t e :
  res (supervise config ws retries c t) = Raise e ->
  e = Cancelled /\ c <> None.
Proof.
  revert retries t.
  induction ws as [|w ws IH]; intros retries t.
  - cbn [supervise]. rewrite ret_run, res_mk. discriminate.
  - cbn [supervise]. rewrite bind_run.
    pose proof (@iteration_raises config w retries c t) as Hi.
    destruct (res (iteration config w retries c t)) as [r'|e'|]; rewrite res_mk.
    + apply IH.
    + intros [= <-]. apply Hi. reflexivity.
    + discriminate.
Qed.

Lemma supervisor_is_left_only_by_cancellation_witness :
  res (supervise sample_config [sample_world] 0 (Some 4) 0) = Raise Cancelled
  /\ Cancelled = Cancelled /\ Some 4 <> None.
Proof.
  assert (H : res (supervise sample_config [sample_world] 0 (Some 4) 0)
              = Raise Cancelled) by (vm_compute; reflexivity).
  split; [exact H|].
  exact (@supervisor_is_left_only_by_cancellation
           sample_config [sample_world] 0 (Some 4) 0 Cancelled H).
Defined.

(** ** Shutdown *)

Lemma run_process_cancelled check argv p c t :
  cancelled_at c t = true ->
  run_process check argv p c t = MkRun (Raise Cancelled) t [].
Proof.
  intros E. unfold run_process. rewrite bind_run, checked_run, E, res_mk.
  rewrite fin_mk, evs_mk. reflexivity.
Qed.

(** Provisioning inside a scope that is already cancelled: the name is
    logged, no process is started. *)
Lemma provision_after_shutdown config w tc t :
  tc <= t ->
  provision_tart_vm config w (Some tc) t =
  MkRun (Raise Cancelled) t [(t, EvLog (txt "Provisioning: " ++ name_of config w))].
Proof.
  intros H. unfold provision_tart_vm, name_of. cbv zeta.
  rewrite bind_run, log_run, ?res_mk, ?fin_mk, ?evs_mk.
  rewrite bind_run.
  assert (E : cancelled_at (Some tc) t = true) by (apply Nat.leb_le; exact H).
  rewrite (@run_process_cancelled true _ (w_clone w) (Some tc) t E),
    ?res_mk, ?fin_mk, ?evs_mk.
  reflexivity.
Qed.

Lemma runner_after_shutdown config w tc t :
  tc <= t ->
  runner config w (Some tc) t =
  MkRun (Raise Cancelled) t [(t, EvLog (txt "Provisioning: " ++ name_of config w))].
Proof.
  intros H. unfold runner. rewrite bind_run.
  rewrite (provision_after_shutdown config w H), ?res_mk, ?fin_mk, ?evs_mk.
  reflexivity.
Qed.

Lemma iteration_after_shutdown config w retries tc t :
  tc <= t ->
  iteration config w retries (Some tc) t =
  MkRun (Raise Cancelled) t [(t, EvLog (txt "Provisioning: " ++ name_of config w))].
Proof.
  intros H.
  assert (E : res (runner config w (Some tc) t) = Raise Cancelled).
  { rewrite (runner_after_shutdown config w H). reflexivity. }
  rewrite (iteration_escaped config w retries (Some tc) t E eq_refl).
  rewrite (runner_after_shutdown config w H), ?fin_mk, ?evs_mk. reflexivity.
Qed.

(** X3.  A supervisor that comes round to a new lifecycle when the
    shutdown has already cancelled its scope starts nothing: the turn logs
    the name it would have given the runner and ends the loop with
    [Cancelled], at once. *)
Theorem no_new_lifecycle_after_shutdown config w ws retries tc t :
  tc <= t ->
  supervise config (w :: ws) retries (Some tc) t =
  MkRun (Raise Cancelled) t [(t, EvLog (txt "Provisioning: " ++ name_of config w))].
Proof.
  intros H. cbn [supervise]. rewrite bind_run.
  rewrite (iteration_after_shutdown config w retries H), ?res_mk, ?fin_mk, ?evs_mk.
  reflexivity.
Qed.

Lemma no_new_lifecycle_after_shutdown_witness :
  3 <= 7
  /\ supervise sample_config [sample_world; sample_world] 2 (Some 3) 7 =
     MkRun (Raise Cancelled) 7
           [(7, EvLog (txt "Provisioning: " ++ name_of sample_config sample_world))].
Proof.
  split; [lia|].
  apply (@no_new_lifecycle_after_shutdown
           sample_config sample_world [sample_world] 2 3 7).
  lia.
Defined.

(** A nursery of prompt children comes to an end inside a scope that gets
    cancelled. *)
Lemma winds_down_nursery2 (a b : M unit) :
  prompt a -> prompt b -> winds_down (nursery2 a b).
Proof.
  intros Ha Hb tc t. unfold nursery2, nursery_exit. cbv zeta.
  destruct (Ha tc t) as [Ha1 _]. destruct (Hb tc t) as [Hb1 _].
  destruct (scope_cancel (a (Some tc) t) (b (Some tc) t)) as [ts|].
  - cbn [omin].
    destruct (Ha (Nat.min ts tc) t) as [Ha3 _].
    destruct (Hb (Nat.min ts tc) t) as [Hb3 _].
    destruct (cancels_first (a (Some tc) t) (b (Some tc) t));
      rewrite res_mk; apply join_exited; assumption.
  - rewrite res_mk. apply join_exited; assumption.
Qed.

Lemma winds_down_subtasks config w runner_name :
  winds_down (subtasks config w runner_name).
Proof.
  apply winds_down_nursery2;
    [apply prompt_run_vm_then_cancel | apply prompt_run_runner_then_cancel].
Qed.

Lemma winds_down_of_prompt {A} (m : M A) : prompt m -> winds_down m.
Proof. intros H tc t. apply H. Qed.

Lemma winds_down_bind {A B} (m : M A) (k : A -> M B) :
  winds_down m -> (forall a, winds_down (k a)) -> winds_down (bind m k).
Proof.
  intros Hm Hk tc t. rewrite bind_run.
  specialize (Hm tc t).
  destruct (res (m (Some tc) t)) as [a| |]; rewrite res_mk.
  - apply Hk.
  - discriminate.
  - contradiction.
Qed.

Lemma winds_down_try_except {A} (m : M A) (h : exn -> option (M A)) :
  winds_down m -> (forall e k, h e = Some k -> winds_down k) ->
  winds_down (try_except m h).
Proof.
  intros Hm Hh tc t. rewrite try_except_run.
  specialize (Hm tc t).
  destruct (res (m (Some tc) t)) as [a|e|] eqn:E.
  - rewrite E. discriminate.
  - destruct (h e) as [k|] eqn:Ek.
    + rewrite res_mk. apply (Hh _ _ Ek).
    + rewrite E. discriminate.
  - contradiction.
Qed.

(** A lifecycle inside a scope that gets cancelled comes to an end: the
    provisioning and the subtasks end, their child processes being ended;
    the cleanup ends by its deadline, or when the delete command is
    gone. *)
Lemma winds_down_runner config w : winds_down (runner config w).
Proof.
  intros tc t. rewrite runner_lifecycle. unfold lifecycle.
  destruct (prompt_provision_tart_vm config w tc t) as [Hp1 _].
  remember (provision_tart_vm config w (Some tc) t) as p eqn:Ep. clear Ep.
  destruct (res p) as [name| |]; [|rewrite res_mk; discriminate|contradiction].
  cbv zeta.
  pose proof (winds_down_subtasks config w name tc (fin p)) as Hn1.
  remember (subtasks config w name (Some tc) (fin p)) as n eqn:En. clear En.
  destruct (cleanup_outcome_facts w name (fin n)) as (Hk1 & _).
  remember (cleanup_outcome w name (fin n)) as k eqn:Ek. clear Ek.
  destruct (res n) as [[]|e|]; [| |contradiction]; rewrite res_mk;
    destruct (res k); try discriminate; contradiction.
Qed.

Lemma prompt_on_failure e retries : prompt (on_failure e retries).
Proof.
  unfold on_failure.
  apply prompt_bind; [apply prompt_emit | intro].
  apply prompt_bind; [apply prompt_log | intro].
  apply prompt_bind; [apply prompt_log | intro].
  cbv zeta.
  apply prompt_bind; [apply prompt_log | intro].
  apply prompt_bind; [apply prompt_sleep | intro; apply prompt_ret].
Qed.

Lemma winds_down_iteration config w retries : winds_down (iteration config w retries).
Proof.
  unfold iteration. apply winds_down_try_except.
  - apply winds_down_bind; [apply winds_down_runner | intro].
    apply winds_down_of_prompt.
    apply prompt_bind; [apply prompt_emit | intro; apply prompt_ret].
  - intros e k Hk. destruct (is_Exception e); [|discriminate].
    injection Hk as <-. apply winds_down_of_prompt, prompt_on_failure.
Qed.

(** X4.  Inside a scope that the shutdown cancels, the loop of a slot
    supervisor never blocks for ever, whatever the child processes and the
    control plane do (they may never answer, and never exit by
    themselves): every wait is left when the scope is cancelled, a child
    whose wait is cancelled is ended, and the shielded delete of the
    lifecycle in flight is ended when its deadline fires. *)
Theorem supervisor_winds_down config ws retries tc t :
  res (supervise config ws retries (Some tc) t) <> Hang.
Proof.
  revert retries tc t. induction ws as [|w ws IH]; intros retries tc t.
  - cbn [supervise]. rewrite ret_run, res_mk. discriminate.
  - cbn [supervise].
    apply (@winds_down_bind _ _ (iteration config w retries)
             (fun r => supervise config ws r)).
    + apply winds_down_iteration.
    + intros r tc' t'. apply IH.
Qed.

(** The name provisioning returns is the one it has announced. *)
Lemma provision_returns_the_name config w c t n :
  res (provision_tart_vm config w c t) = Ret n -> n = name_of config w.
Proof.
  unfold provision_tart_vm, name_of. cbv zeta.
  rewrite bind_run, log_run, ?res_mk, ?fin_mk, ?evs_mk.
  rewrite bind_run.
  match goal with |- context [run_process true ?a (w_clone w) c t] =>
    remember (run_process true a (w_clone w) c t) as r1 eqn:E1; clear E1
  end.
  destruct (res r1) as [r| |]; rewrite ?res_mk; try discriminate.
  rewrite bind_run.
  destruct (negb (returncode r =? 0)%Z).
  - rewrite bind_run, log_run, ?res_mk, raise_run, ?res_mk. discriminate.
  - rewrite ret_run, ?res_mk, ?fin_mk, ?evs_mk.
    rewrite bind_run.
    match goal with |- context [run_process true ?a (w_set w) c ?t1] =>
      remember (run_process true a (w_set w) c t1) as r2 eqn:E2; clear E2
    end.
    destruct (res r2) as [r'| |]; rewrite ?res_mk; try discriminate.
    rewrite bind_run.
    destruct (negb (returncode r' =? 0)%Z).
    + rewrite bind_run, log_run, ?res_mk, raise_run, ?res_mk. discriminate.
    + rewrite ret_run, ?res_mk, ?fin_mk, ret_run, res_mk.
      intros [= <-]. reflexivity.
Qed.

Lemma late_app tc (l l' : list tevent) : late tc (l ++ l') = late tc l ++ late tc l'.
Proof. unfold late. apply filter_app. Qed.

Lemma late_nothing tc (l : list tevent) :
  Forall (nothing_once_cancelled (Some tc)) l -> late tc l = [].
Proof.
  induction 1 as [|te l H _ IH]; [reflexivity|].
  unfold late in *. cbn [filter]. rewrite IH.
  destruct (tc <=? fst te) eqn:E; [|reflexivity].
  apply Nat.leb_le in E. rewrite (H tc eq_refl E). reflexivity.
Qed.

Lemma late_times tc (l : list tevent) te : In te (late tc l) -> tc <= fst te.
Proof.
  unfold late. intros H. apply filter_In in H. destruct H as [_ H].
  apply andb_prop in H. destruct H as [H _]. apply Nat.leb_le. exact H.
Qed.

Lemma checked_nothing_late e : acts nothing_once_cancelled (checked e).
Proof.
  intros c t. rewrite checked_run.
  destruct (cancelled_at c t) eqn:E; rewrite evs_mk; constructor; [|constructor].
  intros tc -> Hle. cbn [fst] in Hle.
  apply Nat.leb_gt in E. lia.
Qed.

Lemma nothing_late_mono tc c te :
  nothing_once_cancelled (omin (Some tc) c) te -> nothing_once_cancelled c te.
Proof.
  intros H tc' -> Hle. apply (H (Nat.min tc tc')); [reflexivity | lia].
Qed.

Ltac nothing_late :=
  first [ apply nothing_late_mono
        | intros; apply checked_nothing_late
        | intros; reflexivity
        | intros; intros ? _ _; reflexivity ].

Lemma provision_nothing_late config w :
  acts nothing_once_cancelled (provision_tart_vm config w).
Proof. apply acts_provision_tart_vm with (known := fun _ => true); nothing_late. Qed.

Lemma subtasks_nothing_late config w runner_name :
  acts nothing_once_cancelled (subtasks config w runner_name).
Proof. apply acts_subtasks with (known := fun _ => true); nothing_late. Qed.

Lemma on_failure_nothing_late e retries :
  acts nothing_once_cancelled (on_failure e retries).
Proof.
  assert (Hf : forall ev, guarded ev = false ->
                 acts nothing_once_cancelled (emit ev)).
  { intros ev Hev. apply acts_emit. intros c t tc _ _. exact Hev. }
  unfold on_failure, log.
  apply acts_bind; [apply Hf; reflexivity | intro].
  apply acts_bind; [apply Hf; reflexivity | intro].
  apply acts_bind; [apply Hf; reflexivity | intro].
  cbv zeta.
  apply acts_bind; [apply Hf; reflexivity | intro].
  apply acts_bind; [|intro; apply acts_ret].
  unfold sleep.
  apply acts_bind; [apply checked_nothing_late | intro; apply acts_block].
Qed.

Lemma forward_on_failure e retries : forward (on_failure e retries).
Proof.
  intros c t. rewrite on_failure_run, fin_mk. apply forward_sleep.
Qed.

(** The cleanup is the only part of a lifecycle that starts anything once
    the scope is cancelled. *)
Lemma cleanup_late w runner_name tc t :
  late tc (evs (cleanup_outcome w runner_name t))
  = if tc <=? t then [(t, EvSpawn (delete_argv runner_name))] else [].
Proof.
  unfold cleanup_outcome, late. cbv zeta.
  destruct (p_end (w_delete w)) as [r|];
    [destruct (p_dur (w_delete w)) as [d|]; [destruct (d <=? 5)|]|];
    rewrite evs_mk; cbn [app filter fst snd guarded andb];
    rewrite ?andb_false_r, ?andb_true_r; destruct (tc <=? t); reflexivity.
Qed.

Lemma runner_late config w tc t :
  late tc (evs (runner config w (Some tc) t)) = []
  \/ exists t',
       tc <= t' <= fin (runner config w (Some tc) t)
       /\ In (t', EvCleanup) (evs (runner config w (Some tc) t))
       /\ late tc (evs (runner config w (Some tc) t))
          = [(t', EvSpawn (delete_argv (name_of config w)))].
Proof.
  rewrite runner_lifecycle. unfold lifecycle.
  pose proof (@provision_returns_the_name config w (Some tc) t) as Hname.
  pose proof (late_nothing (provision_nothing_late config w (Some tc) t)) as Hp.
  remember (provision_tart_vm config w (Some tc) t) as p eqn:Ep. clear Ep.
  destruct (res p) as [name| |]; rewrite ?evs_mk; [|left; exact Hp..].
  rewrite (Hname name eq_refl). clear Hname name.
  cbv zeta.
  pose proof (late_nothing
                (subtasks_nothing_late config w (name_of config w) (Some tc) (fin p)))
    as Hn.
  remember (subtasks config w (name_of config w) (Some tc) (fin p)) as n eqn:En.
  clear En.
  assert (Hk : late tc (evs p ++ evs n ++
                        evs (cleanup_outcome w (name_of config w) (fin n)))
               = if tc <=? fin n
                 then [(fin n, EvSpawn (delete_argv (name_of config w)))] else []).
  { rewrite !late_app, Hp, Hn, cleanup_late. reflexivity. }
  pose proof (forward_cleanup w (name_of config w) None (fin n)) as Hf.
  rewrite cleanup_run in Hf.
  assert (Hc : In (fin n, EvCleanup)
                  (evs p ++ evs n ++
                   evs (cleanup_outcome w (name_of config w) (fin n)))).
  { apply in_or_app; right. apply in_or_app; right.
    unfold cleanup_outcome. cbv zeta.
    destruct (p_end (w_delete w)) as [r|];
      [destruct (p_dur (w_delete w)) as [d|]; [destruct (d <=? 5)|]|];
      rewrite evs_mk; left; reflexivity. }
  remember (cleanup_outcome w (name_of config w) (fin n)) as k eqn:Ek. clear Ek.
  assert (Hgoal :
    late tc (evs p ++ evs n ++ evs k) = []
    \/ exists t',
         tc <= t' <= fin k
         /\ In (t', EvCleanup) (evs p ++ evs n ++ evs k)
         /\ late tc (evs p ++ evs n ++ evs k)
            = [(t', EvSpawn (delete_argv (name_of config w)))]).
  { rewrite Hk. destruct (tc <=? fin n) eqn:E; [|left; reflexivity].
    apply Nat.leb_le in E. right. exists (fin n).
    split; [lia|]. split; [exact Hc | reflexivity]. }
  destruct (res n); rewrite ?evs_mk, ?fin_mk; try exact Hgoal.
  left. rewrite late_app, Hp, Hn. reflexivity.
Qed.

Lemma iteration_late config w retries tc t :
  late tc (evs (iteration config w retries (Some tc) t)) = []
  \/ exists t',
       tc <= t' <= fin (iteration config w retries (Some tc) t)
       /\ In (t', EvCleanup) (evs (runner config w (Some tc) t))
       /\ late tc (evs (iteration config w retries (Some tc) t))
          = [(t', EvSpawn (delete_argv (name_of config w)))].
Proof.
  pose proof (runner_late config w tc t) as Hr.
  pose proof (@iteration_returned config w retries (Some tc) t) as H1.
  pose proof (@iteration_failed config w retries (Some tc) t) as H2.
  pose proof (@iteration_escaped config w retries (Some tc) t) as H3.
  pose proof (@iteration_hang config w retries (Some tc) t) as H4.
  remember (iteration config w retries (Some tc) t) as i eqn:Ei. clear Ei.
  remember (runner config w (Some tc) t) as l eqn:El. clear El.
  destruct (res l) as [[]|e|].
  - rewrite (H1 eq_refl), evs_mk, fin_mk, late_app.
    replace (late tc [(fin l, EvReturned)]) with (@nil tevent)
      by (unfold late; cbn [filter snd guarded]; rewrite andb_false_r; reflexivity).
    rewrite app_nil_r. exact Hr.
  - destruct (is_Exception e) eqn:He.
    + rewrite (H2 e eq_refl He), evs_mk, fin_mk, late_app.
      rewrite (late_nothing (on_failure_nothing_late e retries (Some tc) (fin l))).
      rewrite app_nil_r.
      pose proof (forward_on_failure e retries (Some tc) (fin l)) as Hf.
      destruct Hr as [Hr | (t' & Ht & Hc & Hr)]; [left; exact Hr|].
      right. exists t'. split; [lia|]. split; [exact Hc | exact Hr].
    + rewrite (H3 e eq_refl He), evs_mk, fin_mk. exact Hr.
  - rewrite (H4 eq_refl), evs_mk, fin_mk. exact Hr.
Qed.

Lemma supervise_after_shutdown config ws retries tc t :
  tc <= t -> late tc (evs (supervise config ws retries (Some tc) t)) = [].
Proof.
  intros H. destruct ws as [|w ws]; cbn [supervise].
  - reflexivity.
  - rewrite bind_run, (iteration_after_shutdown config w retries H).
    rewrite res_mk. cbv iota. rewrite !evs_mk.
    unfold late. cbn [filter snd guarded]. rewrite andb_false_r. reflexivity.
Qed.

(** X5.  Once the shutdown has cancelled the scope of a slot supervisor,
    at [tc], the supervisor starts no process, sends no request and begins
    no sleep, with one exception at most: the [tart delete] of the cleanup
    of the lifecycle that was in flight, the lifecycle the supervisor had
    come to before [tc] (at [t0], after the lifecycles of [pre]), for the
    name of that lifecycle, at the time its cleanup is entered. *)
Theorem after_shutdown_only_the_delete_is_started config ws :
  forall retries tc t,
    late tc (evs (supervise config ws retries (Some tc) t)) = []
    \/ exists pre w post r0 t0 t',
         ws = pre ++ w :: post
         /\ res (supervise config pre retries (Some tc) t) = Ret r0
         /\ fin (supervise config pre retries (Some tc) t) = t0
         /\ t0 < tc <= t'
         /\ In (t', EvCleanup) (evs (runner config w (Some tc) t0))
         /\ late tc (evs (supervise config ws retries (Some tc) t))
            = [(t', EvSpawn (delete_argv (name_of config w)))].
Proof.
  induction ws as [|w ws IH]; intros retries tc t; [left; reflexivity|].
  destruct (Nat.le_gt_cases tc t) as [Hle | Hlt].
  { left. apply supervise_after_shutdown. exact Hle. }
  cbn [supervise]. rewrite bind_run.
  destruct (iteration_late config w retries tc t) as [Hi | (t' & Ht & Hc & Hi)].
  - specialize (IH) as IH'.
    remember (iteration config w retries (Some tc) t) as i eqn:Ei.
    destruct (res i) as [r'| |] eqn:Er; rewrite ?evs_mk; [|left; exact Hi..].
    rewrite late_app, Hi. cbn [app].
    destruct (IH' r' tc (fin i)) as [IHn | (pre & w' & post & r0 & t0 & t1 & Hws & Hr0 & Ht0 & Hlt' & Hc' & Hl)].
    + left. exact IHn.
    + right. exists (w :: pre), w', post, r0, t0, t1.
      split; [rewrite Hws; reflexivity|].
      cbn [supervise]. rewrite bind_run, <- Ei, Er, res_mk, fin_mk.
      split; [exact Hr0|]. split; [exact Ht0|]. split; [exact Hlt'|].
      split; [exact Hc' | exact Hl].
  - right. exists [], w, ws, retries, t, t'.
    split; [reflexivity|]. cbn [supervise]. rewrite ret_run, res_mk, fin_mk.
    split; [reflexivity|]. split; [reflexivity|]. split; [lia|].
    split; [exact Hc|].
    remember (iteration config w retries (Some tc) t) as i eqn:Ei. clear Ei.
    destruct (res i) as [r'| |]; rewrite ?evs_mk; try exact Hi.
    rewrite late_app, Hi.
    rewrite (@supervise_after_shutdown config ws r' tc (fin i)) by lia.
    reflexivity.
Qed.

(** ** The turn in flight at the shutdown *)

(** The handler is entered with exceptions that [except Exception]
    catches only. *)
Lemma iteration_handles_exceptions config w retries c t te e :
  In te (evs (iteration config w retries c t)) ->
  snd te = EvFailed e -> is_Exception e = true.
Proof.
  pose proof (runner_no_supervisor_event config w c t) as Hq.
  rewrite Forall_forall in Hq.
  assert (Hrun : In te (evs (runner config w c t)) -> snd te = EvFailed e -> False).
  { intros Hin E. specialize (Hq te Hin). cbv beta in Hq. rewrite E in Hq.
    discriminate Hq. }
  destruct (res (runner config w c t)) as [[]|x|] eqn:E.
  - rewrite (iteration_returned config w retries c t E), evs_mk.
    intros Hin Hs. apply in_app_or in Hin.
    destruct Hin as [Hin | [<- | []]]; [destruct (Hrun Hin Hs) | discriminate Hs].
  - destruct (is_Exception x) eqn:Hx.
    + rewrite (iteration_failed config w retries c t E Hx), evs_mk.
      intros Hin Hs. apply in_app_or in Hin.
      destruct Hin as [Hin | Hin]; [destruct (Hrun Hin Hs)|].
      rewrite on_failure_run, evs_mk, sleep_run in Hin.
      destruct Hin as [<- | [<- | [<- | [<- | Hin]]]]; try discriminate Hs.
      * cbn [snd] in Hs. injection Hs as <-. exact Hx.
      * destruct (cancelled_at c (fin (runner config w c t)));
          rewrite evs_mk in Hin; [destruct Hin|].
        destruct Hin as [<- | []]. discriminate Hs.
    + rewrite (iteration_escaped config w retries c t E Hx), evs_mk.
      intros Hin Hs. destruct (Hrun Hin Hs).
  - rewrite (iteration_hang config w retries c t E), evs_mk.
    intros Hin Hs. destruct (Hrun Hin Hs).
Qed.

(** A backoff sleep that is going on when the scope is cancelled ends
    then, with [Cancelled]. *)
Lemma iteration_sleep_interrupted config w retries tc t ts secs :
  In (ts, EvSleep secs) (evs (iteration config w retries (Some tc) t)) ->
  tc < ts + secs ->
  res (iteration config w retries (Some tc) t) = Raise Cancelled
  /\ fin (iteration config w retries (Some tc) t) = tc.
Proof.
  pose proof (runner_no_supervisor_event config w (Some tc) t) as Hq.
  rewrite Forall_forall in Hq.
  assert (Hrun : In (ts, EvSleep secs) (evs (runner config w (Some tc) t)) -> False).
  { intros Hin. specialize (Hq _ Hin). discriminate Hq. }
  destruct (res (runner config w (Some tc) t)) as [[]|x|] eqn:E.
  - rewrite (iteration_returned config w retries (Some tc) t E), evs_mk.
    intros Hin. apply in_app_or in Hin.
    destruct Hin as [Hin | [Hin | []]]; [destruct (Hrun Hin) | discriminate Hin].
  - destruct (is_Exception x) eqn:Hx.
    + rewrite (iteration_failed config w retries (Some tc) t E Hx).
      rewrite res_mk, fin_mk, evs_mk.
      intros Hin. apply in_app_or in Hin.
      destruct Hin as [Hin | Hin]; [destruct (Hrun Hin)|].
      rewrite on_failure_run, res_mk, fin_mk, sleep_run.
      rewrite on_failure_run, evs_mk, sleep_run in Hin.
      destruct Hin as [Hin | [Hin | [Hin | [Hin | Hin]]]]; try discriminate Hin.
      remember (fin (runner config w (Some tc) t)) as f eqn:Ef. clear Ef.
      destruct (cancelled_at (Some tc) f) eqn:Ec;
        rewrite evs_mk in Hin; [destruct Hin|].
      destruct Hin as [Hin | []]. injection Hin as <- <-.
      cbn [cancelled_at] in Ec. apply Nat.leb_gt in Ec.
      intros Hlate. unfold block.
      assert (El : (f + 2 ^ (retries + 1) <=? tc) = false)
        by (apply Nat.leb_gt; exact Hlate).
      rewrite El, !res_mk, !fin_mk. split; [reflexivity | lia].
    + rewrite (iteration_escaped config w retries (Some tc) t E Hx), evs_mk.
      intros Hin. destruct (Hrun Hin).
  - rewrite (iteration_hang config w retries (Some tc) t E), evs_mk.
    intros Hin. destruct (Hrun Hin).
Qed.

(** The lifecycle returns although the shutdown has come (at 6, during
    its cleanup, which lasts from 5 to 7); the supervisor then comes round
    to the next lifecycle and logs its name before it is cancelled. *)
Lemma one_more_turn_is_begun :
  ~ shutdown_ends_the_loop
      sample_config (with_vm (exits 3 0 []) sample_world) [sample_world] 0 6 0.
Proof.
  unfold shutdown_ends_the_loop. intros H.
  apply (f_equal (fun r => List.length (evs r))) in H.
  vm_compute in H. discriminate H.
Qed.

(** C7, as the code has it.  When the shutdown cancels the scope of a
    supervisor, at [tc], during a turn of its loop (begun before [tc] and
    not over before [tc]), the loop is left with [Cancelled] when that
    turn ends: the lifecycle in flight comes to an end, a backoff sleep in
    flight is left at [tc], and the handler is never entered with the
    cancellation.  No further lifecycle gets anywhere; but when the turn
    in flight still ends normally, the supervisor comes round to the next
    lifecycle, which logs "Provisioning: <name>" and is cancelled at its
    first checkpoint. *)
Theorem shutdown_exits_the_loop config w w' ws retries tc t :
  t < tc ->
  tc <= fin (iteration config w retries (Some tc) t) ->
  res (supervise config (w :: w' :: ws) retries (Some tc) t) = Raise Cancelled
  /\ fin (supervise config (w :: w' :: ws) retries (Some tc) t)
     = fin (iteration config w retries (Some tc) t)
  /\ ((res (iteration config w retries (Some tc) t) = Raise Cancelled
       /\ evs (supervise config (w :: w' :: ws) retries (Some tc) t)
          = evs (iteration config w retries (Some tc) t))
      \/ ((exists r, res (iteration config w retries (Some tc) t) = Ret r)
          /\ evs (supervise config (w :: w' :: ws) retries (Some tc) t)
             = evs (iteration config w retries (Some tc) t)
               ++ [(fin (iteration config w retries (Some tc) t),
                    EvLog (txt "Provisioning: " ++ name_of config w'))]))
  /\ (forall ts secs,
        In (ts, EvSleep secs) (evs (iteration config w retries (Some tc) t)) ->
        tc < ts + secs ->
        res (iteration config w retries (Some tc) t) = Raise Cancelled
        /\ fin (iteration config w retries (Some tc) t) = tc)
  /\ (forall te e,
        In te (evs (supervise config (w :: w' :: ws) retries (Some tc) t)) ->
        snd te = EvFailed e -> is_Exception e = true).
Proof.
  intros Hlt Hin.
  pose proof (winds_down_iteration config w retries tc t) as Hn.
  pose proof (@iteration_raises config w retries (Some tc) t) as Hr.
  pose proof (@iteration_handles_exceptions config w retries (Some tc) t) as Hh.
  pose proof (@iteration_sleep_interrupted config w retries tc t) as Hs.
  cbn [supervise]. rewrite bind_run.
  remember (iteration config w retries (Some tc) t) as i eqn:Ei. clear Ei.
  destruct (res i) as [r|e|] eqn:Er; [| |contradiction Hn; reflexivity].
  - rewrite bind_run.
    rewrite (iteration_after_shutdown config w' r Hin).
    rewrite ?res_mk, ?fin_mk, ?evs_mk. cbv iota. rewrite ?res_mk, ?fin_mk, ?evs_mk.
    split; [reflexivity|]. split; [reflexivity|].
    split; [right; split; [exists r; reflexivity | reflexivity]|].
    split; [exact Hs|].
    intros te e Hte E. apply in_app_or in Hte.
    destruct Hte as [Hte | [<- | []]]; [exact (Hh te e Hte E) | discriminate E].
  - destruct (Hr e eq_refl) as [-> _].
    rewrite ?res_mk, ?fin_mk, ?evs_mk.
    split; [reflexivity|]. split; [reflexivity|].
    split; [left; split; reflexivity|].
    split; [exact Hs | exact Hh].
Qed.

(** The shutdown comes during the backoff sleep. *)
Lemma shutdown_exits_the_loop_witness :
  res (supervise sample_config
                 [with_clone (exits 1 1 []) sample_world; sample_world; sample_world]
                 0 (Some 2) 0) = Raise Cancelled
  /\ fin (supervise sample_config
                    [with_clone (exits 1 1 []) sample_world; sample_world;
                     sample_world] 0 (Some 2) 0) = 2.
Proof.
  destruct (@shutdown_exits_the_loop
              sample_config (with_clone (exits 1 1 []) sample_world) sample_world
              [sample_world] 0 2 0) as (H1 & H2 & _).
  - lia.
  - vm_compute. lia.
  - split; [exact H1|]. rewrite H2. vm_compute. reflexivity.
Defined.

(** ** A provisioned VM is deleted once *)

Lemma filter_none {A} (f : A -> bool) (l : list A) :
  Forall (fun x => f x = false) l -> filter f l = [].
Proof.
  induction 1 as [|x l H _ IH]; [reflexivity|].
  cbn [filter]. rewrite H. exact IH.
Qed.

Lemma cleanup_delete w runner_name t :
  filter (fun te => is_delete (snd te)) (evs (cleanup_outcome w runner_name t))
  = [(t, EvSpawn (delete_argv runner_name))].
Proof.
  unfold cleanup_outcome.
  destruct (p_end (w_delete w)) as [r|];
    [destruct (p_dur (w_delete w)) as [d|]; [destruct (d <=? 5)|]|];
    reflexivity.
Qed.

(** X6.  Of the processes a lifecycle starts, whatever cancels the scopes
    around, those whose command is [delete] are these.  When provisioning
    has returned the runner name [name] and the nursery of the two subtasks
    has been left (however they ended): [tart delete name], for that name,
    started once, at the time the nursery is left.  When provisioning has
    not returned a name, or the subtasks never end: none. *)
Theorem provisioned_vm_is_deleted_once config w c t :
  filter (fun te => is_delete (snd te)) (evs (runner config w c t)) =
  match res (provision_tart_vm config w c t) with
  | Ret name =>
      match res (subtasks config w name c
                          (fin (provision_tart_vm config w c t))) with
      | Hang => []
      | _ => [(fin (subtasks config w name c
                             (fin (provision_tart_vm config w c t))),
               EvSpawn (delete_argv name))]
      end
  | _ => []
  end.
Proof.
  rewrite runner_lifecycle. unfold lifecycle.
  pose proof (provision_no_delete config w c t) as Hp.
  apply filter_none in Hp.
  remember (provision_tart_vm config w c t) as p eqn:Ep. clear Ep.
  destruct (res p) as [name| |]; rewrite ?evs_mk; try exact Hp.
  pose proof (subtasks_no_delete config w name c (fin p)) as Hn.
  apply filter_none in Hn. cbv zeta.
  remember (subtasks config w name c (fin p)) as n eqn:En. clear En.
  unfold tevent in *.
  destruct (res n); rewrite evs_mk, !filter_app, ?Hp, ?Hn, ?cleanup_delete;
    reflexivity.
Qed.

(** ** Address resolution *)

Lemma run_process_evs check argv p c t :
  evs (run_process check argv p c t)
  = if cancelled_at c t then [] else [(t, EvSpawn argv)].
Proof.
  destruct (cancelled_at c t) eqn:E.
  - rewrite (@run_process_cancelled check argv p c t E). reflexivity.
  - rewrite (@run_process_started check argv p c t E).
    destruct (p_end p) as [r|]; [|reflexivity].
    destruct (res (wait_process p c t)); reflexivity.
Qed.

Lemma get_tart_ip_loop_attempts ip runner_name fuel :
  forall attempts c t,
  exists n,
    n <= fuel
    /\ map snd (evs (get_tart_ip_loop ip runner_name attempts fuel c t))
       = repeat (EvSpawn (tart_ip_argv runner_name)) n.
Proof.
  induction fuel as [|fuel IH]; intros attempts c t; cbn [get_tart_ip_loop].
  - exists 0. split; [lia | reflexivity].
  - rewrite try_except_run, bind_run.
    pose proof (run_process_evs true (tart_ip_argv runner_name) (ip attempts) c t)
      as Hev.
    unfold tart_ip_argv in Hev at 1.
    remember (run_process true
                [txt "tart"; txt "ip"; runner_name; txt "--wait"; txt "3"]
                (ip attempts) c t) as r eqn:Er. clear Er.
    assert (Hone : exists n, n <= 1
                     /\ map snd (evs r) = repeat (EvSpawn (tart_ip_argv runner_name)) n).
    { rewrite Hev. destruct (cancelled_at c t);
        [exists 0 | exists 1]; split; try lia; reflexivity. }
    destruct Hone as (n1 & Hn1 & E1).
    destruct (res r) as [x|e|]; rewrite ?res_mk, ?fin_mk, ?evs_mk.
    + rewrite ret_run, evs_mk, app_nil_r.
      exists n1. split; [lia | exact E1].
    + destruct e; rewrite ?res_mk, ?fin_mk, ?evs_mk;
        try (exists n1; split; [lia | exact E1]).
      destruct (IH (S attempts) c (fin r)) as (n2 & Hn2 & E2).
      exists (n1 + n2). split; [lia|].
      rewrite map_app. unfold tevent in *. rewrite E1, E2, repeat_app.
      reflexivity.
    + exists n1. split; [lia | exact E1].
Qed.

(** X7.  [get_tart_ip] starts at most [retries] processes, whatever they
    do, and each of them is [tart ip <runner_name> --wait 3]; it does
    nothing else that can be observed. *)
Theorem get_tart_ip_makes_at_most_retries_attempts ip runner_name retries c t :
  exists n,
    n <= retries
    /\ map snd (evs (get_tart_ip ip runner_name retries c t))
       = repeat (EvSpawn (tart_ip_argv runner_name)) n.
Proof.
  unfold get_tart_ip. rewrite bind_run.
  destruct (get_tart_ip_loop_attempts ip runner_name retries 0 c t)
    as (n & Hn & E).
  remember (get_tart_ip_loop ip runner_name 0 retries c t) as l eqn:El. clear El.
  exists n. split; [exact Hn|].
  destruct (res l) as [[r|]| |]; rewrite ?evs_mk; try exact E.
  - destruct (decode_ascii (stdout r));
      rewrite ?ret_run, ?raise_run, ?evs_mk, app_nil_r; exact E.
  - rewrite raise_run, evs_mk, app_nil_r. exact E.
Qed.

Lemma failed_attempt argv p t :
  attempt_fails p ->
  exists rc t',
    run_process true argv p None t
    = MkRun (Raise (CalledProcessError rc)) t' [(t, EvSpawn argv)].
Proof.
  intros (r & d & He & Hrc & Hd).
  assert (Hr : returns p None t (returncode r) (t + d)).
  { exists (stdout r), d. destruct r as [rc out]. cbn [returncode stdout].
    repeat split; try assumption; try reflexivity. intros tc [=]. }
  destruct (run_process_returns true argv Hr) as [out ->].
  apply Z.eqb_neq in Hrc. rewrite Hrc. cbn [andb negb].
  exists (returncode r), (t + d). reflexivity.
Qed.

Lemma get_tart_ip_loop_exhausted ip runner_name fuel :
  forall attempts t,
    (forall i, attempts <= i < attempts + fuel -> attempt_fails (ip i)) ->
    res (get_tart_ip_loop ip runner_name attempts fuel None t) = Ret None
    /\ List.length (evs (get_tart_ip_loop ip runner_name attempts fuel None t))
       = fuel.
Proof.
  induction fuel as [|fuel IH]; intros attempts t H; cbn [get_tart_ip_loop].
  - split; reflexivity.
  - rewrite try_except_run, bind_run.
    destruct (@failed_attempt
                [txt "tart"; txt "ip"; runner_name; txt "--wait"; txt "3"]
                (ip attempts) t) as (rc & t' & ->).
    { apply H. lia. }
    rewrite ?res_mk, ?fin_mk, ?evs_mk.
    destruct (IH (S attempts) t') as [H1 H2].
    { intros i Hi. apply H. lia. }
    split; [exact H1|].
    rewrite List.length_app, H2. reflexivity.
Qed.

(** X8.  When every one of the [retries] attempts ends with a non-zero
    status, [get_tart_ip] leaves its loop with [result] never assigned: it
    returns no address but raises [UnboundLocalError], after exactly
    [retries] attempts (with [retries = 0], at once and without starting
    any process). *)
Theorem get_tart_ip_exhausted_raises_unbound_local ip runner_name retries t :
  (forall i, i < retries -> attempt_fails (ip i)) ->
  res (get_tart_ip ip runner_name retries None t) = Raise UnboundLocalError
  /\ List.length (evs (get_tart_ip ip runner_name retries None t)) = retries.
Proof.
  intros H. unfold get_tart_ip. rewrite bind_run.
  destruct (@get_tart_ip_loop_exhausted ip runner_name retries 0 t) as [H1 H2].
  { intros i Hi. apply H. lia. }
  rewrite H1, res_mk, evs_mk, raise_run, res_mk, evs_mk, app_nil_r.
  split; [reflexivity | exact H2].
Qed.

Lemma get_tart_ip_exhausted_raises_unbound_local_witness :
  res (get_tart_ip (fun _ => exits 1 1 []) sample_name 4 None 0)
  = Raise UnboundLocalError
  /\ List.length (evs (get_tart_ip (fun _ => exits 1 1 []) sample_name 4 None 0))
     = 4.
Proof.
  apply (@get_tart_ip_exhausted_raises_unbound_local
           (fun _ => exits 1 1 []) sample_name 4 0).
  intros i _. exists (MkCompleted 1 []), 1.
  repeat split; try reflexivity. discriminate.
Defined.

(** *** [strip] *)

Lemma lstrip_head s :
  lstrip s = [] \/ exists c s', lstrip s = c :: s' /\ isspace c = false.
Proof.
  induction s as [|c s IH]; [left; reflexivity|].
  cbn [lstrip]. destruct (isspace c) eqn:E; [exact IH|].
  right. exists c, s. split; [reflexivity | exact E].
Qed.

Lemma lstrip_idem s : lstrip (lstrip s) = lstrip s.
Proof.
  destruct (lstrip_head s) as [->|(c & s' & -> & E)]; [reflexivity|].
  cbn [lstrip]. rewrite E. reflexivity.
Qed.

Lemma lstrip_snoc l c : isspace c = false -> lstrip (l ++ [c]) = lstrip l ++ [c].
Proof.
  intros E. induction l as [|x l IH]; cbn [app lstrip].
  - rewrite E. reflexivity.
  - destruct (isspace x); [exact IH | reflexivity].
Qed.

Lemma lstrip_Forall (P : Z -> Prop) s : Forall P s -> Forall P (lstrip s).
Proof.
  induction 1 as [|c s Hc Hs IH]; [constructor|].
  cbn [lstrip]. destruct (isspace c); [exact IH | constructor; assumption].
Qed.

Lemma lstrip_strip s : lstrip (strip s) = strip s.
Proof.
  unfold strip, rstrip.
  destruct (lstrip_head s) as [->|(c & s' & -> & E)]; [reflexivity|].
  cbn [rev]. rewrite (@lstrip_snoc (rev s') c E), rev_app_distr.
  cbn [rev app lstrip].
  rewrite E. reflexivity.
Qed.

Lemma rstrip_strip s : rstrip (strip s) = strip s.
Proof.
  unfold strip, rstrip. rewrite rev_involutive, lstrip_idem. reflexivity.
Qed.

Lemma strip_Forall (P : Z -> Prop) s : Forall P s -> Forall P (strip s).
Proof.
  intros H. unfold strip, rstrip.
  apply Forall_rev, lstrip_Forall, Forall_rev, lstrip_Forall, H.
Qed.

Lemma decode_ascii_some bs s :
  decode_ascii bs = Some s ->
  s = bs /\ Forall (fun ch => in_range 0 127 ch = true) bs.
Proof.
  unfold decode_ascii. destruct (forallb (in_range 0 127) bs) eqn:E; [|discriminate].
  intros [= <-]. split; [reflexivity|].
  apply Forall_forall. apply forallb_forall. exact E.
Qed.

(** What [run_process] returns is what the process ended with; the status
    of a [CalledProcessError] is that of the process. *)
Lemma run_process_end check argv p c t :
  match res (run_process check argv p c t) with
  | Ret r => p_end p = Some r
  | Raise (CalledProcessError rc) =>
      exists r d,
        p_end p = Some r /\ returncode r = rc /\ rc <> 0%Z /\ p_dur p = Some d
  | _ => True
  end.
Proof.
  unfold run_process. rewrite bind_run, checked_run.
  destruct (cancelled_at c t); rewrite !res_mk, ?fin_mk; [exact I|].
  destruct (p_end p) as [r|]; [|rewrite raise_run, !res_mk; exact I].
  rewrite bind_run.
  assert (Hd : res (wait_process p c t) = Ret tt -> exists d, p_dur p = Some d).
  { unfold wait_process, block. cbv zeta.
    destruct (p_dur p) as [d|]; [intros _; exists d; reflexivity|].
    destruct c; rewrite ?res_mk; discriminate. }
  destruct (wait_process_res p c t) as [E|[E|E]]; rewrite E in *; rewrite ?res_mk;
    try exact I.
  destruct (Hd eq_refl) as [d Ed].
  destruct (check && negb (returncode r =? 0)%Z) eqn:Ec.
  - rewrite raise_run, res_mk. exists r, d. split; [reflexivity|].
    split; [reflexivity|]. split; [|exact Ed].
    apply andb_prop in Ec. destruct Ec as [_ Ec].
    apply negb_true_iff, Z.eqb_neq in Ec. exact Ec.
  - rewrite ret_run, res_mk. reflexivity.
Qed.

(** The attempt that ends the loop of [get_tart_ip] is the first that
    exits with the status 0. *)
Lemma get_tart_ip_loop_result ip runner_name fuel :
  forall attempts c t r,
    res (get_tart_ip_loop ip runner_name attempts fuel c t) = Ret (Some r) ->
    exists i,
      attempts <= i < attempts + fuel
      /\ p_end (ip i) = Some r
      /\ returncode r = 0%Z
      /\ forall j, attempts <= j < i -> attempt_fails (ip j).
Proof.
  induction fuel as [|fuel IH]; intros attempts c t r; cbn [get_tart_ip_loop].
  - rewrite ret_run, res_mk. discriminate.
  - rewrite try_except_run, bind_run.
    pose proof (run_process_end true
                  [txt "tart"; txt "ip"; runner_name; txt "--wait"; txt "3"]
                  (ip attempts) c t) as He.
    pose proof (@run_process_checked
                  [txt "tart"; txt "ip"; runner_name; txt "--wait"; txt "3"]
                  (ip attempts) c t) as Hz.
    remember (run_process true
                [txt "tart"; txt "ip"; runner_name; txt "--wait"; txt "3"]
                (ip attempts) c t) as r1 eqn:Er. clear Er.
    destruct (res r1) as [x|e|]; rewrite ?res_mk, ?fin_mk, ?evs_mk.
    + rewrite ret_run, res_mk. intros [= <-].
      exists attempts. split; [lia|]. split; [exact He|].
      split; [exact (Hz x eq_refl)|]. intros j Hj. lia.
    + destruct e; rewrite ?res_mk; try discriminate.
      intros H. destruct (IH (S attempts) c (fin r1) r H) as (i & Hi & Hp & Hrc & Hf).
      exists i. split; [lia|]. split; [exact Hp|]. split; [exact Hrc|].
      intros j Hj. destruct (Nat.eq_dec j attempts) as [->|Hne].
      * destruct He as (r' & d & He1 & He2 & He3 & He4). exists r', d.
        split; [exact He1|]. rewrite He2. split; [exact He3 | exact He4].
      * apply Hf. lia.
    + discriminate.
Qed.

(** X9.  The address [get_tart_ip] returns is the output of the first
    attempt that exits with the status 0, one of the first [retries]
    attempts, all attempts before it having exited with another status:
    that output is ASCII, and the address is that text without the
    whitespace around it, so it has no leading and no trailing
    whitespace. *)
Theorem get_tart_ip_returns_a_stripped_address ip runner_name retries c t addr :
  res (get_tart_ip ip runner_name retries c t) = Ret addr ->
  (exists i out,
      i < retries
      /\ p_end (ip i) = Some (MkCompleted 0 out)
      /\ (forall j, j < i -> attempt_fails (ip j))
      /\ Forall (fun ch => in_range 0 127 ch = true) out
      /\ addr = strip out)
  /\ lstrip addr = addr
  /\ rstrip addr = addr
  /\ Forall (fun ch => in_range 0 127 ch = true) addr.
Proof.
  unfold get_tart_ip. rewrite bind_run.
  pose proof (@get_tart_ip_loop_result ip runner_name retries 0 c t) as Hl.
  remember (get_tart_ip_loop ip runner_name 0 retries c t) as l eqn:El. clear El.
  destruct (res l) as [[r|]| |]; rewrite ?res_mk;
    [|rewrite raise_run, res_mk; discriminate|discriminate|discriminate].
  destruct (Hl r eq_refl) as (i & Hi & Hp & Hrc & Hf).
  destruct (decode_ascii (stdout r)) as [s|] eqn:Ed.
  - rewrite ret_run, res_mk. intros [= <-].
    apply decode_ascii_some in Ed. destruct Ed as [-> Ha].
    split.
    + exists i, (stdout r). split; [lia|].
      split; [destruct r as [rc out]; cbn [returncode stdout] in *;
              rewrite Hp, Hrc; reflexivity|].
      split; [intros j Hj; apply Hf; lia|].
      split; [exact Ha | reflexivity].
    + split; [apply lstrip_strip|]. split; [apply rstrip_strip|].
      apply strip_Forall, Ha.
  - rewrite raise_run, res_mk. discriminate.
Qed.

Lemma get_tart_ip_returns_a_stripped_address_witness :
  res (get_tart_ip (fun i => if i =? 0 then exits 1 1 (txt "none")
                             else exits 1 0 (txt " 192.168.64.5
")) sample_name 4 None 0) = Ret (txt "192.168.64.5")
  /\ (exists i out,
         i < 4
         /\ p_end ((fun i => if i =? 0 then exits 1 1 (txt "none")
                             else exits 1 0 (txt " 192.168.64.5
")) i) = Some (MkCompleted 0 out)
         /\ txt "192.168.64.5" = strip out).
Proof.
  assert (H : res (get_tart_ip (fun i => if i =? 0 then exits 1 1 (txt "none")
                             else exits 1 0 (txt " 192.168.64.5
")) sample_name 4 None 0) = Ret (txt "192.168.64.5")) by (vm_compute; reflexivity).
  split; [exact H|].
  destruct (@get_tart_ip_returns_a_stripped_address
              (fun i => if i =? 0 then exits 1 1 (txt "none")
                             else exits 1 0 (txt " 192.168.64.5
")) sample_name 4 None 0 (txt "192.168.64.5") H)
    as ((i & out & Hi & Hp & _ & _ & Hs) & _).
  exists i, out. split; [exact Hi|]. split; [exact Hp | exact Hs].
Defined.

(** ** The credential exchange *)

Lemma subscript_run d key c t :
  subscript d key c t =
  match getitem key d with
  | Some v => MkRun (Ret v) t []
  | None => MkRun (Raise KeyError) t []
  end.
Proof. unfold subscript. destruct (getitem key d); reflexivity. Qed.

Lemma post_evs url bearer h c t :
  evs (post url bearer h c t)
  = if cancelled_at c t then [] else [(t, EvPost url bearer)].
Proof.
  unfold post. rewrite bind_run, checked_run.
  destruct (cancelled_at c t); rewrite ?res_mk, ?fin_mk, ?evs_mk; [reflexivity|].
  rewrite bind_run, block_no_action.
  destruct (res (block (h_dur h) c t)); rewrite ?evs_mk; try reflexivity.
  destruct (h_end h); rewrite ?ret_run, ?raise_run, ?evs_mk; reflexivity.
Qed.

Lemma post_ret url bearer h c t j :
  res (post url bearer h c t) = Ret j -> h_end h = Some j.
Proof.
  unfold post. rewrite bind_run, checked_run.
  destruct (cancelled_at c t); rewrite ?res_mk, ?fin_mk, ?evs_mk; [discriminate|].
  rewrite bind_run.
  destruct (res (block (h_dur h) c t)); rewrite ?res_mk; try discriminate.
  destruct (h_end h); rewrite ?ret_run, ?raise_run, ?res_mk; [|discriminate].
  intros [= <-]. reflexivity.
Qed.

Lemma exchange_actions config w c t :
  Forall (fun te => exchange_action config w (snd te))
         (evs (get_registration_token config w c t)).
Proof.
  unfold get_registration_token, generate_jwt.
  rewrite bind_run, log_run, ?res_mk, ?fin_mk, ?evs_mk.
  constructor; [left; reflexivity|].
  rewrite bind_run, ret_run, ?res_mk, ?fin_mk, ?evs_mk. cbn [app].
  rewrite bind_run.
  pose proof (post_evs (access_url config) (w_jwt w) (w_access w) c t) as Hev1.
  pose proof (@post_ret (access_url config) (w_jwt w) (w_access w) c t) as Hret1.
  unfold access_url in Hev1, Hret1.
  match goal with |- context [post ?u ?b ?h c t] =>
    remember (post u b h c t) as p1 eqn:E1; clear E1 end.
  assert (Hp1 : Forall (fun te => exchange_action config w (snd te)) (evs p1)).
  { rewrite Hev1. destruct (cancelled_at c t); constructor; [|constructor].
    left. split; reflexivity. }
  destruct (res p1) as [j1| |]; rewrite ?evs_mk; try exact Hp1.
  specialize (Hret1 j1 eq_refl).
  apply Forall_app. split; [exact Hp1|].
  rewrite bind_run, subscript_run.
  destruct (getitem "token" j1) as [xt|] eqn:Ext;
    rewrite ?res_mk, ?fin_mk, ?evs_mk; [|constructor].
  assert (Hxt : access_token_is w xt) by (exists j1; split; assumption).
  cbn [app].
  rewrite bind_run.
  pose proof (post_evs (registration_url config) xt (w_registration w xt)
                       c (fin p1)) as Hev2.
  pose proof (@post_ret (registration_url config) xt (w_registration w xt)
                        c (fin p1)) as Hret2.
  unfold registration_url in Hev2, Hret2.
  match goal with |- context [post ?u ?b ?h c (fin p1)] =>
    remember (post u b h c (fin p1)) as p2 eqn:E2; clear E2 end.
  assert (Hp2 : Forall (fun te => exchange_action config w (snd te)) (evs p2)).
  { rewrite Hev2. destruct (cancelled_at c (fin p1)); constructor; [|constructor].
    right. split; [reflexivity | exact Hxt]. }
  destruct (res p2) as [j2| |]; rewrite ?evs_mk; try exact Hp2.
  specialize (Hret2 j2 eq_refl).
  apply Forall_app. split; [exact Hp2|].
  rewrite bind_run, subscript_run.
  destruct (getitem "token" j2) as [tok|] eqn:Etok;
    rewrite ?res_mk, ?fin_mk, ?evs_mk; [|constructor].
  cbn [app].
  rewrite bind_run, subscript_run.
  destruct (getitem "expires_at" j2) as [ex|] eqn:Eex;
    rewrite ?res_mk, ?fin_mk, ?evs_mk; [|constructor].
  cbn [app].
  rewrite bind_run, log_run, ?res_mk, ?fin_mk, ?evs_mk.
  rewrite subscript_run, Etok, ?evs_mk.
  constructor; [|constructor].
  right. exists tok, ex. split; [|reflexivity].
  exists xt, j2. repeat split; assumption.
Qed.

(** X10.  The only things [get_registration_token] does that can be
    observed are these: it logs the fixed "Requesting ..." line; it posts
    to the access-token URL of the installation with the signed assertion
    as bearer; it posts to the registration-token URL of the organisation
    with, as bearer, the token of the first answer; and it logs one line
    made of the token and the expiry of the second answer.  So neither the
    assertion nor the access token is ever passed to [log], and the
    registration token is logged in full.  This holds on every path,
    whatever fails or is cancelled. *)
Theorem credential_exchange_actions config w c t :
  Forall (fun te => exchange_action config w (snd te))
         (evs (get_registration_token config w c t)).
Proof.
  exact (exchange_actions config w c t).
Qed.

Lemma exchange_returns_the_logged_token config w c t token :
  res (get_registration_token config w c t) = Ret token ->
  exists expires_at,
    registration_is w token expires_at
    /\ In (fin (get_registration_token config w c t),
           EvLog (token_line token expires_at))
          (evs (get_registration_token config w c t)).
Proof.
  unfold get_registration_token, generate_jwt.
  rewrite bind_run, log_run, ?res_mk, ?fin_mk, ?evs_mk.
  rewrite bind_run, ret_run, ?res_mk, ?fin_mk, ?evs_mk. cbn [app].
  rewrite bind_run.
  pose proof (@post_ret (access_url config) (w_jwt w) (w_access w) c t) as Hret1.
  unfold access_url in Hret1.
  match goal with |- context [post ?u ?b ?h c t] =>
    remember (post u b h c t) as p1 eqn:E1; clear E1 end.
  destruct (res p1) as [j1| |]; rewrite ?res_mk, ?fin_mk, ?evs_mk;
    try discriminate.
  specialize (Hret1 j1 eq_refl).
  rewrite bind_run, subscript_run.
  destruct (getitem "token" j1) as [xt|] eqn:Ext;
    rewrite ?res_mk, ?fin_mk, ?evs_mk; [|discriminate].
  cbn [app].
  rewrite bind_run.
  pose proof (@post_ret (registration_url config) xt (w_registration w xt)
                        c (fin p1)) as Hret2.
  unfold registration_url in Hret2.
  match goal with |- context [post ?u ?b ?h c (fin p1)] =>
    remember (post u b h c (fin p1)) as p2 eqn:E2; clear E2 end.
  destruct (res p2) as [j2| |]; rewrite ?res_mk, ?fin_mk, ?evs_mk;
    try discriminate.
  specialize (Hret2 j2 eq_refl).
  rewrite bind_run, subscript_run.
  destruct (getitem "token" j2) as [tok|] eqn:Etok;
    rewrite ?res_mk, ?fin_mk, ?evs_mk; [|discriminate].
  cbn [app].
  rewrite bind_run, subscript_run.
  destruct (getitem "expires_at" j2) as [ex|] eqn:Eex;
    rewrite ?res_mk, ?fin_mk, ?evs_mk; [|discriminate].
  cbn [app].
  rewrite bind_run, log_run, ?res_mk, ?fin_mk, ?evs_mk.
  rewrite subscript_run, Etok, ?res_mk, ?fin_mk, ?evs_mk.
  intros [= <-].
  exists ex. split.
  - exists xt, j2. split; [exists j1; split; assumption|].
    repeat split; assumption.
  - right. apply in_or_app. right. apply in_or_app. right.
    left. reflexivity.
Qed.

(** X11.  Whenever [get_registration_token] returns, what it returns is
    the token of the answer to the registration-token request, and by then
    it has written that token, in full, to the log, in the line
    "New registration token is <token> and expires at <expires_at>". *)
Theorem returned_token_has_been_logged config w c t token :
  res (get_registration_token config w c t) = Ret token ->
  exists expires_at,
    registration_is w token expires_at
    /\ In (fin (get_registration_token config w c t),
           EvLog (token_line token expires_at))
          (evs (get_registration_token config w c t)).
Proof.
  exact (@exchange_returns_the_logged_token config w c t token).
Qed.

Lemma returned_token_has_been_logged_witness :
  res (get_registration_token sample_config sample_world None 0)
  = Ret (txt "registration")
  /\ exists expires_at,
       registration_is sample_world (txt "registration") expires_at
       /\ In (fin (get_registration_token sample_config sample_world None 0),
              EvLog (token_line (txt "registration") expires_at))
             (evs (get_registration_token sample_config sample_world None 0)).
Proof.
  assert (H : res (get_registration_token sample_config sample_world None 0)
              = Ret (txt "registration")) by (vm_compute; reflexivity).
  split; [exact H|].
  exact (@returned_token_has_been_logged
           sample_config sample_world None 0 (txt "registration") H).
Defined.

(** The registration token is written to the log: the exchange in which
    the control plane answers with the exchange token "ghs_x9", then with
    the registration token "AABC7", logs the line
    "New registration token is AABC7 and expires at 2026-01-01T00:00:00Z". *)
Lemma the_registration_token_is_logged :
  ~ tokens_are_not_logged
      sample_config
      (with_exchange "ghs_x9" "AABC7" "2026-01-01T00:00:00Z" sample_world) None 0.
Proof.
  intros H.
  destruct (H (2, EvLog (token_line (txt "AABC7") (txt "2026-01-01T00:00:00Z")))
              (token_line (txt "AABC7") (txt "2026-01-01T00:00:00Z")))
    as [_ Hreg].
  - vm_compute. do 3 right. left. reflexivity.
  - reflexivity.
  - apply (Hreg (txt "AABC7") (txt "2026-01-01T00:00:00Z")).
    + exists (txt "ghs_x9"), (sample_json "AABC7" "2026-01-01T00:00:00Z").
      split; [|repeat split; reflexivity].
      exists (sample_json "ghs_x9" "soon"). split; reflexivity.
    + exists (txt "New registration token is "),
             (txt " and expires at 2026-01-01T00:00:00Z").
      reflexivity.
Qed.

(** C5, as the code has it.  The lines the credential exchange writes to
    the log are the fixed line "Requesting new runner registration-token to
    github ..." and, once both requests have been answered, the line
    "New registration token is <token> and expires at <expires_at>", made
    of the registration token and the expiry of the second answer.  So the
    exchange token is passed to no [log] call; the registration token is:
    whenever the exchange returns it, it has written it to the log in
    full. *)
Theorem only_the_registration_token_is_logged config w c t :
  (forall te line,
      In te (evs (get_registration_token config w c t)) ->
      snd te = EvLog line ->
      line = requesting_line
      \/ exists token expires_at,
           registration_is w token expires_at
           /\ line = token_line token expires_at)
  /\ (forall token,
        res (get_registration_token config w c t) = Ret token ->
        exists expires_at,
          registration_is w token expires_at
          /\ In (fin (get_registration_token config w c t),
                 EvLog (token_line token expires_at))
                (evs (get_registration_token config w c t))
          /\ occurs_in token (token_line token expires_at)).
Proof.
  split.
  - intros te line Hin E.
    pose proof (exchange_actions config w c t) as H.
    rewrite Forall_forall in H. specialize (H te Hin).
    rewrite E in H. exact H.
  - intros token H.
    destruct (exchange_returns_the_logged_token config w c t H)
      as (expires_at & Hreg & Hin).
    exists expires_at. split; [exact Hreg|]. split; [exact Hin|].
    exists (txt "New registration token is "),
           (txt " and expires at " ++ expires_at).
    reflexivity.
Qed.

Lemma post_answered url bearer h d t :
  h_dur h = Some d ->
  post url bearer h None t =
  MkRun (match h_end h with
         | Some j => Ret j
         | None => Raise HTTPError
         end) (t + d) [(t, EvPost url bearer)].
Proof.
  intros Hd. unfold post. rewrite bind_run, checked_run. cbn [cancelled_at].
  rewrite ?res_mk, ?fin_mk, ?evs_mk. rewrite bind_run. rewrite Hd.
  unfold block. rewrite ?res_mk, ?fin_mk, ?evs_mk.
  destruct (h_end h); rewrite ?ret_run, ?raise_run, ?res_mk, ?fin_mk, ?evs_mk;
    reflexivity.
Qed.

(** X12.  When the answer to the access-token request has no "token"
    field, [get_registration_token] raises [KeyError] as soon as the answer
    is there: the registration-token request is never sent and nothing is
    logged beyond the "Requesting ..." line. *)
Theorem missing_access_token_is_a_key_error config w t j d :
  h_end (w_access w) = Some j ->
  getitem "token" j = None ->
  h_dur (w_access w) = Some d ->
  get_registration_token config w None t =
  MkRun (Raise KeyError) (t + d)
        [(t, EvLog requesting_line);
         (t, EvPost (access_url config) (w_jwt w))].
Proof.
  intros He Hk Hd. unfold get_registration_token, generate_jwt.
  rewrite bind_run, log_run, ?res_mk, ?fin_mk, ?evs_mk.
  rewrite bind_run, ret_run, ?res_mk, ?fin_mk, ?evs_mk. cbn [app].
  rewrite bind_run.
  rewrite (@post_answered _ (w_jwt w) (w_access w) d t Hd), He.
  rewrite ?res_mk, ?fin_mk, ?evs_mk.
  rewrite bind_run, subscript_run, Hk, ?res_mk, ?fin_mk, ?evs_mk.
  reflexivity.
Qed.

Lemma missing_access_token_is_a_key_error_witness :
  res (get_registration_token
         sample_config
         (MkWorld [] never_exits never_exits never_exits (fun _ => never_exits)
                  never_exits (txt "assertion")
                  (MkHttp (Some 3) (Some [("message", txt "Bad credentials")]))
                  (fun _ => MkHttp None None) (MkAgent false [] None None 0)
                  never_exits)
         None 0) = Raise KeyError.
Proof.
  rewrite (@missing_access_token_is_a_key_error
             sample_config
             (MkWorld [] never_exits never_exits never_exits (fun _ => never_exits)
                      never_exits (txt "assertion")
                      (MkHttp (Some 3) (Some [("message", txt "Bad credentials")]))
                      (fun _ => MkHttp None None) (MkAgent false [] None None 0)
                      never_exits)
             0 [("message", txt "Bad credentials")] 3);
    reflexivity.
Defined.

(** ** Decoding in chunks *)

Lemma utf8_decode_cons b0 r0 :
  utf8_decode (b0 :: r0) =
      if in_range 0 127 b0 then push b0 (utf8_decode r0)
      else if in_range 194 223 b0 then
        match r0 with
        | [] => Decoded [] [b0]
        | b1 :: r1 =>
            if cont b1
            then push ((b0 - 192) * 64 + (b1 - 128))%Z (utf8_decode r1)
            else DecodeError
        end
      else if in_range 224 239 b0 then
        match r0 with
        | [] => Decoded [] [b0]
        | b1 :: r1 =>
            if second_ok b0 b1 then
              match r1 with
              | [] => Decoded [] [b0; b1]
              | b2 :: r2 =>
                  if cont b2
                  then push ((b0 - 224) * 4096 + (b1 - 128) * 64 + (b2 - 128))%Z
                            (utf8_decode r2)
                  else DecodeError
              end
            else if (b0 =? 237)%Z && in_range 160 191 b1 then
              match r1 with
              | [] => Decoded [] [b0; b1]
              | _ :: _ => DecodeError
              end
            else DecodeError
        end
      else if in_range 240 244 b0 then
        match r0 with
        | [] => Decoded [] [b0]
        | b1 :: r1 =>
            if second_ok b0 b1 then
              match r1 with
              | [] => Decoded [] [b0; b1]
              | b2 :: r2 =>
                  if cont b2 then
                    match r2 with
                    | [] => Decoded [] [b0; b1; b2]
                    | b3 :: r3 =>
                        if cont b3
                        then push ((b0 - 240) * 262144 + (b1 - 128) * 4096
                                   + (b2 - 128) * 64 + (b3 - 128))%Z
                                  (utf8_decode r3)
                        else DecodeError
                    end
                  else DecodeError
              end
            else DecodeError
        end
      else DecodeError.
Proof. reflexivity. Qed.

Lemma prepend_nil d : prepend [] d = d.
Proof. destruct d; reflexivity. Qed.

Lemma continue_push c d b : continue_with (push c d) b = push c (continue_with d b).
Proof.
  destruct d as [t p|]; [|reflexivity].
  cbn [push continue_with]. destruct (utf8_decode (p ++ b)); reflexivity.
Qed.

Ltac use_tests :=
  repeat match goal with
         | H : _ = true |- _ => rewrite H
         | H : _ = false |- _ => rewrite H
         end.

Lemma utf8_decode_app a b :
  utf8_decode (a ++ b) = continue_with (utf8_decode a) b.
Proof.
  functional induction (utf8_decode a);
    try (cbn [continue_with app]; rewrite prepend_nil; reflexivity);
    try (rewrite continue_push, <- IHd);
    cbn [app]; rewrite utf8_decode_cons; use_tests; reflexivity.
Qed.

(** What the decoder keeps for later is an incomplete sequence: nothing
    can be decoded from it yet. *)
Lemma pending_is_incomplete bs :
  forall t p, utf8_decode bs = Decoded t p -> utf8_decode p = Decoded [] p.
Proof.
  functional induction (utf8_decode bs); intros t p H;
    try discriminate H;
    try (injection H as <- <-; try reflexivity;
         rewrite utf8_decode_cons; use_tests; reflexivity);
    destruct (utf8_decode _) as [t' p'|] eqn:E; try discriminate H;
    cbn [push] in H; injection H as <- <-; eapply IHd; reflexivity.
Qed.

Lemma log_output_decodes runner_name chunks :
  forall pending c t,
    utf8_decode pending = Decoded [] pending ->
    res (log_output pending chunks runner_name c t) = Ret tt ->
    exists ts p,
      List.length ts = List.length chunks
      /\ map snd (evs (log_output pending chunks runner_name c t))
         = map (fun x => EvLog (indent x (runner_name ++ txt ": "))) ts
      /\ utf8_decode (pending ++ List.concat (map snd chunks))
         = Decoded (List.concat ts) p.
Proof.
  induction chunks as [|[d b] chunks IH]; intros pending c t Hp; cbn [log_output].
  - intros _. exists [], pending. cbn [map List.concat]. rewrite app_nil_r.
    split; [reflexivity|]. split; [reflexivity|]. exact Hp.
  - rewrite bind_run, block_no_action.
    destruct (res (block (Some d) c t)); rewrite ?res_mk, ?fin_mk, ?evs_mk;
      try discriminate.
    destruct (utf8_decode (pending ++ b)) as [t1 p1|] eqn:Ed;
      [|rewrite raise_run, res_mk; discriminate].
    rewrite bind_run, log_run, ?res_mk, ?fin_mk, ?evs_mk.
    intros Hr.
    destruct (IH p1 c (fin (block (Some d) c t)) (pending_is_incomplete _ Ed) Hr)
      as (ts & p & Hl & He & Hd).
    exists (t1 :: ts), p. cbn [List.length map List.concat app snd].
    split; [|split].
    + rewrite Hl. reflexivity.
    + unfold tevent in *. rewrite He. reflexivity.
    + rewrite app_assoc, utf8_decode_app, Ed. cbn [continue_with].
      rewrite Hd. reflexivity.
Qed.

(** X13.  When [log_output] has forwarded the whole stream, it has logged
    one text per chunk, each indented with "<runner_name>: ", and the
    texts, before indentation, add up to what decoding the whole byte
    stream in one piece gives: the places where the stream is cut into
    chunks, also inside a multi-byte character, lose and corrupt nothing.
    (Bytes of an incomplete last character stay in the decoder, unlogged.) *)
Theorem log_output_decodes_the_stream runner_name chunks c t :
  res (log_output [] chunks runner_name c t) = Ret tt ->
  exists ts p,
    List.length ts = List.length chunks
    /\ map snd (evs (log_output [] chunks runner_name c t))
       = map (fun x => EvLog (indent x (runner_name ++ txt ": "))) ts
    /\ utf8_decode (List.concat (map snd chunks)) = Decoded (List.concat ts) p.
Proof.
  intros H.
  exact (@log_output_decodes runner_name chunks [] c t eq_refl H).
Qed.

Lemma log_output_decodes_the_stream_witness :
  exists ts p,
    List.length ts = 2
    /\ map snd (evs (log_output [] [(0, [226; 130]%Z); (1, [172; 10]%Z)]
                                sample_name None 0))
       = map (fun x => EvLog (indent x (sample_name ++ txt ": "))) ts
    /\ utf8_decode (List.concat (map snd [(0, [226; 130]%Z); (1, [172; 10]%Z)]))
       = Decoded (List.concat ts) p.
Proof.
  apply (@log_output_decodes_the_stream
           sample_name [(0, [226; 130]%Z); (1, [172; 10]%Z)] None 0).
  vm_compute. reflexivity.
Defined.

Lemma log_output_malformed runner_name chunks :
  forall pending t,
    utf8_decode pending = Decoded [] pending ->
    utf8_decode (pending ++ List.concat (map snd chunks)) = DecodeError ->
    res (log_output pending chunks runner_name None t) = Raise UnicodeDecodeError.
Proof.
  induction chunks as [|[d b] chunks IH]; intros pending t Hp H;
    cbn [log_output].
  - exfalso. cbn [map List.concat] in H. rewrite app_nil_r, Hp in H.
    discriminate H.
  - rewrite bind_run. unfold block at 1. rewrite ?res_mk, ?fin_mk, ?evs_mk.
    cbn [map List.concat snd] in H.
    rewrite app_assoc, utf8_decode_app in H.
    destruct (utf8_decode (pending ++ b)) as [t1 p1|] eqn:Ed.
    + rewrite bind_run, log_run, ?res_mk, ?fin_mk, ?evs_mk.
      apply IH; [exact (pending_is_incomplete _ Ed)|].
      cbn [continue_with] in H.
      destruct (utf8_decode (p1 ++ List.concat (map snd chunks)));
        [discriminate H | reflexivity].
    + rewrite raise_run, res_mk. reflexivity.
Qed.

(** X14.  When the decoder, given the bytes of the stream, comes upon a
    malformed sequence (wherever the stream is cut into chunks: a chunk
    boundary does not matter), [log_output], left alone, ends with
    [UnicodeDecodeError].  (A stream that merely ends inside a character
    is not malformed: its last bytes stay in the decoder.) *)
Theorem malformed_output_raises_unicode_error runner_name chunks t :
  utf8_decode (List.concat (map snd chunks)) = DecodeError ->
  res (log_output [] chunks runner_name None t) = Raise UnicodeDecodeError.
Proof.
  intros H. apply log_output_malformed; [reflexivity | exact H].
Qed.

Lemma malformed_output_raises_unicode_error_witness :
  res (log_output [] [(0, [97; 226]%Z); (1, [40; 10]%Z)] sample_name None 0)
  = Raise UnicodeDecodeError.
Proof.
  apply malformed_output_raises_unicode_error. vm_compute. reflexivity.
Defined.

(** ** The lines of the log *)




























(** ** Provisioning, step by step *)

(** A process that [run_process] returns has run to its end. *)
Lemma run_process_ret check argv p c t r :
  res (run_process check argv p c t) = Ret r ->
  returns p c t (returncode r) (fin (run_process check argv p c t))
  /\ evs (run_process check argv p c t) = [(t, EvSpawn argv)].
Proof.
  destruct (cancelled_at c t) eqn:Hc.
  - rewrite (@run_process_cancelled check argv p c t Hc), res_mk. discriminate.
  - rewrite (@run_process_started check argv p c t Hc).
    destruct (p_end p) as [r0|] eqn:He; [|rewrite res_mk; discriminate].
    unfold wait_process, block. cbv zeta.
    destruct (p_dur p) as [d|] eqn:Hd.
    + destruct c as [tc|].
      * destruct (t + d <=? tc) eqn:Hl; rewrite ?res_mk, ?fin_mk, ?evs_mk;
          [|discriminate].
        destruct (check && negb (returncode r0 =? 0)%Z); [discriminate|].
        intros [= <-]. split; [|reflexivity].
        exists (stdout r0), d. destruct r0 as [rc out]. cbn [returncode stdout].
        split; [exact He|]. split; [exact Hd|]. split; [reflexivity|].
        split; [exact Hc|]. intros tc' [= <-]. apply Nat.leb_le. exact Hl.
      * rewrite ?res_mk, ?fin_mk, ?evs_mk.
        destruct (check && negb (returncode r0 =? 0)%Z); [discriminate|].
        intros [= <-]. split; [|reflexivity].
        exists (stdout r0), d. destruct r0 as [rc out]. cbn [returncode stdout].
        split; [exact He|]. split; [exact Hd|]. split; [reflexivity|].
        split; [exact Hc|]. intros tc' [=].
    + destruct c as [tc|]; rewrite ?res_mk; discriminate.
Qed.

(** X15.  Whatever a lifecycle does apart from logging the line
    "Provisioning: <name>" and starting [tart clone <base_image> <name>],
    it does only when the clone command has run to its end and exited with
    the status 0: a clone that fails, cannot be started, never ends or is
    cancelled is followed by no [tart set], no subtask and no
    [tart delete]. *)
Theorem nothing_but_the_clone_until_it_succeeds config w c t te :
  In te (evs (runner config w c t)) ->
  te <> (t, EvLog (txt "Provisioning: " ++ name_of config w)) ->
  te <> (t, EvSpawn (clone_argv config w)) ->
  exists t0, returns (w_clone w) c t 0 t0.
Proof.
  intros Hin Hlog Hclone.
  unfold runner in Hin. rewrite bind_run in Hin.
  unfold provision_tart_vm in Hin. cbv zeta in Hin.
  rewrite bind_run, log_run, ?res_mk, ?fin_mk, ?evs_mk in Hin.
  rewrite bind_run in Hin.
  match type of Hin with
  | context [run_process true ?a (w_clone w) c t] =>
      pose proof (@run_process_ret true a (w_clone w) c t) as Hret;
      pose proof (run_process_evs true a (w_clone w) c t) as Hev;
      pose proof (@run_process_checked a (w_clone w) c t) as Hzero;
      remember (run_process true a (w_clone w) c t) as r1 eqn:E1 in *
  end.
  clear E1.
  destruct (res r1) as [r| |] eqn:Er.
  - destruct (Hret r eq_refl) as [H _]. rewrite (Hzero r eq_refl) in H.
    exists (fin r1). exact H.
  - exfalso. cbv iota in Hin. rewrite ?res_mk, ?fin_mk, ?evs_mk in Hin.
    rewrite Hev in Hin.
    destruct (cancelled_at c t); cbn [app In] in Hin.
    + destruct Hin as [<-|[]]. apply Hlog. reflexivity.
    + destruct Hin as [<-|[<-|[]]]; [apply Hlog | apply Hclone]; reflexivity.
  - exfalso. cbv iota in Hin. rewrite ?res_mk, ?fin_mk, ?evs_mk in Hin.
    rewrite Hev in Hin.
    destruct (cancelled_at c t); cbn [app In] in Hin.
    + destruct Hin as [<-|[]]. apply Hlog. reflexivity.
    + destruct Hin as [<-|[<-|[]]]; [apply Hlog | apply Hclone]; reflexivity.
Qed.

Lemma nothing_but_the_clone_until_it_succeeds_witness :
  exists t0, returns (w_clone sample_world) None 0 0 t0.
Proof.
  apply (@nothing_but_the_clone_until_it_succeeds
           sample_config sample_world None 0 (9, EvCleanup)).
  - vm_compute. repeat (try (left; reflexivity); right).
  - discriminate.
  - discriminate.
Defined.

(** ** The names of the runners *)

Lemma hex_digit_inj a b :
  (0 <= a < 16)%Z -> (0 <= b < 16)%Z -> hex_digit a = hex_digit b -> a = b.
Proof.
  unfold hex_digit. intros Ha Hb.
  destruct (a <? 10)%Z eqn:Ea, (b <? 10)%Z eqn:Eb;
    try apply Z.ltb_lt in Ea; try apply Z.ltb_ge in Ea;
    try apply Z.ltb_lt in Eb; try apply Z.ltb_ge in Eb; lia.
Qed.

Lemma hex_digit_is_hex a : (0 <= a < 16)%Z -> is_hex_digit (hex_digit a) = true.
Proof.
  unfold hex_digit, is_hex_digit, in_range. intros Ha.
  destruct (a <? 10)%Z eqn:Ea;
    [apply Z.ltb_lt in Ea | apply Z.ltb_ge in Ea];
    apply orb_true_iff; [left | right]; apply andb_true_iff;
    split; apply Z.leb_le; lia.
Qed.

Lemma byte_digits b :
  in_range 0 255 b = true ->
  (0 <= b / 16 < 16)%Z /\ (0 <= b mod 16 < 16)%Z
  /\ b = (16 * (b / 16) + b mod 16)%Z.
Proof.
  unfold in_range. intros H. apply andb_true_iff in H. destruct H as [H0 H1].
  apply Z.leb_le in H0, H1.
  split; [split; [apply Z.div_pos; lia | apply Z.div_lt_upper_bound; lia]|].
  split; [apply Z.mod_pos_bound; lia | apply Z.div_mod; lia].
Qed.

Lemma hexlify_inj a :
  forall b,
    forallb (in_range 0 255) a = true -> forallb (in_range 0 255) b = true ->
    hexlify a = hexlify b -> a = b.
Proof.
  unfold hexlify.
  induction a as [|x a IH]; intros [|y b] Ha Hb H; cbn [flat_map app] in H;
    try discriminate H; [reflexivity|].
  cbn [forallb] in Ha, Hb.
  apply andb_true_iff in Ha, Hb. destruct Ha as [Hx Ha], Hb as [Hy Hb].
  injection H as H1 H2 H3.
  destruct (byte_digits x Hx) as (Hxh & Hxl & Ex).
  destruct (byte_digits y Hy) as (Hyh & Hyl & Ey).
  apply hex_digit_inj in H1; [|assumption|assumption].
  apply hex_digit_inj in H2; [|assumption|assumption].
  f_equal; [lia | apply IH; assumption].
Qed.

Lemma hexlify_digits a :
  forallb (in_range 0 255) a = true ->
  List.length (hexlify a) = 2 * List.length a
  /\ forallb is_hex_digit (hexlify a) = true.
Proof.
  unfold hexlify.
  induction a as [|x a IH]; intros Ha; cbn [flat_map app forallb List.length].
  - split; reflexivity.
  - cbn [forallb] in Ha. apply andb_true_iff in Ha. destruct Ha as [Hx Ha].
    destruct (IH Ha) as [IH1 IH2].
    destruct (byte_digits x Hx) as (Hxh & Hxl & _).
    split; [rewrite IH1; lia|].
    rewrite (hex_digit_is_hex Hxh), (hex_digit_is_hex Hxl), IH2. reflexivity.
Qed.

(** X16.  The name a lifecycle gives its VM is the configured base name, a
    dash and two lowercase hexadecimal digits for each random byte, and two
    lifecycles that draw different random bytes get different names. *)
Theorem runner_names_differ_when_the_random_bytes_do
        config w1 w2 c1 t1 c2 t2 n1 n2 :
  forallb (in_range 0 255) (w_urandom w1) = true ->
  forallb (in_range 0 255) (w_urandom w2) = true ->
  res (provision_tart_vm config w1 c1 t1) = Ret n1 ->
  res (provision_tart_vm config w2 c2 t2) = Ret n2 ->
  (exists suffix,
      n1 = runner_base_name config ++ txt "-" ++ suffix
      /\ List.length suffix = 2 * List.length (w_urandom w1)
      /\ forallb is_hex_digit suffix = true)
  /\ (n1 = n2 -> w_urandom w1 = w_urandom w2).
Proof.
  intros Hb1 Hb2 H1 H2.
  apply provision_returns_the_name in H1, H2. subst n1 n2.
  split.
  - exists (hexlify (w_urandom w1)).
    destruct (hexlify_digits _ Hb1) as [Hl Hd].
    split; [reflexivity|]. split; assumption.
  - unfold name_of. intros E.
    apply app_inv_head in E. apply app_inv_head in E.
    apply hexlify_inj; assumption.
Qed.

Lemma runner_names_differ_when_the_random_bytes_do_witness :
  (exists suffix,
      sample_name = runner_base_name sample_config ++ txt "-" ++ suffix
      /\ List.length suffix = 2 * List.length (w_urandom sample_world)
      /\ forallb is_hex_digit suffix = true)
  /\ (sample_name = sample_name -> w_urandom sample_world = w_urandom sample_world).
Proof.
  apply (@runner_names_differ_when_the_random_bytes_do
           sample_config sample_world sample_world None 0 None 5
           sample_name sample_name);
    vm_compute; reflexivity.
Defined.

(** ** The steps of the session *)

Lemma get_tart_ip_only_polls ip runner_name retries c t :
  Forall (fun te => snd te = EvSpawn (tart_ip_argv runner_name))
         (evs (get_tart_ip ip runner_name retries c t)).
Proof.
  assert (H : exists n, map snd (evs (get_tart_ip ip runner_name retries c t))
                        = repeat (EvSpawn (tart_ip_argv runner_name)) n).
  { unfold get_tart_ip. rewrite bind_run.
    destruct (get_tart_ip_loop_attempts ip runner_name retries 0 c t)
      as (n & _ & E).
    remember (get_tart_ip_loop ip runner_name 0 retries c t) as l eqn:El. clear El.
    exists n.
    destruct (res l) as [[r|]| |]; rewrite ?evs_mk; try exact E.
    - destruct (decode_ascii (stdout r));
        rewrite ?ret_run, ?raise_run, ?evs_mk, app_nil_r; exact E.
    - rewrite raise_run, evs_mk, app_nil_r. exact E. }
  destruct H as (n & E).
  apply Forall_forall. intros te Hin.
  apply (in_map snd) in Hin. unfold tevent in *. rewrite E in Hin.
  apply repeat_spec in Hin. exact Hin.
Qed.

Lemma copy_that_does_not_succeed config w runner_name ip c t :
  (forall t1, ~ returns (w_scp w) c t 0 t1) ->
  Forall (fun te => before_the_token config runner_name (snd te))
         (evs (scp_actions_runner config w ip c t))
  /\ res (scp_actions_runner config w ip c t) <> Ret tt.
Proof.
  intros Hscp. unfold scp_actions_runner. fold (scp_argv config ip).
  rewrite bind_run, log_run, ?res_mk, ?fin_mk, ?evs_mk.
  rewrite bind_run.
  pose proof (@run_process_ret true (scp_argv config ip) (w_scp w) c t) as Hret.
  pose proof (run_process_evs true (scp_argv config ip) (w_scp w) c t) as Hev.
  pose proof (@run_process_checked (scp_argv config ip) (w_scp w) c t) as Hzero.
  remember (run_process true (scp_argv config ip) (w_scp w) c t) as r eqn:Er.
  clear Er.
  assert (Hcopy : Forall (fun te => before_the_token config runner_name (snd te))
                         ((t, EvLog (txt "Copying files to VM")) :: evs r)).
  { constructor; [right; left; reflexivity|].
    rewrite Hev. destruct (cancelled_at c t); constructor; [|constructor].
    right; right. exists ip. reflexivity. }
  destruct (res r) as [x| |] eqn:Ex; rewrite ?res_mk, ?fin_mk, ?evs_mk.
  - exfalso. destruct (Hret x eq_refl) as [H _].
    rewrite (Hzero x eq_refl) in H. exact (Hscp _ H).
  - split; [exact Hcopy | discriminate].
  - split; [exact Hcopy | discriminate].
Qed.

(** X17.  When the copy of the files to the VM, started at the time [ts]
    at which the address resolution ends, does not run to its end with the
    status 0 (it exits with another status, cannot be started, never ends,
    or is cancelled before its end), the session goes no further: it has
    polled for the address, logged "Copying files to VM" and started [scp],
    and that is all.  No token is requested from the control plane, the
    agent is not launched, "Copied files to VM" is not logged, and the
    session does not return. *)
Theorem no_token_is_requested_unless_the_copy_succeeded
        config w runner_name c t ts :
  fin (get_tart_ip (w_ip w) runner_name 4 c t) = ts ->
  (forall t1, ~ returns (w_scp w) c ts 0 t1) ->
  Forall (fun te => before_the_token config runner_name (snd te))
         (evs (execution_session config w runner_name c t))
  /\ res (execution_session config w runner_name c t) <> Ret tt.
Proof.
  intros Hts Hscp. unfold execution_session. rewrite bind_run.
  pose proof (get_tart_ip_only_polls (w_ip w) runner_name 4 c t) as Hip.
  remember (get_tart_ip (w_ip w) runner_name 4 c t) as g eqn:Eg. clear Eg.
  assert (Hpoll : Forall (fun te => before_the_token config runner_name (snd te))
                         (evs g)).
  { eapply Forall_impl; [|exact Hip]. intros te E. left. exact E. }
  destruct (res g) as [ip| |]; rewrite ?res_mk, ?fin_mk, ?evs_mk;
    [|split; [exact Hpoll | discriminate]..].
  rewrite bind_run. rewrite Hts.
  destruct (@copy_that_does_not_succeed config w runner_name ip c ts Hscp)
    as [Hev Hres].
  remember (scp_actions_runner config w ip c ts) as s eqn:Es. clear Es.
  destruct (res s) as [[]| |]; rewrite ?res_mk, ?fin_mk, ?evs_mk.
  - contradiction.
  - split; [|discriminate]. apply Forall_app. split; [exact Hpoll | exact Hev].
  - split; [|discriminate]. apply Forall_app. split; [exact Hpoll | exact Hev].
Qed.

(** The copy would take five time units from 3 on; the scope is cancelled
    at 5. *)
Lemma no_token_is_requested_unless_the_copy_succeeded_witness :
  Forall (fun te => before_the_token sample_config sample_name (snd te))
         (evs (execution_session sample_config
                                 (with_scp (exits 5 0 []) sample_world)
                                 sample_name (Some 5) 2))
  /\ res (execution_session sample_config (with_scp (exits 5 0 []) sample_world)
                            sample_name (Some 5) 2) <> Ret tt.
Proof.
  apply (@no_token_is_requested_unless_the_copy_succeeded
           sample_config (with_scp (exits 5 0 []) sample_world) sample_name
           (Some 5) 2 3).
  - vm_compute. reflexivity.
  - intros t1 (out & d & _ & Hd & Ht & _ & Hl).
    injection Hd as <-. specialize (Hl 5 eq_refl). lia.
Defined.

(** ** A VM that stops *)

(** [tart run] is not checked: when the VM process ends, the monitor
    cancels the scope and returns, whatever the exit status. *)
Lemma vm_monitor_returns w runner_name t r d :
  p_end (w_vm w) = Some r -> p_dur (w_vm w) = Some d ->
  run_vm_then_cancel w runner_name None t
  = MkRun (Ret tt) (t + d)
          [(t, EvSpawn [txt "tart"; txt "run"; runner_name; txt "--no-graphics"]);
           (t + d, EvCancelScope VmMonitor)].
Proof.
  intros He Hd. unfold run_vm_then_cancel. rewrite try_finally_run.
  unfold vm_process. rewrite bind_run.
  rewrite (@run_process_started false
             [txt "tart"; txt "run"; runner_name; txt "--no-graphics"]
             (w_vm w) None t eq_refl).
  rewrite He.
  rewrite (@wait_process_in_time (w_vm w) None t d Hd)
    by (intros tc [=]).
  rewrite ?res_mk, ?fin_mk, ?evs_mk.
  cbn [andb]. rewrite ?res_mk, ?fin_mk, ?evs_mk.
  rewrite ret_run, emit_run, ?res_mk, ?fin_mk, ?evs_mk.
  reflexivity.
Qed.

Lemma cleanup_that_does_not_fail w runner_name t :
  delete_does_not_fail w ->
  res (cleanup_outcome w runner_name t) = Ret tt.
Proof.
  intros (r & He & H). unfold cleanup_outcome. cbv zeta. rewrite He.
  destruct (p_dur (w_delete w)) as [d|]; [|reflexivity].
  destruct (d <=? 5) eqn:E; [|reflexivity].
  apply Nat.leb_le in E. rewrite res_mk.
  destruct H as [H | H]; [|specialize (H d eq_refl); lia].
  rewrite H. reflexivity.
Qed.

(** The nursery when its first child is the first to cancel the scope. *)
Lemma nursery2_first_child_first (a b : M unit) c t ta :
  first_cancel (evs (a c t)) = Some ta ->
  (forall tb, first_cancel (evs (b c t)) = Some tb -> ta <= tb) ->
  nursery2 a b c t = nursery_exit c true (a c t) (b (omin (Some ta) c) t).
Proof.
  intros Ha Hb. unfold nursery2, scope_cancel, cancels_first. cbv zeta.
  rewrite Ha.
  destruct (first_cancel (evs (b c t))) as [tb|]; cbn [omin].
  - specialize (Hb tb eq_refl).
    replace (Nat.min ta tb) with ta by lia.
    apply Nat.leb_le in Hb. rewrite Hb. reflexivity.
  - reflexivity.
Qed.

Lemma later_exit {A} (r : run A) tv tb :
  res r = Hang \/ tv < fin r -> exit_time r = Some tb -> tv <= tb.
Proof.
  unfold exit_time. intros [H | H].
  - rewrite H. discriminate.
  - destruct (res r); try discriminate; intros [= <-]; lia.
Qed.

(** The nursery when the VM stops first: the session is cancelled, and the
    nursery is left without an exception. *)
Lemma subtasks_when_the_vm_stops config w runner_name t r d :
  p_end (w_vm w) = Some r -> p_dur (w_vm w) = Some d ->
  res (run_runner_then_cancel config w runner_name None t) = Hang
  \/ t + d < fin (run_runner_then_cancel config w runner_name None t) ->
  (forall e, res (run_runner_then_cancel config w runner_name (Some (t + d)) t)
             <> Raise (Group e)) ->
  res (subtasks config w runner_name None t) = Ret tt.
Proof.
  intros He Hd Hs Hg.
  pose proof (@cancelled_when_scope_cancelled _
                (run_runner_then_cancel config w runner_name) None (t + d) t
                (prompt_run_runner_then_cancel config w runner_name)
                (stable_run_runner_then_cancel config w runner_name)
                (Nat.le_add_r t d) Hs) as Hc.
  cbn [omin] in Hc.
  destruct (session_cancels_on_exit config w runner_name None t) as [Hfc _].
  pose proof (vm_monitor_returns w runner_name t He Hd) as Hvm.
  assert (Hres : res (run_vm_then_cancel w runner_name None t) = Ret tt)
    by (rewrite Hvm; reflexivity).
  assert (Hfirst : first_cancel (evs (run_vm_then_cancel w runner_name None t))
                   = Some (t + d))
    by (rewrite Hvm; reflexivity).
  clear Hvm.
  unfold subtasks.
  rewrite (@nursery2_first_child_first
             (run_vm_then_cancel w runner_name)
             (run_runner_then_cancel config w runner_name) None t (t + d) Hfirst).
  - unfold nursery_exit. cbn [omin].
    remember (run_vm_then_cancel w runner_name None t) as na eqn:Ea.
    remember (run_runner_then_cancel config w runner_name (Some (t + d)) t)
      as nb' eqn:Eb'.
    clear Ea Eb'.
    rewrite res_mk, Hres.
    destruct (res nb') as [[]|e|]; try contradiction.
    destruct e; try contradiction; [reflexivity|].
    exfalso. exact (Hg e eq_refl).
  - intros tb Htb. eapply later_exit; [exact Hs|]. rewrite <- Hfc. exact Htb.
Qed.

(** A lifecycle whose parts all end well returns. *)
Lemma lifecycle_returns config w c t name :
  res (provision_tart_vm config w c t) = Ret name ->
  res (subtasks config w name c (fin (provision_tart_vm config w c t))) = Ret tt ->
  (forall t', res (cleanup_outcome w name t') = Ret tt) ->
  res (runner config w c t) = Ret tt.
Proof.
  intros Hp Hn Hk.
  rewrite runner_lifecycle. unfold lifecycle. cbv zeta. rewrite Hp.
  remember (provision_tart_vm config w c t) as p eqn:Ep. clear Ep Hp.
  remember (subtasks config w name c (fin p)) as n eqn:En. clear En.
  rewrite Hn. specialize (Hk (fin n)).
  remember (cleanup_outcome w name (fin n)) as k eqn:Ek. clear Ek.
  rewrite res_mk, Hk. reflexivity.
Qed.

Lemma returned_quietly config w retries c t :
  res (runner config w c t) = Ret tt ->
  res (iteration config w retries c t) = Ret 0
  /\ Forall (fun te => forall secs e,
                 snd te <> EvSleep secs /\ snd te <> EvFailed e)
            (evs (iteration config w retries c t)).
Proof.
  intros Hr.
  pose proof (runner_no_supervisor_event config w c t) as Hq.
  rewrite (@iteration_returned config w retries c t Hr).
  remember (runner config w c t) as l eqn:El. clear El.
  rewrite res_mk, evs_mk.
  split; [reflexivity|].
  apply Forall_app. split.
  - eapply Forall_impl; [|exact Hq]. intros te H secs e.
    cbv beta in H.
    destruct (snd te); cbn [is_supervisor_event] in H; try discriminate H;
      split; discriminate.
  - constructor; [|constructor]. intros secs e. split; discriminate.
Qed.

(** X18.  A VM that stops is not a failure.  When no shutdown is under way
    and the VM process ends, with whatever exit status, while the session
    is still going on and has not failed by itself, the session is
    cancelled and the lifecycle returns normally, provided the delete
    command does not fail: the supervisor sets [retries] to 0 and goes on
    to the next lifecycle without any backoff sleep. *)
Theorem a_stopped_vm_is_not_a_failure config w retries t name r d t1 :
  res (provision_tart_vm config w None t) = Ret name ->
  fin (provision_tart_vm config w None t) = t1 ->
  p_end (w_vm w) = Some r ->
  p_dur (w_vm w) = Some d ->
  res (run_runner_then_cancel config w name None t1) = Hang
  \/ t1 + d < fin (run_runner_then_cancel config w name None t1) ->
  (forall e,
      res (run_runner_then_cancel config w name (Some (t1 + d)) t1)
      <> Raise (Group e)) ->
  delete_does_not_fail w ->
  res (iteration config w retries None t) = Ret 0
  /\ Forall (fun te => forall secs e,
                 snd te <> EvSleep secs /\ snd te <> EvFailed e)
            (evs (iteration config w retries None t)).
Proof.
  intros Hp Ht1 He Hd Hs Hg Hdel.
  apply returned_quietly.
  apply (@lifecycle_returns config w None t name Hp).
  - rewrite Ht1.
    exact (@subtasks_when_the_vm_stops config w name t1 r d He Hd Hs Hg).
  - intros t'. exact (@cleanup_that_does_not_fail w name t' Hdel).
Qed.

Lemma a_stopped_vm_is_not_a_failure_witness :
  res (iteration sample_config (with_vm (exits 3 1 []) sample_world) 2 None 0)
  = Ret 0
  /\ Forall (fun te => forall secs e,
                 snd te <> EvSleep secs /\ snd te <> EvFailed e)
            (evs (iteration sample_config (with_vm (exits 3 1 []) sample_world)
                            2 None 0)).
Proof.
  apply (@a_stopped_vm_is_not_a_failure
           sample_config (with_vm (exits 3 1 []) sample_world) 2 0 sample_name
           (MkCompleted 1 []) 3 2).
  - vm_compute. reflexivity.
  - vm_compute. reflexivity.
  - reflexivity.
  - reflexivity.
  - right. vm_compute. lia.
  - intros e. vm_compute. discriminate.
  - exists (MkCompleted 0 []). split; [reflexivity | left; reflexivity].
Defined.

(** ** An address that is not resolved *)

(** The nursery when its second child is the first to cancel the scope. *)
Lemma nursery2_second_child_first (a b : M unit) c t tb :
  first_cancel (evs (b c t)) = Some tb ->
  (forall ta, first_cancel (evs (a c t)) = Some ta -> tb < ta) ->
  nursery2 a b c t = nursery_exit c true (b c t) (a (omin (Some tb) c) t).
Proof.
  intros Hb Ha. unfold nursery2, scope_cancel, cancels_first. cbv zeta.
  rewrite Hb.
  destruct (first_cancel (evs (a c t))) as [ta|]; cbn [omin].
  - specialize (Ha ta eq_refl).
    replace (Nat.min ta tb) with tb by lia.
    assert (E : (ta <=? tb) = false) by (apply Nat.leb_gt; exact Ha).
    rewrite E. reflexivity.
  - reflexivity.
Qed.

(** The VM monitor ends with what [run_process] ends with: never with a
    group. *)
Lemma vm_monitor_no_group w runner_name c t e :
  res (run_vm_then_cancel w runner_name c t) <> Raise (Group e).
Proof.
  unfold run_vm_then_cancel. rewrite try_finally_run.
  unfold vm_process. rewrite bind_run.
  match goal with |- context [run_process false ?a (w_vm w) c t] =>
    pose proof (run_process_res false a (w_vm w) c t) as H;
    remember (run_process false a (w_vm w) c t) as r eqn:Er; clear Er
  end.
  destruct H as [(x & E & _)|[(rc & E & _)|[E|[E|E]]]]; rewrite E;
    rewrite ?res_mk, ?fin_mk, ?evs_mk; cbv iota;
    rewrite ?ret_run, ?emit_run, ?res_mk; discriminate.
Qed.

(** The session when the address is not resolved. *)
Lemma session_without_address config w runner_name c t e :
  res (get_tart_ip (w_ip w) runner_name 4 c t) = Raise e ->
  res (run_runner_then_cancel config w runner_name c t) = Raise e
  /\ fin (run_runner_then_cancel config w runner_name c t)
     = fin (get_tart_ip (w_ip w) runner_name 4 c t).
Proof.
  intros H. unfold run_runner_then_cancel. rewrite try_finally_run.
  unfold execution_session. rewrite bind_run.
  remember (get_tart_ip (w_ip w) runner_name 4 c t) as g eqn:Eg. clear Eg.
  rewrite H, ?res_mk, ?fin_mk, ?evs_mk. cbv iota.
  rewrite emit_run, ?res_mk, ?fin_mk. split; reflexivity.
Qed.

(** The nursery when the session fails while the VM is running: the VM is
    stopped, and the nursery is left with the exception of the session. *)
Lemma subtasks_when_the_session_fails config w runner_name t e ts :
  res (run_runner_then_cancel config w runner_name None t) = Raise e ->
  is_Exception e = true ->
  fin (run_runner_then_cancel config w runner_name None t) = ts ->
  res (run_vm_then_cancel w runner_name None t) = Hang
  \/ ts < fin (run_vm_then_cancel w runner_name None t) ->
  res (subtasks config w runner_name None t) = Raise e.
Proof.
  intros Hr He Hts Hvm.
  assert (Hle : t <= ts).
  { rewrite <- Hts. apply forward_run_runner_then_cancel. }
  pose proof (@cancelled_when_scope_cancelled _
                (run_vm_then_cancel w runner_name) None ts t
                (prompt_run_vm_then_cancel w runner_name)
                (stable_run_vm_then_cancel w runner_name) Hle Hvm) as Hc.
  cbn [omin] in Hc.
  pose proof (@vm_monitor_no_group w runner_name (Some ts) t) as Hg.
  destruct (session_cancels_on_exit config w runner_name None t) as [Hfc _].
  destruct (vm_cancels_on_exit w runner_name None t) as [Hfa _].
  assert (Hfirst : first_cancel
                     (evs (run_runner_then_cancel config w runner_name None t))
                   = Some ts).
  { rewrite Hfc. unfold exit_time. rewrite Hr, Hts. reflexivity. }
  unfold subtasks.
  rewrite (@nursery2_second_child_first
             (run_vm_then_cancel w runner_name)
             (run_runner_then_cancel config w runner_name) None t ts Hfirst).
  - unfold nursery_exit. cbn [omin cancelled_at].
    remember (run_runner_then_cancel config w runner_name None t) as nb eqn:Eb.
    remember (run_vm_then_cancel w runner_name (Some ts) t) as na' eqn:Ea'.
    clear Eb Ea'.
    rewrite res_mk, Hr.
    destruct (res na') as [[]|x|]; try contradiction.
    destruct x; try contradiction.
    + destruct e; try discriminate He; reflexivity.
    + exfalso. exact (Hg x eq_refl).
  - intros ta Hta. rewrite Hfa in Hta. unfold exit_time in Hta.
    destruct Hvm as [Hh | Hlt].
    + rewrite Hh in Hta. discriminate Hta.
    + destruct (res (run_vm_then_cancel w runner_name None t));
        try discriminate Hta; injection Hta as <-; exact Hlt.
Qed.

(** A lifecycle whose subtasks end with an exception fails with an
    exception the supervisor catches: that one, or the one of the
    cleanup. *)
Lemma lifecycle_fails config w c t name e :
  res (provision_tart_vm config w c t) = Ret name ->
  res (subtasks config w name c (fin (provision_tart_vm config w c t))) = Raise e ->
  is_Exception e = true ->
  exists e',
    res (runner config w c t) = Raise e'
    /\ is_Exception e' = true
    /\ (delete_does_not_fail w -> e' = e).
Proof.
  intros Hp Hn He.
  rewrite runner_lifecycle. unfold lifecycle. cbv zeta. rewrite Hp.
  remember (provision_tart_vm config w c t) as p eqn:Ep. clear Ep Hp.
  remember (subtasks config w name c (fin p)) as n eqn:En. clear En.
  rewrite Hn.
  pose proof (@cleanup_that_does_not_fail w name (fin n)) as Hok.
  assert (Hk : res (cleanup_outcome w name (fin n)) = Ret tt
               \/ exists x, res (cleanup_outcome w name (fin n)) = Raise x
                            /\ is_Exception x = true).
  { unfold cleanup_outcome. cbv zeta.
    destruct (p_end (w_delete w)) as [r|];
      [|right; exists FileNotFoundError; split; reflexivity].
    destruct (p_dur (w_delete w)) as [d|]; [|left; reflexivity].
    destruct (d <=? 5); [|left; reflexivity].
    rewrite res_mk. destruct (returncode r =? 0)%Z; [left; reflexivity|].
    right. exists (CalledProcessError (returncode r)). split; reflexivity. }
  remember (cleanup_outcome w name (fin n)) as k eqn:Ek. clear Ek.
  rewrite res_mk.
  destruct Hk as [Hk | (x & Hk & Hx)]; rewrite Hk.
  - exists e. split; [reflexivity|]. split; [exact He | reflexivity].
  - exists x. split; [reflexivity|]. split; [exact Hx|].
    intros Hd. specialize (Hok Hd). rewrite Hok in Hk. discriminate Hk.
Qed.

(** C9.  The address resolution of the session makes at most 4 attempts,
    each of them [tart ip <name> --wait 3], the command that waits for at
    most 3 seconds.  When each of the 4 attempts ends with a non-zero
    status, it returns no address: it raises an error
    ([UnboundLocalError], after exactly 4 attempts), the session ends with
    that error, and, the VM being stopped and the cleanup done, the
    lifecycle fails with an exception the supervisor catches and counts as
    a failure (the error of the address resolution, unless the delete
    command fails too). *)
Theorem unresolved_address_fails_the_lifecycle config w retries t name t1 ts :
  (forall i, i < 4 -> attempt_fails (w_ip w i)) ->
  res (provision_tart_vm config w None t) = Ret name ->
  fin (provision_tart_vm config w None t) = t1 ->
  fin (get_tart_ip (w_ip w) name 4 None t1) = ts ->
  res (run_vm_then_cancel w name None t1) = Hang
  \/ ts < fin (run_vm_then_cancel w name None t1) ->
  (forall c t0, exists n,
      n <= 4
      /\ map snd (evs (get_tart_ip (w_ip w) name 4 c t0))
         = repeat (EvSpawn (tart_ip_argv name)) n)
  /\ res (get_tart_ip (w_ip w) name 4 None t1) = Raise UnboundLocalError
  /\ List.length (evs (get_tart_ip (w_ip w) name 4 None t1)) = 4
  /\ res (run_runner_then_cancel config w name None t1) = Raise UnboundLocalError
  /\ exists e,
       counted_as_failure config w retries None t e
       /\ (delete_does_not_fail w -> e = UnboundLocalError).
Proof.
  intros Hfail Hp Ht1 Hts Hvm.
  assert (Hip : res (get_tart_ip (w_ip w) name 4 None t1) = Raise UnboundLocalError
                /\ List.length (evs (get_tart_ip (w_ip w) name 4 None t1)) = 4).
  { unfold get_tart_ip. rewrite bind_run.
    destruct (@get_tart_ip_loop_exhausted (w_ip w) name 4 0 t1) as [H1 H2].
    { intros i Hi. apply Hfail. lia. }
    rewrite H1, res_mk, evs_mk, raise_run, res_mk, evs_mk, app_nil_r.
    split; [reflexivity | exact H2]. }
  destruct Hip as [Hip Hlen].
  destruct (@session_without_address config w name None t1 UnboundLocalError Hip)
    as [Hs Hsf].
  split.
  { intros c t0. unfold get_tart_ip. rewrite bind_run.
    destruct (get_tart_ip_loop_attempts (w_ip w) name 4 0 c t0) as (n & Hn & E).
    remember (get_tart_ip_loop (w_ip w) name 0 4 c t0) as l eqn:El. clear El.
    exists n. split; [exact Hn|].
    destruct (res l) as [[r|]| |]; rewrite ?evs_mk; try exact E.
    - destruct (decode_ascii (stdout r));
        rewrite ?ret_run, ?raise_run, ?evs_mk, app_nil_r; exact E.
    - rewrite raise_run, evs_mk, app_nil_r. exact E. }
  split; [exact Hip|]. split; [exact Hlen|]. split; [exact Hs|].
  assert (Hn : res (subtasks config w name None t1) = Raise UnboundLocalError).
  { apply (@subtasks_when_the_session_fails config w name t1 UnboundLocalError ts Hs
             eq_refl).
    - rewrite Hsf. exact Hts.
    - exact Hvm. }
  rewrite <- Ht1 in Hn.
  destruct (@lifecycle_fails config w None t name UnboundLocalError Hp Hn eq_refl)
    as (e & Hr & He & Hd).
  exists e. split; [|exact Hd].
  exact (@failure_is_counted config w retries None t e Hr He).
Qed.

Lemma unresolved_address_fails_the_lifecycle_witness :
  counted_as_failure sample_config (with_ip (fun _ => exits 1 1 []) sample_world)
                     0 None 0 UnboundLocalError.
Proof.
  destruct (@unresolved_address_fails_the_lifecycle
              sample_config (with_ip (fun _ => exits 1 1 []) sample_world)
              0 0 sample_name 2 6)
    as (_ & _ & _ & _ & e & Hc & He).
  - intros i _. exists (MkCompleted 1 []), 1.
    split; [reflexivity|]. split; [discriminate | reflexivity].
  - vm_compute. reflexivity.
  - vm_compute. reflexivity.
  - vm_compute. reflexivity.
  - left. vm_compute. reflexivity.
  - rewrite <- He; [exact Hc|].
    exists (MkCompleted 0 []). split; [reflexivity | left; reflexivity].
Defined.

(** ** Startup *)

Lemma startup_checks_run host c t :
  startup_checks host c t
  = startup_outcome host (run_process true version_argv (host_tart host) c t).
Proof.
  unfold startup_checks, startup_outcome, tart_not_found, version_argv.
  rewrite bind_run, try_except_run, bind_run.
  remember (run_process true [txt "tart"; txt "--version"] (host_tart host) c t)
    as r eqn:Er.
  clear Er.
  destruct (res r) as [x|e|] eqn:Ex; rewrite ?res_mk, ?fin_mk, ?evs_mk.
  - rewrite ret_run, ?res_mk, ?fin_mk, ?evs_mk, app_nil_r.
    destruct (host_archive host); cbn [negb].
    + rewrite ret_run, ?res_mk, ?fin_mk, ?evs_mk, app_nil_r. reflexivity.
    + rewrite bind_run, log_run, ?res_mk, ?fin_mk, ?evs_mk.
      rewrite raise_run, ?res_mk, ?fin_mk, ?evs_mk, app_nil_r. reflexivity.
  - destruct e; rewrite ?res_mk, ?fin_mk, ?evs_mk; try reflexivity.
    destruct (host_path host) as [path|].
    + rewrite bind_run, log_run, ?res_mk, ?fin_mk, ?evs_mk.
      rewrite raise_run, ?res_mk, ?fin_mk, ?evs_mk, app_nil_r. reflexivity.
    + rewrite raise_run, ?res_mk, ?fin_mk, ?evs_mk, app_nil_r. reflexivity.
  - reflexivity.
Qed.

Lemma run_process_no_exit check argv p c t code :
  res (run_process check argv p c t) <> Raise (SystemExit code).
Proof.
  destruct (run_process_res check argv p c t)
    as [(r & E & _)|[(rc & E & _)|[E|[E|E]]]]; rewrite E; discriminate.
Qed.

(** X19.  [startup_checks] returns exactly when [tart --version] has run to
    its end with the status 0 and the archive of the runner is in place.
    When it ends the program ([SystemExit], always with the status 1), it
    has just logged the reason.  Whatever happens, the only process it
    starts is [tart --version]. *)
Theorem startup_checks_pass_only_on_a_working_host host c t :
  (res (startup_checks host c t) = Ret tt
   <-> (exists t', returns (host_tart host) c t 0 t')
       /\ host_archive host = true)
  /\ (forall code,
        res (startup_checks host c t) = Raise (SystemExit code) ->
        code = 1%Z
        /\ exists line,
             In (fin (startup_checks host c t), EvLog line)
                (evs (startup_checks host c t)))
  /\ (forall te argv,
        In te (evs (startup_checks host c t)) ->
        snd te = EvSpawn argv -> argv = version_argv).
Proof.
  rewrite startup_checks_run.
  pose proof (@run_process_ret true version_argv (host_tart host) c t) as Hret.
  pose proof (@run_process_returns true version_argv (host_tart host) c t 0) as Hrets.
  pose proof (run_process_evs true version_argv (host_tart host) c t) as Hev.
  pose proof (@run_process_checked version_argv (host_tart host) c t) as Hzero.
  pose proof (@run_process_no_exit true version_argv (host_tart host) c t) as Hno.
  remember (run_process true version_argv (host_tart host) c t) as r eqn:Er.
  clear Er.
  assert (Hspawn : forall te argv,
             In te (evs r) -> snd te = EvSpawn argv -> argv = version_argv).
  { intros te argv Hin E. rewrite Hev in Hin.
    destruct (cancelled_at c t); [destruct Hin|].
    destruct Hin as [<-|[]]. cbn [snd] in E. injection E as <-. reflexivity. }
  unfold startup_outcome.
  split; [|split].
  - split.
    + intros H. destruct (res r) as [x|e|] eqn:Ex.
      * destruct (host_archive host); [|rewrite res_mk in H; discriminate H].
        split; [|reflexivity]. exists (fin r).
        destruct (Hret x eq_refl) as [Hx _]. rewrite (Hzero x eq_refl) in Hx.
        exact Hx.
      * exfalso. destruct e; try destruct (host_path host);
          rewrite res_mk in H; discriminate H.
      * rewrite res_mk in H. discriminate H.
    + intros [(t' & Ht) Ha]. destruct (Hrets t' Ht) as [out ->].
      rewrite Ha. reflexivity.
  - intros code H. destruct (res r) as [x|e|] eqn:Ex.
    + destruct (host_archive host); rewrite res_mk in H; [discriminate H|].
      injection H as <-. split; [reflexivity|].
      exists archive_not_found_line. rewrite fin_mk, evs_mk.
      apply in_or_app. right. left. reflexivity.
    + destruct e; try (rewrite res_mk in H; discriminate H).
      * destruct (host_path host) as [path|]; rewrite res_mk in H;
          [|discriminate H].
        injection H as <-. split; [reflexivity|].
        exists (tart_not_found_line path). rewrite fin_mk, evs_mk.
        apply in_or_app. right. left. reflexivity.
      * exfalso. exact (Hno code0 eq_refl).
    + rewrite res_mk in H. discriminate H.
  - intros te argv Hin E. destruct (res r) as [x|e|].
    + destruct (host_archive host); rewrite evs_mk in Hin;
        [exact (Hspawn te argv Hin E)|].
      apply in_app_or in Hin. destruct Hin as [Hin|[<-|[]]];
        [exact (Hspawn te argv Hin E) | discriminate E].
    + destruct e; try (rewrite evs_mk in Hin; exact (Hspawn te argv Hin E)).
      destruct (host_path host) as [path|]; rewrite evs_mk in Hin;
        [|exact (Hspawn te argv Hin E)].
      apply in_app_or in Hin. destruct Hin as [Hin|[<-|[]]];
        [exact (Hspawn te argv Hin E) | discriminate E].
    + rewrite evs_mk in Hin. exact (Hspawn te argv Hin E).
Qed.

(** ** Shutdown *)

Lemma supervise_winds_down config ws :
  forall retries, winds_down (supervise config ws retries).
Proof.
  induction ws as [|w ws IH]; intros retries tc t; cbn [supervise].
  - rewrite ret_run, res_mk. discriminate.
  - apply (@winds_down_bind _ _ (iteration config w retries)
             (fun r => supervise config ws r)).
    + apply winds_down_iteration.
    + intros r. apply IH.
Qed.

Lemma supervise_raises_cancelled config ws :
  forall retries c t e,
    res (supervise config ws retries c t) = Raise e -> e = Cancelled /\ c <> None.
Proof.
  induction ws as [|w ws IH]; intros retries c t e; cbn [supervise].
  - rewrite ret_run, res_mk. discriminate.
  - rewrite bind_run.
    pose proof (@iteration_raises config w retries c t) as Hi.
    destruct (res (iteration config w retries c t)) as [r'|e'|]; rewrite res_mk.
    + apply IH.
    + intros [= <-]. apply Hi. reflexivity.
    + discriminate.
Qed.

Lemma omin_none_r a : omin a None = a.
Proof. destruct a; reflexivity. Qed.

(** Left alone, no supervisor raises: none of them cancels the nursery. *)
Lemma supervisors_never_shut_down config t (workers : list (list World)) :
  fold_right omin None
    (map (fun ws => raise_time (keep_one_runner_running config ws None t)) workers)
  = None.
Proof.
  induction workers as [|ws workers IH]; cbn [map fold_right]; [reflexivity|].
  rewrite IH, omin_none_r. unfold raise_time, keep_one_runner_running.
  pose proof (@supervise_raises_cancelled config ws 0 None t) as H.
  destruct (res (supervise config ws 0 None t)) as [r|e|]; try reflexivity.
  destruct (H e eq_refl) as [_ Hc]. contradiction Hc. reflexivity.
Qed.

Lemma signal_handler_raises signal t :
  raise_time (signal_handler signal None t)
  = match signal with
    | Some s => Some (t + s)
    | None => None
    end.
Proof.
  unfold raise_time, signal_handler. rewrite bind_run. unfold block.
  destruct signal as [s|]; rewrite ?res_mk, ?fin_mk; [|reflexivity].
  rewrite raise_run, ?res_mk, ?fin_mk. reflexivity.
Qed.

(** X20.  The slot supervisors are started only when the startup checks
    have passed, and then only a signal shuts the pool down.  Without a
    signal no supervisor is ever cancelled or raises anything.  When
    SIGINT or SIGTERM arrives, every supervisor comes to an end, whatever
    the child processes and the control plane do. *)
Theorem only_a_signal_shuts_the_pool_down config host signal slots r :
  In r (snd (main config host signal slots)) ->
  res (startup_checks host None 0) = Ret tt
  /\ match signal with
     | Some s => res r <> Hang
     | None => forall e, res r <> Raise e
     end.
Proof.
  unfold main. cbv zeta.
  rewrite supervisors_never_shut_down, omin_none_r, signal_handler_raises.
  remember (startup_checks host None 0) as s0 eqn:Es. clear Es.
  destruct (res s0) as [[]| |]; cbn [snd]; intros Hin; try contradiction.
  split; [reflexivity|].
  apply in_map_iff in Hin. destruct Hin as (ws & <- & _).
  unfold keep_one_runner_running.
  destruct signal as [s|].
  - exact (@supervise_winds_down config ws 0 (fin s0 + s) (fin s0)).
  - intros e H. apply supervise_raises_cancelled in H. destruct H as [_ H].
    contradiction H. reflexivity.
Qed.

Lemma only_a_signal_shuts_the_pool_down_witness :
  res (startup_checks sample_host None 0) = Ret tt
  /\ res (keep_one_runner_running sample_config [sample_world] (Some 5) 1) <> Hang.
Proof.
  apply (@only_a_signal_shuts_the_pool_down
           sample_config sample_host (Some 4) [[sample_world]]
           (keep_one_runner_running sample_config [sample_world] (Some 5) 1)).
  vm_compute. left. reflexivity.
Defined.
